(** * A shallow embedding of the [lru] Go module

    Packages modelled:
    - [internal]       : [Entry] and [LRUList], the sentinel ring with its length;
    - [basic_lru]      : the non thread-safe fixed size [LRU];
    - [expirable_lru]  : the [LRU] with expiry buckets and a background sweep;
    - [main] (cache.go): the thread-safe [Cache] facade and its eviction buffer.

    Representation choices.
    - The ring [root <-> e1 <-> ... <-> en <-> root] is the list [e1; ...; en] of
      its non-sentinel nodes, front (most recently used) first; [Back] is the
      last element and [l.len] is the length of the list.
    - A node is identified by its key: the index [entries : map[K]*Entry] maps a
      key to the unique node holding it, so [entries[key]] is the lookup of the
      key in the list, and writing through [*Entry] updates that node in place.
    - Go's [time.Time] is an integer count of nanoseconds; the zero time is 0.
    - An eviction callback is either nil ([false]) or present ([true]); a call
      [onEvict(k, v)] is recorded as the pair [(k, v)] in the list of callback
      invocations returned by the operation, in call order.
    - [for k, v := range m] iterates a Go map in an unspecified order; that
      order is an explicit argument of the operations that do it. *)

From Stdlib Require Import List ZArith Lia Permutation Bool.
Import ListNotations.
Open Scope Z_scope.

(** Go's [comparable] constraint on keys. *)
Class Comparable (K : Type) := key_eq_dec : forall x y : K, {x = y} + {x <> y}.

#[global] Instance Comparable_nat : Comparable nat := Nat.eq_dec.

(** The error of [basic_lru.NewLRU]:
    [fmt.Errorf("invalid cache size (%d), must be bigger than zero", size)]. *)
Inductive SizeError := InvalidSize (size : Z).

(** ** Package [internal] *)
Module Internal.

Record Entry (K V : Type) := mkEntry {
  Key : K;
  Value : V;
  ExpiresAt : Z;
  Bucket : Z
}.
Arguments mkEntry {K V}.
Arguments Key {K V}.
Arguments Value {K V}.
Arguments ExpiresAt {K V}.
Arguments Bucket {K V}.

Section LRUList.
Context {K V : Type} `{Comparable K}.

Definition LRUList := list (Entry K V).

Definition same_key (k : K) (e : Entry K V) : bool :=
  if key_eq_dec (Key e) k then true else false.

(** [entries[key]]: the node holding [key]. *)
Fixpoint Lookup (k : K) (l : LRUList) : option (Entry K V) :=
  match l with
  | [] => None
  | e :: l' => if same_key k e then Some e else Lookup k l'
  end.

(** [l.Len()] *)
Definition Len (l : LRUList) : Z := Z.of_nat (length l).

(** [l.Back()]: [nil] when [l.len == 0], else [l.root.prev]. *)
Fixpoint Back (l : LRUList) : option (Entry K V) :=
  match l with
  | [] => None
  | [e] => Some e
  | _ :: l' => Back l'
  end.

(** [l.Remove(e)]: unlink the node [e] (the node with [e]'s key). *)
Fixpoint Remove (k : K) (l : LRUList) : LRUList :=
  match l with
  | [] => []
  | e :: l' => if same_key k e then l' else e :: Remove k l'
  end.

(** [l.PushToFront(k, v)]: a node with the zero [ExpiresAt] after the root. *)
Definition PushToFront (k : K) (v : V) (l : LRUList) : LRUList :=
  mkEntry k v 0 0 :: l.

(** [l.PushToFrontExpirable(k, v, expiresAt)] *)
Definition PushToFrontExpirable (k : K) (v : V) (expiresAt : Z) (l : LRUList)
  : LRUList :=
  mkEntry k v expiresAt 0 :: l.

(** [l.MoveToFront(e)]: nothing when [l.root.next == e], else [move(e, &l.root)]. *)
Definition MoveToFront (e : Entry K V) (l : LRUList) : LRUList :=
  match l with
  | [] => l
  | e0 :: _ => if same_key (Key e) e0 then l else e :: Remove (Key e) l
  end.

(** A write [entry.F = x] through the pointer to the node holding [k]. *)
Fixpoint Update (k : K) (f : Entry K V -> Entry K V) (l : LRUList) : LRUList :=
  match l with
  | [] => []
  | e :: l' => if same_key k e then f e :: l' else e :: Update k f l'
  end.

(** Walking [Back], [PrevEntry], ... visits the nodes oldest to newest. *)
Definition oldest_to_newest (l : LRUList) : LRUList := rev l.

Definition kv (e : Entry K V) : K * V := (Key e, Value e).

End LRUList.
End Internal.
Import Internal.

(** ** Package [basic_lru] *)
Module BasicLRU.

Record LRU (K V : Type) := mkLRU {
  size : Z;
  evictList : LRUList (K := K) (V := V);
  onEvict : bool
}.
Arguments mkLRU {K V}.
Arguments size {K V}.
Arguments evictList {K V}.
Arguments onEvict {K V}.

Section Basic.
Context {K V : Type} `{Comparable K}.

Local Notation LRU := (LRU K V).
Local Notation Evictions := (list (K * V)).

Definition with_list (s : LRU) (l : LRUList) : LRU :=
  mkLRU (size s) l (onEvict s).

(** [NewLRU(size, onEvict)] *)
Definition NewLRU (sz : Z) (cb : bool) : SizeError + LRU :=
  if sz <=? 0 then inl (InvalidSize sz) else inr (mkLRU sz [] cb).

(** [l.removeEntry(entry)]: unlink, [delete(l.entries, entry.Key)], callback. *)
Definition removeEntry (e : Entry K V) (s : LRU) : LRU * Evictions :=
  (with_list s (Remove (Key e) (evictList s)),
   if onEvict s then [kv e] else []).

(** [l.removeOldest()] *)
Definition removeOldest (s : LRU) : LRU * Evictions :=
  match Back (evictList s) with
  | Some e => removeEntry e s
  | None => (s, [])
  end.

Definition set_value (v : V) (e : Entry K V) : Entry K V :=
  mkEntry (Key e) v (ExpiresAt e) (Bucket e).

(** [l.Add(key, value) (evicted bool)] *)
Definition Add (k : K) (v : V) (s : LRU) : LRU * bool * Evictions :=
  match Lookup k (evictList s) with
  | Some e =>
      let l := MoveToFront e (evictList s) in
      (with_list s (Update k (set_value v) l), false, [])
  | None =>
      let s1 := with_list s (PushToFront k v (evictList s)) in
      let evict := Len (evictList s1) >? size s in
      if evict then
        let '(s2, ev) := removeOldest s1 in (s2, true, ev)
      else (s1, false, [])
  end.

(** [l.Get(key) (value V, ok bool)] *)
Definition Get (k : K) (s : LRU) : LRU * option V :=
  match Lookup k (evictList s) with
  | Some e => (with_list s (MoveToFront e (evictList s)), Some (Value e))
  | None => (s, None)
  end.

(** [l.Contains(key)] *)
Definition Contains (k : K) (s : LRU) : bool :=
  match Lookup k (evictList s) with Some _ => true | None => false end.

(** [l.Peek(key)] *)
Definition Peek (k : K) (s : LRU) : option V :=
  match Lookup k (evictList s) with Some e => Some (Value e) | None => None end.

(** [l.Remove(key) (ok bool)] *)
Definition RemoveKey (k : K) (s : LRU) : LRU * bool * Evictions :=
  match Lookup k (evictList s) with
  | Some e => let '(s', ev) := removeEntry e s in (s', true, ev)
  | None => (s, false, [])
  end.

(** [l.RemoveOldest()] *)
Definition RemoveOldest (s : LRU) : LRU * option (K * V) * Evictions :=
  match Back (evictList s) with
  | Some e => let '(s', ev) := removeEntry e s in (s', Some (kv e), ev)
  | None => (s, None, [])
  end.

(** [l.GetOldest()] *)
Definition GetOldest (s : LRU) : option (K * V) :=
  match Back (evictList s) with Some e => Some (kv e) | None => None end.

(** [l.Keys()], [l.Values()]: oldest to newest. *)
Definition Keys (s : LRU) : list K := map Key (oldest_to_newest (evictList s)).
Definition Values (s : LRU) : list V := map Value (oldest_to_newest (evictList s)).

(** [l.Len()], [l.Cap()] *)
Definition LenL (s : LRU) : Z := Len (evictList s).
Definition Cap (s : LRU) : Z := size s.

(** [l.Purge()]: [ord] is the order in which [range l.entries] visits the
    nodes; every visited node gets the callback, then [l.evictList.Init()]. *)
Definition Purge (ord : list (Entry K V)) (s : LRU) : LRU * Evictions :=
  (with_list s [], if onEvict s then map kv ord else []).

(** [for i := 0; i < diff; i++ { l.removeOldest() }] *)
Fixpoint removeOldest_n (n : nat) (s : LRU) : LRU * Evictions :=
  match n with
  | O => (s, [])
  | S n' =>
      let '(s1, ev1) := removeOldest s in
      let '(s2, ev2) := removeOldest_n n' s1 in (s2, ev1 ++ ev2)
  end.

(** Go's [int] (64 bits): its range, and the two's-complement wrap-around
    of [int] arithmetic. *)
Definition is_int (z : Z) : bool := (- 2 ^ 63 <=? z) && (z <? 2 ^ 63).
Definition int_wrap (z : Z) : Z := (z + 2 ^ 63) mod 2 ^ 64 - 2 ^ 63.

(** [l.Resize(size) (evicted int)]; [l.Len() - size] is [int] arithmetic. *)
Definition Resize (sz : Z) (s : LRU) : LRU * Z * Evictions :=
  let diff := int_wrap (LenL s - sz) in
  let diff := if diff <? 0 then 0 else diff in
  let '(s1, ev) := removeOldest_n (Z.to_nat diff) s in
  (mkLRU sz (evictList s1) (onEvict s1), diff, ev).

(** The public methods, for the reachable states of a cache. *)
Inductive Op :=
| OAdd (k : K) (v : V) | OGet (k : K) | OContains (k : K) | OPeek (k : K)
| ORemove (k : K) | ORemoveOldest | OGetOldest | OKeys | OValues | OLen | OCap
| OPurge (ord : list (Entry K V)) | OResize (n : Z).

(** The state after a method and the callbacks it made. *)
Definition exec (op : Op) (s : LRU) : LRU * Evictions :=
  match op with
  | OAdd k v => let '(s', _, ev) := Add k v s in (s', ev)
  | OGet k => (fst (Get k s), [])
  | ORemove k => let '(s', _, ev) := RemoveKey k s in (s', ev)
  | ORemoveOldest => let '(s', _, ev) := RemoveOldest s in (s', ev)
  | OPurge ord => Purge ord s
  | OResize n => let '(s', _, ev) := Resize n s in (s', ev)
  | OContains _ | OPeek _ | OGetOldest | OKeys | OValues | OLen | OCap => (s, [])
  end.

(** The [int] arguments of a call lie in the range of Go's [int]. *)
Definition op_args_int (op : Op) : bool :=
  match op with OResize n => is_int n | _ => true end.

Inductive reachable : LRU -> Prop :=
| reachable_new (sz : Z) (cb : bool) (s : LRU) :
    is_int sz = true -> NewLRU sz cb = inr s -> reachable s
| reachable_step (op : Op) (s : LRU) :
    op_args_int op = true -> reachable s -> reachable (fst (exec op s)).

(** [Add] over a sequence of (key, value) pairs, no other call in between. *)
Fixpoint add_all (kvs : list (K * V)) (s : LRU) : LRU :=
  match kvs with
  | [] => s
  | (k, v) :: kvs' => add_all kvs' (fst (fst (Add k v s)))
  end.

End Basic.
End BasicLRU.

(** ** Package [expirable_lru] *)
Module ExpirableLRU.

(** [noEvictionTTL = time.Hour * 24 * 365 * 100], in nanoseconds. *)
Definition noEvictionTTL : Z := 3600 * 1000000000 * 24 * 365 * 100.
Definition numBuckets : Z := 100.

(** [bucket.entries : map[K]*Entry] holds references to the shared nodes; it
    is the set of their keys, each resolved through the list. *)
Record bucket (K : Type) := mkBucket { bentries : list K; newestEntry : Z }.
Arguments mkBucket {K}.
Arguments bentries {K}.
Arguments newestEntry {K}.

Record LRU (K V : Type) := mkLRU {
  size : Z;
  evictList : LRUList (K := K) (V := V);
  onEvict : bool;
  ttl : Z;
  buckets : list (bucket K);
  nextBucket : Z
}.
Arguments mkLRU {K V}.
Arguments size {K V}.
Arguments evictList {K V}.
Arguments onEvict {K V}.
Arguments ttl {K V}.
Arguments buckets {K V}.
Arguments nextBucket {K V}.

Fixpoint set_nth {A : Type} (n : nat) (x : A) (l : list A) : list A :=
  match l, n with
  | [], _ => []
  | _ :: l', O => x :: l'
  | y :: l', S n' => y :: set_nth n' x l'
  end.

Section Expirable.
Context {K V : Type} `{Comparable K}.

Local Notation LRU := (LRU K V).
Local Notation Evictions := (list (K * V)).

Definition empty_bucket : bucket K := mkBucket [] 0.

Definition with_list (s : LRU) (l : LRUList) : LRU :=
  mkLRU (size s) l (onEvict s) (ttl s) (buckets s) (nextBucket s).
Definition with_buckets (s : LRU) (bs : list (bucket K)) : LRU :=
  mkLRU (size s) (evictList s) (onEvict s) (ttl s) bs (nextBucket s).
Definition with_size (s : LRU) (sz : Z) : LRU :=
  mkLRU sz (evictList s) (onEvict s) (ttl s) (buckets s) (nextBucket s).

(** [NewLRU(size, onEvict, ttl)]; the sweeping goroutine is started when
    [ttl != noEvictionTTL] (see [reachable]). *)
Definition NewLRU (sz : Z) (cb : bool) (t : Z) : LRU :=
  let sz := if sz <? 0 then 0 else sz in
  let t := if t <=? 0 then noEvictionTTL else t in
  mkLRU sz [] cb t (repeat empty_bucket (Z.to_nat numBuckets)) 0.

Definition get_bucket (s : LRU) (i : Z) : bucket K :=
  nth (Z.to_nat i) (buckets s) empty_bucket.
Definition put_bucket (s : LRU) (i : Z) (b : bucket K) : LRU :=
  with_buckets s (set_nth (Z.to_nat i) b (buckets s)).

(** [m[k] = e] and [delete(m, k)] on a bucket's key set. *)
Definition map_insert (k : K) (ks : list K) : list K :=
  if existsb (fun k' => if key_eq_dec k' k then true else false) ks then ks
  else k :: ks.
Definition map_delete (k : K) (ks : list K) : list K :=
  filter (fun k' => if key_eq_dec k' k then false else true) ks.

(** [l.addToBucket(entry)], [e] being the current content of the node. *)
Definition addToBucket (e : Entry K V) (s : LRU) : LRU :=
  let bucketIndex := nextBucket s mod numBuckets in
  let s1 := with_list s (Update (Key e)
              (fun e0 => mkEntry (Key e0) (Value e0) (ExpiresAt e0) bucketIndex)
              (evictList s)) in
  let b := get_bucket s1 bucketIndex in
  let newest := if newestEntry b <? ExpiresAt e then ExpiresAt e else newestEntry b in
  put_bucket s1 bucketIndex (mkBucket (map_insert (Key e) (bentries b)) newest).

(** [l.removeFromBucket(entry)] *)
Definition removeFromBucket (e : Entry K V) (s : LRU) : LRU :=
  let b := get_bucket s (Bucket e) in
  put_bucket s (Bucket e) (mkBucket (map_delete (Key e) (bentries b)) (newestEntry b)).

(** [l.removeEntry(entry)] *)
Definition removeEntry (e : Entry K V) (s : LRU) : LRU * Evictions :=
  let s1 := with_list s (Remove (Key e) (evictList s)) in
  (removeFromBucket e s1, if onEvict s then [kv e] else []).

(** [l.removeOldest()] *)
Definition removeOldest (s : LRU) : LRU * Evictions :=
  match Back (evictList s) with
  | Some e => removeEntry e s
  | None => (s, [])
  end.

(** [l.Add(key, value)] at time [now]. *)
Definition Add (now : Z) (k : K) (v : V) (s : LRU) : LRU * bool * Evictions :=
  let expiresAt := now + ttl s in
  match Lookup k (evictList s) with
  | Some e =>
      let s1 := with_list s (MoveToFront e (evictList s)) in
      let s2 := removeFromBucket e s1 in
      let e' := mkEntry (Key e) v expiresAt (Bucket e) in
      let s3 := with_list s2 (Update k (fun _ => e') (evictList s2)) in
      (addToBucket e' s3, false, [])
  | None =>
      let s1 := with_list s (PushToFrontExpirable k v expiresAt (evictList s)) in
      let s2 := addToBucket (mkEntry k v expiresAt 0) s1 in
      let evict := (size s2 >? 0) && (Len (evictList s2) >? size s2) in
      if evict then let '(s3, ev) := removeOldest s2 in (s3, true, ev)
      else (s2, false, [])
  end.

(** [time.Now().After(entry.ExpiresAt)] *)
Definition expired (now : Z) (e : Entry K V) : bool := ExpiresAt e <? now.

(** [l.Get(key)] at time [now]. *)
Definition Get (now : Z) (k : K) (s : LRU) : LRU * option V :=
  match Lookup k (evictList s) with
  | Some e =>
      if expired now e then (s, None)
      else (with_list s (MoveToFront e (evictList s)), Some (Value e))
  | None => (s, None)
  end.

(** [l.Contains(key)] *)
Definition Contains (k : K) (s : LRU) : bool :=
  match Lookup k (evictList s) with Some _ => true | None => false end.

(** [l.Peek(key)] at time [now]. *)
Definition Peek (now : Z) (k : K) (s : LRU) : option V :=
  match Lookup k (evictList s) with
  | Some e => if expired now e then None else Some (Value e)
  | None => None
  end.

(** [l.Remove(key)] *)
Definition RemoveKey (k : K) (s : LRU) : LRU * bool * Evictions :=
  match Lookup k (evictList s) with
  | Some e => let '(s', ev) := removeEntry e s in (s', true, ev)
  | None => (s, false, [])
  end.

(** [l.RemoveOldest()] *)
Definition RemoveOldest (s : LRU) : LRU * option (K * V) * Evictions :=
  match Back (evictList s) with
  | Some e => let '(s', ev) := removeEntry e s in (s', Some (kv e), ev)
  | None => (s, None, [])
  end.

(** [l.GetOldest()] *)
Definition GetOldest (s : LRU) : option (K * V) :=
  match Back (evictList s) with Some e => Some (kv e) | None => None end.

(** [l.Keys()], [l.Values()] at time [now]: expired nodes are skipped. *)
Definition Keys (now : Z) (s : LRU) : list K :=
  map Key (filter (fun e => negb (expired now e)) (oldest_to_newest (evictList s))).
Definition Values (now : Z) (s : LRU) : list V :=
  map Value (filter (fun e => negb (expired now e)) (oldest_to_newest (evictList s))).

(** [l.Len()], [l.Cap()] *)
Definition LenL (s : LRU) : Z := Len (evictList s).
Definition Cap (s : LRU) : Z := size s.

(** [l.Purge()]: callbacks in the order [ord] of [range l.entries], every
    bucket emptied (its [newestEntry] kept), then [l.evictList.Init()]. *)
Definition Purge (ord : list (Entry K V)) (s : LRU) : LRU * Evictions :=
  let bs := map (fun b => mkBucket [] (newestEntry b)) (buckets s) in
  (with_list (with_buckets s bs) [], if onEvict s then map kv ord else []).

Fixpoint removeOldest_n (n : nat) (s : LRU) : LRU * Evictions :=
  match n with
  | O => (s, [])
  | S n' =>
      let '(s1, ev1) := removeOldest s in
      let '(s2, ev2) := removeOldest_n n' s1 in (s2, ev1 ++ ev2)
  end.

(** [l.Resize(size)] *)
Definition Resize (sz : Z) (s : LRU) : LRU * Z * Evictions :=
  if sz <=? 0 then (with_size s 0, 0, [])
  else
    let diff := LenL s - sz in
    let diff := if diff <? 0 then 0 else diff in
    let '(s1, ev) := removeOldest_n (Z.to_nat diff) s in
    (with_size s1 sz, diff, ev).

(** The critical section of [l.deleteExpired()] after its wait: every node of
    the bucket at [nextBucket] is removed, in the order [ord] in which [range]
    visits that bucket, then the cursor advances.  The wait itself releases
    the lock, so other calls interleave with the sweep as separate steps. *)
Fixpoint remove_keys (ord : list K) (s : LRU) : LRU * Evictions :=
  match ord with
  | [] => (s, [])
  | k :: ord' =>
      let '(s1, ev1) :=
        match Lookup k (evictList s) with
        | Some e => removeEntry e s
        | None => (s, [])
        end in
      let '(s2, ev2) := remove_keys ord' s1 in (s2, ev1 ++ ev2)
  end.

Definition deleteExpired (ord : list K) (s : LRU) : LRU * Evictions :=
  let '(s1, ev) := remove_keys ord s in
  (mkLRU (size s1) (evictList s1) (onEvict s1) (ttl s1) (buckets s1)
         ((nextBucket s1 + 1) mod numBuckets), ev).

Inductive Op :=
| OAdd (now : Z) (k : K) (v : V) | OGet (now : Z) (k : K) | OContains (k : K)
| OPeek (now : Z) (k : K) | ORemove (k : K) | ORemoveOldest | OGetOldest
| OKeys (now : Z) | OValues (now : Z) | OLen | OCap
| OPurge (ord : list (Entry K V)) | OResize (n : Z).

Definition exec (op : Op) (s : LRU) : LRU * Evictions :=
  match op with
  | OAdd now k v => let '(s', _, ev) := Add now k v s in (s', ev)
  | OGet now k => (fst (Get now k s), [])
  | ORemove k => let '(s', _, ev) := RemoveKey k s in (s', ev)
  | ORemoveOldest => let '(s', _, ev) := RemoveOldest s in (s', ev)
  | OPurge ord => Purge ord s
  | OResize n => let '(s', _, ev) := Resize n s in (s', ev)
  | OContains _ | OPeek _ _ | OGetOldest | OKeys _ | OValues _ | OLen | OCap =>
      (s, [])
  end.

(** States reachable by the public methods and the background sweep. *)
Inductive reachable : LRU -> Prop :=
| reachable_new (sz : Z) (cb : bool) (t : Z) : reachable (NewLRU sz cb t)
| reachable_step (op : Op) (s : LRU) :
    reachable s -> reachable (fst (exec op s))
| reachable_sweep (ord : list K) (s : LRU) :
    reachable s -> ttl s <> noEvictionTTL ->
    reachable (fst (deleteExpired ord s)).

End Expirable.
End ExpirableLRU.

(** ** The thread-safe facade [Cache] (cache.go)

    The lock only serialises the methods; each method below is one critical
    section followed by the user callbacks it makes after [Unlock]. *)
Module Facade.

Definition DefaultEvictedBufferSize : Z := 16.

Record Cache (K V : Type) := mkCache {
  lru : BasicLRU.LRU K V;
  evictedKeys : list K;
  evictedValues : list V;
  onEvict : bool
}.
Arguments mkCache {K V}.
Arguments lru {K V}.
Arguments evictedKeys {K V}.
Arguments evictedValues {K V}.
Arguments onEvict {K V}.

Section Facade.
Context {K V : Type} `{Comparable K}.

Local Notation Cache := (Cache K V).
Local Notation Evictions := (list (K * V)).

(** [NewWithOnEvict(size, onEvict)]: the wrapped [LRU] is given the internal
    callback [c.onEvictCB] when [onEvict != nil], nil otherwise.  Go returns
    [(c, err)]; on error [c.lru] is nil, which is [None] here. *)
Definition NewWithOnEvict (sz : Z) (cb : bool) : option Cache * option SizeError :=
  match BasicLRU.NewLRU sz cb with
  | inr l => (Some (mkCache l [] [] cb), None)
  | inl err => (None, Some err)
  end.

(** [New(size)] *)
Definition New (sz : Z) : option Cache * option SizeError := NewWithOnEvict sz false.

(** [c.onEvictCB] appends each callback of the wrapped [LRU] to the buffer. *)
Definition buffer (c : Cache) (l : BasicLRU.LRU K V) (ev : Evictions) : Cache :=
  mkCache l (evictedKeys c ++ map fst ev) (evictedValues c ++ map snd ev) (onEvict c).

(** After a call that evicted at most one entry:
    [if cond && c.onEvict != nil { k, v = c.evictedKeys[0], c.evictedValues[0];
    c.evictedKeys, c.evictedValues = c.evictedKeys[:0], c.evictedValues[:0] }],
    then [c.onEvict(k, v)] after [Unlock].  [None] is an index-out-of-range panic. *)
Definition drain_one (cond : bool) (c : Cache) : option (Cache * Evictions) :=
  if cond && onEvict c then
    match evictedKeys c, evictedValues c with
    | k :: _, v :: _ => Some (mkCache (lru c) [] [] (onEvict c), [(k, v)])
    | _, _ => None
    end
  else Some (c, []).

(** [for i := 0; i < len(keys); i++ { c.onEvict(keys[i], values[i]) }] *)
Fixpoint callbacks (ks : list K) (vs : list V) : option Evictions :=
  match ks, vs with
  | [], _ => Some []
  | k :: ks', v :: vs' =>
      match callbacks ks' vs' with Some r => Some ((k, v) :: r) | None => None end
  | _ :: _, [] => None
  end.

(** After [Purge] or [Resize]: [if cond && c.onEvict != nil { keys, values =
    c.evictedKeys, c.evictedValues; c.initEvictBuffers() }], then the callbacks
    over [keys, values] after [Unlock]. *)
Definition drain_all (cond : bool) (c : Cache) : option (Cache * Evictions) :=
  if cond && onEvict c then
    match callbacks (evictedKeys c) (evictedValues c) with
    | Some calls => Some (mkCache (lru c) [] [] (onEvict c), calls)
    | None => None
    end
  else Some (c, []).

(** [c.Add(key, value)] *)
Definition Add (k : K) (v : V) (c : Cache) : option (Cache * bool * Evictions) :=
  let '(l, evicted, ev) := BasicLRU.Add k v (lru c) in
  match drain_one evicted (buffer c l ev) with
  | Some (c', calls) => Some (c', evicted, calls)
  | None => None
  end.

(** [c.Get(key)] *)
Definition Get (k : K) (c : Cache) : Cache * option V :=
  let '(l, r) := BasicLRU.Get k (lru c) in
  (mkCache l (evictedKeys c) (evictedValues c) (onEvict c), r).

(** [c.ContainsOrAdd(key, value) (ok, evicted bool)] *)
Definition ContainsOrAdd (k : K) (v : V) (c : Cache)
  : option (Cache * (bool * bool) * Evictions) :=
  if BasicLRU.Contains k (lru c) then Some (c, (true, false), [])
  else
    let '(l, evicted, ev) := BasicLRU.Add k v (lru c) in
    match drain_one evicted (buffer c l ev) with
    | Some (c', calls) => Some (c', (false, evicted), calls)
    | None => None
    end.

(** [c.PeekOrAdd(key, value) (prev V, ok, evicted bool)] *)
Definition PeekOrAdd (k : K) (v : V) (c : Cache)
  : option (Cache * (option V * bool) * Evictions) :=
  match BasicLRU.Peek k (lru c) with
  | Some prev => Some (c, (Some prev, false), [])
  | None =>
      let '(l, evicted, ev) := BasicLRU.Add k v (lru c) in
      match drain_one evicted (buffer c l ev) with
      | Some (c', calls) => Some (c', (None, evicted), calls)
      | None => None
      end
  end.

(** [c.Remove(key)] *)
Definition RemoveKey (k : K) (c : Cache) : option (Cache * bool * Evictions) :=
  let '(l, ok, ev) := BasicLRU.RemoveKey k (lru c) in
  match drain_one ok (buffer c l ev) with
  | Some (c', calls) => Some (c', ok, calls)
  | None => None
  end.

(** [c.RemoveOldest()] *)
Definition RemoveOldest (c : Cache) : option (Cache * option (K * V) * Evictions) :=
  let '(l, r, ev) := BasicLRU.RemoveOldest (lru c) in
  let ok := match r with Some _ => true | None => false end in
  match drain_one ok (buffer c l ev) with
  | Some (c', calls) => Some (c', r, calls)
  | None => None
  end.

(** [c.Purge()]: [ord] is the iteration order of the wrapped [Purge]. *)
Definition Purge (ord : list (Entry K V)) (c : Cache) : option (Cache * Evictions) :=
  let '(l, ev) := BasicLRU.Purge ord (lru c) in
  let c1 := buffer c l ev in
  drain_all (0 <? Z.of_nat (length (evictedKeys c1))) c1.

(** [c.Resize(size)] *)
Definition Resize (sz : Z) (c : Cache) : option (Cache * Z * Evictions) :=
  let '(l, evicted, ev) := BasicLRU.Resize sz (lru c) in
  match drain_all (0 <? evicted) (buffer c l ev) with
  | Some (c', calls) => Some (c', evicted, calls)
  | None => None
  end.

Inductive Op :=
| OAdd (k : K) (v : V) | OGet (k : K) | OContains (k : K) | OPeek (k : K)
| OContainsOrAdd (k : K) (v : V) | OPeekOrAdd (k : K) (v : V)
| ORemove (k : K) | ORemoveOldest | OGetOldest | OKeys | OValues | OLen | OCap
| OPurge (ord : list (Entry K V)) | OResize (n : Z).

(** The state after a public call and the user callbacks it made, or [None]
    for a run-time panic. *)
Definition exec (op : Op) (c : Cache) : option (Cache * Evictions) :=
  let drop {R : Type} (r : option (Cache * R * Evictions)) :=
    match r with Some (c', _, calls) => Some (c', calls) | None => None end in
  match op with
  | OAdd k v => drop (Add k v c)
  | OGet k => Some (fst (Get k c), [])
  | OContainsOrAdd k v => drop (ContainsOrAdd k v c)
  | OPeekOrAdd k v => drop (PeekOrAdd k v c)
  | ORemove k => drop (RemoveKey k c)
  | ORemoveOldest => drop (RemoveOldest c)
  | OPurge ord => Purge ord c
  | OResize n => drop (Resize n c)
  | OContains _ | OPeek _ | OGetOldest | OKeys | OValues | OLen | OCap =>
      Some (c, [])
  end.

Inductive reachable : Cache -> Prop :=
| reachable_new (sz : Z) (cb : bool) (c : Cache) :
    fst (NewWithOnEvict sz cb) = Some c -> reachable c
| reachable_step (op : Op) (c c' : Cache) (calls : Evictions) :
    reachable c -> exec op c = Some (c', calls) -> reachable c'.

End Facade.
End Facade.

(** ** Tests on small inputs *)
Module Tests.
Import BasicLRU.

Definition e (k v : nat) : Entry nat nat := mkEntry k v 0 0.

Example add_evicts :
  add_all [(1%nat, 10%nat); (2%nat, 20%nat); (3%nat, 30%nat)] (mkLRU 2 [] true)
  = mkLRU 2 [e 3 30; e 2 20] true.
Proof. reflexivity. Qed.

Example add_existing :
  Add 1%nat 11%nat (mkLRU 2 [e 2 20; e 1 10] true)
  = (mkLRU 2 [e 1 11; e 2 20] true, false, []).
Proof. reflexivity. Qed.

Example resize_shrink :
  Resize 1 (mkLRU 3 [e 3 30; e 2 20; e 1 10] true)
  = (mkLRU 1 [e 3 30] true, 2, [(1%nat, 10%nat); (2%nat, 20%nat)]).
Proof. reflexivity. Qed.

Example facade_add :
  Facade.Add 3%nat 30%nat (Facade.mkCache (mkLRU 2 [e 2 20; e 1 10] true) [] [] true)
  = Some (Facade.mkCache (mkLRU 2 [e 3 30; e 2 20] true) [] [] true, true,
          [(1%nat, 10%nat)]).
Proof. reflexivity. Qed.

End Tests.

(** * Proofs: the list primitives *)
Module ListFacts.
Section ListFacts.
Context {K V : Type} `{Comparable K}.

Lemma same_key_true (k : K) (e : Entry K V) : same_key k e = true <-> Key e = k.
Proof. unfold same_key; destruct (key_eq_dec (Key e) k); split; intros; congruence. Qed.

Lemma same_key_false (k : K) (e : Entry K V) : same_key k e = false <-> Key e <> k.
Proof. unfold same_key; destruct (key_eq_dec (Key e) k); split; intros; congruence. Qed.

Lemma Lookup_Some_key (k : K) (l : list (Entry K V)) (e : Entry K V) :
  Lookup k l = Some e -> Key e = k.
Proof.
  induction l as [|e0 l IH]; simpl; [discriminate|].
  case_eq (same_key k e0); intros Hs Hl; [|auto].
  injection Hl as <-; now apply same_key_true.
Qed.

Lemma Lookup_Some_In (k : K) (l : list (Entry K V)) (e : Entry K V) :
  Lookup k l = Some e -> In e l.
Proof.
  induction l as [|e0 l IH]; simpl; [discriminate|].
  destruct (same_key k e0); intros Hl; [injection Hl as <-; auto | auto].
Qed.

Lemma Lookup_None (k : K) (l : list (Entry K V)) :
  ~ In k (map Key l) -> Lookup k l = None.
Proof.
  induction l as [|e0 l IH]; simpl; intros Hn; [reflexivity|].
  case_eq (same_key k e0); intros Hs.
  - apply same_key_true in Hs; tauto.
  - apply IH; tauto.
Qed.

Lemma MoveToFront_Lookup (k : K) (l : list (Entry K V)) (e : Entry K V) :
  Lookup k l = Some e -> MoveToFront e l = e :: Remove k l.
Proof.
  intros Hl. pose proof (Lookup_Some_key _ _ _ Hl) as Hk.
  destruct l as [|e0 l]; [discriminate|]. simpl in *.
  rewrite Hk. case_eq (same_key k e0); intros Hs; rewrite Hs in Hl.
  - now injection Hl as ->.
  - reflexivity.
Qed.

Lemma Remove_length_Lookup (k : K) (l : list (Entry K V)) (e : Entry K V) :
  Lookup k l = Some e -> S (length (Remove k l)) = length l.
Proof.
  induction l as [|e0 l IH]; simpl; [discriminate|].
  destruct (same_key k e0); intros Hl; simpl; auto.
Qed.

Lemma Remove_app_last (k : K) (l : list (Entry K V)) (x : Entry K V) :
  ~ In k (map Key l) -> Key x = k -> Remove k (l ++ [x]) = l.
Proof.
  intros Hn Hx. induction l as [|e0 l IH]; simpl.
  - now rewrite (proj2 (same_key_true k x) Hx).
  - simpl in Hn. case_eq (same_key k e0); intros Hs.
    + apply same_key_true in Hs; tauto.
    + rewrite IH; tauto.
Qed.

Lemma Back_app_last (l : list (Entry K V)) (x : Entry K V) : Back (l ++ [x]) = Some x.
Proof.
  induction l as [|e0 l IH]; [reflexivity|].
  simpl. destruct (l ++ [x]) eqn:E; [now destruct l | exact IH].
Qed.

Lemma Back_In (l : list (Entry K V)) (x : Entry K V) : Back l = Some x -> In x l.
Proof.
  induction l as [|e0 l IH]; simpl; [discriminate|].
  destruct l as [|e1 l]; [intros Hb; injection Hb as <-; auto|].
  intros Hb; right; auto.
Qed.

Lemma Back_None (l : list (Entry K V)) : Back l = None -> l = [].
Proof.
  induction l as [|e0 l IH]; simpl; [reflexivity|].
  destruct l as [|e1 l]; [discriminate|]. intros Hb; specialize (IH Hb); discriminate.
Qed.

(** Removing the node holding a key that is present shortens the list by one;
    removing any key never lengthens it. *)
Lemma Remove_length_le (k : K) (l : list (Entry K V)) : (length (Remove k l) <= length l)%nat.
Proof.
  induction l as [|e0 l IH]; simpl; [lia|]. destruct (same_key k e0); simpl; lia.
Qed.

Lemma Remove_length_In (k : K) (l : list (Entry K V)) :
  In k (map Key l) -> S (length (Remove k l)) = length l.
Proof.
  induction l as [|e0 l IH]; simpl; [tauto|].
  case_eq (same_key k e0); intros Hs Hin; simpl; [reflexivity|].
  apply same_key_false in Hs. destruct Hin as [Hin|Hin]; [congruence|]. auto.
Qed.

Lemma Update_length (k : K) f (l : list (Entry K V)) : length (Update k f l) = length l.
Proof. induction l as [|e0 l IH]; simpl; [|destruct (same_key k e0)]; simpl; auto. Qed.

End ListFacts.
End ListFacts.
Import ListFacts.

(** * Proofs: [basic_lru] *)
Module BasicProofs.
Import BasicLRU.
Section BasicProofs.
Context {K V : Type} `{Comparable K}.

Ltac gtb_case :=
  match goal with |- context [?a >? ?b] => destruct (Z.gtb_spec a b) end;
  rewrite ?Zpos_P_of_succ_nat in *.

(** The node [PushToFront] creates for a pair. *)
Definition mk (p : K * V) : Entry K V := mkEntry (fst p) (snd p) 0 0.

Lemma map_Key_mk (ps : list (K * V)) : map Key (map mk ps) = map fst ps.
Proof. induction ps as [|p ps IH]; simpl; congruence. Qed.

Lemma Keys_rev_mk (C : Z) (cb : bool) (ps : list (K * V)) :
  Keys (mkLRU C (rev (map mk ps)) cb) = map fst ps.
Proof. unfold Keys, oldest_to_newest; simpl. now rewrite rev_involutive, map_Key_mk. Qed.

Lemma Lookup_rev_mk_None (k : K) (ps : list (K * V)) :
  ~ In k (map fst ps) -> Lookup k (rev (map mk ps)) = None.
Proof.
  intros Hn; apply Lookup_None. rewrite map_rev, map_Key_mk, <- in_rev; exact Hn.
Qed.

Lemma add_all_app (kvs1 kvs2 : list (K * V)) (s : LRU K V) :
  add_all (kvs1 ++ kvs2) s = add_all kvs2 (add_all kvs1 s).
Proof.
  revert s; induction kvs1 as [|[k v] kvs1 IH]; intros s; simpl; auto.
Qed.

(** A fresh key on a cache below its capacity: no eviction. *)
Lemma add_fresh_no_evict (C : Z) (cb : bool) (ps : list (K * V)) (k : K) (v : V) :
  (Z.of_nat (length ps) < C) -> ~ In k (map fst ps) ->
  Add k v (mkLRU C (rev (map mk ps)) cb)
  = (mkLRU C (rev (map mk (ps ++ [(k, v)]))) cb, false, []).
Proof.
  intros Hlt Hn. unfold Add; simpl. rewrite (Lookup_rev_mk_None k ps Hn).
  unfold Len; simpl. rewrite length_rev, length_map.
  gtb_case; [lia|].
  unfold with_list, PushToFront; simpl. now rewrite map_app, rev_app_distr.
Qed.

(** A fresh key on a full cache: the back node, the first pair, is evicted. *)
Lemma add_fresh_evict (C : Z) (cb : bool) (a : K * V) (T : list (K * V)) (k : K) (v : V) :
  Z.of_nat (length (a :: T)) = C -> ~ In k (map fst (a :: T)) ->
  ~ In (fst a) (map fst (T ++ [(k, v)])) ->
  Add k v (mkLRU C (rev (map mk (a :: T))) cb)
  = (mkLRU C (rev (map mk (T ++ [(k, v)]))) cb, true, if cb then [a] else []).
Proof.
  intros Hlen Hn Ha. unfold Add; cbn [evictList size onEvict].
  rewrite (Lookup_rev_mk_None k (a :: T) Hn).
  assert (Hl : PushToFront k v (rev (map mk (a :: T)))
               = (mkEntry k v 0 0 :: rev (map mk T)) ++ [mk a]) by reflexivity.
  rewrite Hl. unfold with_list; cbn [evictList size onEvict].
  assert (Hgt : (Len ((mkEntry k v 0 0 :: rev (map mk T)) ++ [mk a]) >? C) = true).
  { apply Z.gtb_lt. unfold Len. simpl in Hlen.
    rewrite length_app, length_cons, length_rev, length_map. simpl. lia. }
  rewrite Hgt. unfold removeOldest; cbn [evictList].
  rewrite Back_app_last. unfold removeEntry, with_list; cbn [evictList size onEvict].
  rewrite Remove_app_last.
  - destruct a as [ka va]; destruct cb; simpl; now rewrite map_app, rev_app_distr.
  - assert (E : mkEntry k v 0 0 :: rev (map mk T) = rev (map mk (T ++ [(k, v)])))
      by (rewrite map_app, rev_app_distr; reflexivity).
    rewrite E, map_rev, map_Key_mk, <- in_rev; exact Ha.
  - reflexivity.
Qed.

Lemma nth_skipn_cons {A : Type} (n : nat) (l T : list A) (a d : A) :
  skipn n l = a :: T -> nth n l d = a.
Proof.
  revert l; induction n as [|n IH]; intros [|b l]; simpl; try discriminate.
  - now injection 1 as ->.
  - apply IH.
Qed.

Lemma skipn_cons_split {A : Type} (n : nat) (l T : list A) (a : A) :
  skipn n l = a :: T -> l = firstn n l ++ a :: T.
Proof. intros Hs. rewrite <- Hs. symmetry. apply firstn_skipn. Qed.

(** The state after distinct fresh keys: the last [C] of them, newest first. *)
Lemma add_all_fresh (C : Z) (cb : bool) (kvs : list (K * V)) :
  0 < C -> NoDup (map fst kvs) ->
  add_all kvs (mkLRU C [] cb)
  = mkLRU C (rev (map mk (skipn (length kvs - Z.to_nat C) kvs))) cb.
Proof.
  intros HC. induction kvs as [|[k v] kvs IH] using rev_ind; intros Hnd; [reflexivity|].
  rewrite map_app in Hnd. simpl in Hnd.
  assert (Hk : ~ In k (map fst kvs)).
  { intros Hin. apply (NoDup_remove_2 (map fst kvs) [] k Hnd). now rewrite app_nil_r. }
  assert (Hnd' : NoDup (map fst kvs)) by (eapply NoDup_app_remove_r; exact Hnd).
  rewrite add_all_app, IH by exact Hnd'. simpl.
  rewrite length_app; simpl.
  destruct (Nat.lt_ge_cases (length kvs) (Z.to_nat C)) as [Hlt|Hge].
  - replace (length kvs - Z.to_nat C)%nat with O by lia.
    replace (length kvs + 1 - Z.to_nat C)%nat with O by lia. simpl.
    rewrite add_fresh_no_evict; [reflexivity | lia | exact Hk].
  - destruct (skipn (length kvs - Z.to_nat C) kvs) as [|a T] eqn:Es.
    + pose proof (length_skipn (length kvs - Z.to_nat C) kvs) as Hl.
      rewrite Es in Hl; simpl in Hl; lia.
    + pose proof (length_skipn (length kvs - Z.to_nat C) kvs) as Hl.
      rewrite Es in Hl. pose proof (skipn_cons_split _ _ _ _ Es) as Hsplit.
      rewrite add_fresh_evict.
      * f_equal; f_equal. f_equal. f_equal.
        rewrite skipn_app.
        replace (length kvs + 1 - Z.to_nat C - length kvs)%nat with O by lia.
        replace (length kvs + 1 - Z.to_nat C)%nat
          with (1 + (length kvs - Z.to_nat C))%nat by lia.
        now rewrite <- skipn_skipn, Es.
      * simpl in Hl |- *. lia.
      * intros Hin. apply Hk. rewrite Hsplit, map_app. apply in_or_app; now right.
      * intros Hin. rewrite Hsplit, map_app in Hnd. simpl in Hnd.
        rewrite <- app_assoc in Hnd. simpl in Hnd.
        apply (NoDup_remove_2 _ _ _ Hnd). apply in_or_app; right.
        rewrite map_app in Hin. exact Hin.
Qed.

(** C1: adding pairwise distinct keys to a new cache of capacity [C], the cache
    holds the [C] most recently added keys (oldest to newest), and every [Add]
    beyond the [C]-th returns [true] and evicts the oldest resident entry, the
    one [GetOldest] reports, reporting it to the callback. *)
Theorem distinct_adds_keep_most_recent (C : Z) (cb : bool) (s0 : LRU K V)
    (kvs : list (K * V)) :
  NewLRU C cb = inr s0 -> NoDup (map fst kvs) ->
  Keys (add_all kvs s0) = map fst (skipn (length kvs - Z.to_nat C) kvs) /\
  (forall pre k v post, kvs = pre ++ (k, v) :: post ->
     (Z.to_nat C <= length pre)%nat ->
     let s := add_all pre s0 in
     let oldest := nth (length pre - Z.to_nat C) pre (k, v) in
     GetOldest s = Some oldest /\
     snd (fst (Add k v s)) = true /\
     snd (Add k v s) = (if cb then [oldest] else []) /\
     Keys (fst (fst (Add k v s))) = tl (Keys s) ++ [k]).
Proof.
  intros HN Hnd. unfold NewLRU in HN.
  destruct (C <=? 0) eqn:Hc; [discriminate|]. injection HN as <-.
  apply Z.leb_gt in Hc. split.
  - rewrite add_all_fresh by assumption. apply Keys_rev_mk.
  - intros pre k v post -> Hle s oldest.
    assert (Hnd1 : NoDup (map fst (pre ++ [(k, v)]))).
    { rewrite map_app in Hnd |- *. simpl in Hnd |- *.
      replace (map fst pre ++ k :: map fst post)
        with ((map fst pre ++ [k]) ++ map fst post) in Hnd
        by (rewrite <- app_assoc; reflexivity).
      eapply NoDup_app_remove_r; exact Hnd. }
    assert (Hndp : NoDup (map fst pre))
      by (rewrite map_app in Hnd1; eapply NoDup_app_remove_r; exact Hnd1).
    subst s oldest. rewrite add_all_fresh by assumption.
    destruct (skipn (length pre - Z.to_nat C) pre) as [|a T] eqn:Es.
    + pose proof (length_skipn (length pre - Z.to_nat C) pre) as Hl.
      rewrite Es in Hl; simpl in Hl; lia.
    + pose proof (length_skipn (length pre - Z.to_nat C) pre) as Hl.
      rewrite Es in Hl. pose proof (skipn_cons_split _ _ _ _ Es) as Hsplit.
      rewrite (nth_skipn_cons _ _ _ _ _ Es).
      rewrite add_fresh_evict.
      * cbn [fst snd]. rewrite !Keys_rev_mk. unfold GetOldest. cbn [evictList].
        change (rev (map mk (a :: T))) with (rev (map mk T) ++ [mk a]).
        rewrite Back_app_last.
        split; [destruct a; reflexivity|].
        split; [reflexivity|]. split; [reflexivity|].
        now rewrite map_app.
      * simpl in Hl |- *. lia.
      * intros Hin. rewrite map_app in Hnd1. simpl in Hnd1.
        apply (NoDup_remove_2 (map fst pre) [] k); [exact Hnd1|].
        rewrite app_nil_r, Hsplit, map_app. apply in_or_app; now right.
      * intros Hin. rewrite Hsplit in Hnd1. rewrite !map_app in Hnd1. simpl in Hnd1.
        rewrite <- app_assoc in Hnd1. simpl in Hnd1.
        apply (NoDup_remove_2 _ _ _ Hnd1). apply in_or_app; right.
        rewrite map_app in Hin. exact Hin.
Qed.

(** C3: [Add] on a key already present stores the new value in its node, moves
    the node to the front, returns [false] without callbacks and keeps [Len]. *)
Theorem add_existing_key_moves_to_front (s : LRU K V) (k : K) (v : V) (e : Entry K V) :
  Lookup k (evictList s) = Some e ->
  let '(s', evicted, calls) := Add k v s in
  evicted = false /\ calls = [] /\
  evictList s' = set_value v e :: Remove k (evictList s) /\
  Key (set_value v e) = k /\ Peek k s' = Some v /\
  LenL s' = LenL s /\ size s' = size s.
Proof.
  intros Hl. pose proof (Lookup_Some_key _ _ _ Hl) as Hk.
  unfold Add. rewrite Hl, (MoveToFront_Lookup _ _ _ Hl). simpl.
  rewrite (proj2 (same_key_true k e) Hk).
  repeat split; auto.
  - unfold Peek; simpl. now rewrite (proj2 (same_key_true k (set_value v e)) Hk).
  - unfold LenL, Len, with_list; cbn [evictList length].
    rewrite (Remove_length_Lookup _ _ _ Hl). reflexivity.
Qed.


(** C4 (as the code has it): [Peek] and [Contains] return the state unchanged;
    [Get] on a hit puts the hit node first, the others keeping their order, so
    the order changes exactly when the hit node was not already at the front. *)
Theorem peek_contains_frame_get_moves (s : LRU K V) (k : K) :
  fst (exec (OPeek k) s) = s /\ fst (exec (OContains k) s) = s /\
  (forall e, Lookup k (evictList s) = Some e ->
     Get k s = (with_list s (e :: Remove k (evictList s)), Some (Value e)) /\
     Peek k s = Some (Value e) /\ Contains k s = true /\
     (fst (Get k s) = s <-> hd_error (evictList s) = Some e)).
Proof.
  split; [reflexivity|]. split; [reflexivity|].
  intros e Hl. pose proof (Lookup_Some_key _ _ _ Hl) as Hk.
  unfold Get, Peek, Contains. rewrite Hl. rewrite (MoveToFront_Lookup _ _ _ Hl).
  split; [reflexivity|]. split; [reflexivity|]. split; [reflexivity|].
  destruct s as [sz l cb]; unfold with_list; simpl in *.
  destruct l as [|e0 l]; [discriminate|]. simpl in Hl |- *.
  case_eq (same_key k e0); intros Hs; rewrite Hs in Hl.
  - injection Hl as ->. split; reflexivity.
  - apply same_key_false in Hs. split.
    + intros Heq. injection Heq as He _. subst e0. congruence.
    + intros Heq. injection Heq as ->. congruence.
Qed.


End BasicProofs.

Lemma add_existing_key_moves_to_front_witness :
  Lookup 2%nat [Tests.e 1 10; Tests.e 2 20] = Some (Tests.e 2 20) /\
  let '(s', evicted, calls) := Add 2%nat 21%nat (mkLRU 2 [Tests.e 1 10; Tests.e 2 20] true) in
  evicted = false /\ calls = [] /\
  evictList s' = set_value 21%nat (Tests.e 2 20) :: Remove 2%nat [Tests.e 1 10; Tests.e 2 20] /\
  Key (set_value 21%nat (Tests.e 2 20)) = 2%nat /\ Peek 2%nat s' = Some 21%nat /\
  LenL s' = 2 /\ size s' = 2.
Proof.
  split; [reflexivity|].
  exact (add_existing_key_moves_to_front (mkLRU 2 [Tests.e 1 10; Tests.e 2 20] true)
           2%nat 21%nat (Tests.e 2 20) eq_refl).
Defined.

Lemma peek_contains_frame_get_moves_witness :
  Lookup 2%nat [Tests.e 1 10; Tests.e 2 20] = Some (Tests.e 2 20) /\
  Get 2%nat (mkLRU 2 [Tests.e 1 10; Tests.e 2 20] true)
  = (mkLRU 2 [Tests.e 2 20; Tests.e 1 10] true, Some 20%nat).
Proof.
  split; [reflexivity|].
  destruct (peek_contains_frame_get_moves (mkLRU 2 [Tests.e 1 10; Tests.e 2 20] true) 2%nat)
    as [_ [_ W]].
  exact (proj1 (W (Tests.e 2 20) eq_refl)).
Defined.

(** C4 refuted: a [Get] hit on the node already at the front leaves the
    eviction order, and the whole state, unchanged. *)
Lemma get_hit_at_front_keeps_order :
  let s0 := mkLRU 2 [Tests.e 1 10; Tests.e 2 20] true in
  Get 1%nat s0 = (s0, Some 10%nat).
Proof. reflexivity. Qed.
End BasicProofs.

(** * Proofs: [expirable_lru] lookups *)
Module ExpirableProofs.
Import ExpirableLRU.
Section ExpirableProofs.
Context {K V : Type} `{Comparable K}.

Lemma expired_lt (now : Z) (e : Entry K V) : ExpiresAt e < now -> expired now e = true.
Proof. intros; unfold expired; now apply Z.ltb_lt. Qed.

Lemma filter_length_lt {A : Type} (f : A -> bool) (l : list A) (x : A) :
  In x l -> f x = false -> (length (filter f l) < length l)%nat.
Proof.
  induction l as [|y l IH]; simpl; [tauto|]. intros [<-|Hin] Hf.
  - rewrite Hf. pose proof (filter_length_le f l). lia.
  - destruct (f y); simpl; specialize (IH Hin Hf); lia.
Qed.

(** C5: a node whose [ExpiresAt] is strictly before [now] is a miss for [Get]
    and [Peek], and both leave the state (list, index and buckets) as it was. *)
Theorem expired_lookup_is_lazy_miss (s : LRU K V) (now : Z) (k : K) (e : Entry K V) :
  Lookup k (evictList s) = Some e -> ExpiresAt e < now ->
  Get now k s = (s, None) /\ Peek now k s = None /\
  fst (exec (OGet now k) s) = s /\ fst (exec (OPeek now k) s) = s /\
  Lookup k (evictList (fst (Get now k s))) = Some e.
Proof.
  intros Hl Hexp. pose proof (expired_lt now e Hexp) as Hx.
  unfold exec, Get, Peek. rewrite Hl, Hx. simpl. repeat split; exact Hl.
Qed.

(** C10: [Contains], [GetOldest] and [Len] make no expiry check: an expired,
    not yet swept node is contained, counted by [Len] (which then exceeds the
    number of keys [Keys] lists), returned by [GetOldest] when it is the back
    node, while [Get] misses it. *)
Theorem expired_node_seen_by_contains_len_getoldest
    (s : LRU K V) (now : Z) (k : K) (e : Entry K V) :
  Lookup k (evictList s) = Some e -> ExpiresAt e < now ->
  Contains k s = true /\ snd (Get now k s) = None /\
  Z.of_nat (length (Keys now s)) < LenL s /\
  (Back (evictList s) = Some e -> GetOldest s = Some (k, Value e)).
Proof.
  intros Hl Hexp. pose proof (expired_lt now e Hexp) as Hx.
  pose proof (Lookup_Some_key _ _ _ Hl) as Hk.
  split; [unfold Contains; now rewrite Hl|].
  split; [unfold Get; now rewrite Hl, Hx|].
  split.
  - unfold Keys, LenL, Len, oldest_to_newest. rewrite length_map.
    assert (Hlt : (length (filter (fun e0 => negb (expired now e0)) (rev (evictList s)))
                   < length (rev (evictList s)))%nat).
    { apply filter_length_lt with (x := e).
      - apply (in_rev (evictList s)), (Lookup_Some_In _ _ _ Hl).
      - now rewrite Hx. }
    rewrite length_rev in Hlt. lia.
  - intros Hb. unfold GetOldest. rewrite Hb. unfold kv. now rewrite Hk.
Qed.

End ExpirableProofs.

Definition ex_entry (k v : nat) (t : Z) : Entry nat nat := mkEntry k v t 0.
Definition ex_state : LRU nat nat :=
  mkLRU 5 [ex_entry 2 20 100; ex_entry 1 10 5] false 10
        (set_nth 0 (mkBucket [2%nat; 1%nat] 100) (repeat empty_bucket 100)) 0.

Lemma expired_lookup_is_lazy_miss_witness :
  Lookup 1%nat (evictList ex_state) = Some (ex_entry 1 10 5) /\ ExpiresAt (ex_entry 1 10 5) < 50 /\
  Get 50 1%nat ex_state = (ex_state, None) /\ Peek 50 1%nat ex_state = None /\
  fst (exec (OGet 50 1%nat) ex_state) = ex_state /\
  fst (exec (OPeek 50 1%nat) ex_state) = ex_state /\
  Lookup 1%nat (evictList (fst (Get 50 1%nat ex_state))) = Some (ex_entry 1 10 5).
Proof.
  assert (Hl : Lookup 1%nat (evictList ex_state) = Some (ex_entry 1 10 5)) by reflexivity.
  assert (Ht : ExpiresAt (ex_entry 1 10 5) < 50) by (simpl; lia).
  split; [exact Hl|]. split; [exact Ht|].
  exact (expired_lookup_is_lazy_miss ex_state 50 1%nat (ex_entry 1 10 5) Hl Ht).
Defined.

Lemma expired_node_seen_by_contains_len_getoldest_witness :
  Lookup 1%nat (evictList ex_state) = Some (ex_entry 1 10 5) /\ ExpiresAt (ex_entry 1 10 5) < 50 /\
  Contains 1%nat ex_state = true /\ snd (Get 50 1%nat ex_state) = None /\
  Z.of_nat (length (Keys 50 ex_state)) < LenL ex_state /\
  (Back (evictList ex_state) = Some (ex_entry 1 10 5) ->
   GetOldest ex_state = Some (1%nat, 10%nat)).
Proof.
  assert (Hl : Lookup 1%nat (evictList ex_state) = Some (ex_entry 1 10 5)) by reflexivity.
  assert (Ht : ExpiresAt (ex_entry 1 10 5) < 50) by (simpl; lia).
  split; [exact Hl|]. split; [exact Ht|].
  exact (expired_node_seen_by_contains_len_getoldest ex_state 50 1%nat (ex_entry 1 10 5) Hl Ht).
Defined.

End ExpirableProofs.

(** * Proofs: constructors *)
Module ConstructorProofs.
Section ConstructorProofs.
Context {K V : Type} `{Comparable K}.

Lemma expirable_addToBucket_size (e : Entry K V) (s : ExpirableLRU.LRU K V) :
  ExpirableLRU.size (ExpirableLRU.addToBucket e s) = ExpirableLRU.size s.
Proof. reflexivity. Qed.

Lemma expirable_addToBucket_length (e : Entry K V) (s : ExpirableLRU.LRU K V) :
  length (ExpirableLRU.evictList (ExpirableLRU.addToBucket e s))
  = length (ExpirableLRU.evictList s).
Proof. apply Update_length. Qed.

(** C2 (as the code has it): with a capacity [<= 0] the basic constructor and
    the facade constructor, which forwards the basic constructor's error, both
    fail with the invalid-size error; the expirable constructor succeeds with
    capacity 0, under which [Add] never evicts and a fresh key grows [Len]. *)
Theorem nonpositive_capacity_constructors (sz : Z) (cb : bool) (t : Z) :
  sz <= 0 ->
  BasicLRU.NewLRU (K := K) (V := V) sz cb = inl (InvalidSize sz) /\
  Facade.NewWithOnEvict (K := K) (V := V) sz cb = (None, Some (InvalidSize sz)) /\
  ExpirableLRU.size (ExpirableLRU.NewLRU (K := K) (V := V) sz cb t) = 0 /\
  (forall (s : ExpirableLRU.LRU K V) now k v,
     ExpirableLRU.size s = 0 ->
     snd (fst (ExpirableLRU.Add now k v s)) = false /\
     snd (ExpirableLRU.Add now k v s) = [] /\
     (Lookup k (ExpirableLRU.evictList s) = None ->
      ExpirableLRU.LenL (fst (fst (ExpirableLRU.Add now k v s)))
      = ExpirableLRU.LenL s + 1)).
Proof.
  intros Hsz.
  assert (HB : BasicLRU.NewLRU (K := K) (V := V) sz cb = inl (InvalidSize sz)).
  { unfold BasicLRU.NewLRU. now replace (sz <=? 0) with true by (symmetry; apply Z.leb_le; lia). }
  split; [exact HB|]. split; [unfold Facade.NewWithOnEvict; now rewrite HB|].
  split.
  - unfold ExpirableLRU.NewLRU; simpl. destruct (Z.ltb_spec sz 0); simpl; lia.
  - intros s now k v Hs. unfold ExpirableLRU.Add.
    destruct (Lookup k (ExpirableLRU.evictList s)) as [e|] eqn:Hl.
    + simpl. split; [reflexivity|]. split; [reflexivity|]. discriminate.
    + rewrite expirable_addToBucket_size. simpl ExpirableLRU.size. rewrite Hs. simpl.
      split; [reflexivity|]. split; [reflexivity|]. intros _.
      unfold ExpirableLRU.LenL, Len. rewrite expirable_addToBucket_length.
      cbn [ExpirableLRU.evictList ExpirableLRU.with_list PushToFrontExpirable length]. lia.
Qed.

End ConstructorProofs.

Lemma nonpositive_capacity_constructors_witness :
  0 <= 0 /\
  BasicLRU.NewLRU (K := nat) (V := nat) 0 true = inl (InvalidSize 0) /\
  Facade.NewWithOnEvict (K := nat) (V := nat) 0 true = (None, Some (InvalidSize 0)) /\
  ExpirableLRU.size (ExpirableLRU.NewLRU (K := nat) (V := nat) 0 true 10) = 0.
Proof.
  assert (Hz : 0 <= 0) by lia. split; [exact Hz|].
  destruct (nonpositive_capacity_constructors (K := nat) (V := nat) 0 true 10 Hz)
    as [A [B [C _]]].
  split; [exact A|]. split; [exact B|]. exact C.
Defined.

(** C2 refuted: the facade constructor does not accept capacity 0, it returns
    the invalid-size error of the wrapped basic constructor. *)
Lemma facade_rejects_zero_capacity :
  Facade.NewWithOnEvict (K := nat) (V := nat) 0 false = (None, Some (InvalidSize 0)).
Proof. reflexivity. Qed.

End ConstructorProofs.

(** * [basic_lru.Resize] with a negative size *)
Module ResizeProofs.
Import BasicLRU.

(** C6: on a cache holding one entry, [Resize(-1)] evicts that one entry (one
    callback) but returns [diff = Len() - size = 2]. *)
Lemma resize_negative_overcounts :
  Resize (-1) (mkLRU 1 [Tests.e 1 10] true)
  = (mkLRU (-1) [] true, 2, [(1%nat, 10%nat)]).
Proof. reflexivity. Qed.

End ResizeProofs.

(** * Proofs: [Purge] *)
Module PurgeProofs.
Section PurgeProofs.
Context {K V : Type} `{Comparable K}.

Lemma Permutation_nil_r {A : Type} (l : list A) : Permutation l [] -> l = [].
Proof. intros Hp. apply Permutation_nil. now apply Permutation_sym. Qed.

Lemma clear_buckets_idem (bs : list (ExpirableLRU.bucket K)) :
  map (fun b : ExpirableLRU.bucket K => ExpirableLRU.mkBucket (K := K) [] (ExpirableLRU.newestEntry b))
      (map (fun b : ExpirableLRU.bucket K =>
              ExpirableLRU.mkBucket (K := K) [] (ExpirableLRU.newestEntry b)) bs)
  = map (fun b : ExpirableLRU.bucket K =>
           ExpirableLRU.mkBucket (K := K) [] (ExpirableLRU.newestEntry b)) bs.
Proof. induction bs as [|b bs IH]; simpl; congruence. Qed.

(** C7: [Purge], in either variant and whatever order [range] takes, leaves
    no entry ([Len() == 0], [Keys()] empty, and in the expirable variant every
    bucket empty), calls the callback once for each entry present before, and
    a second [Purge] right after changes nothing and calls no callback. *)
Theorem purge_empties_once_per_entry :
  (forall (s : BasicLRU.LRU K V) ord,
     Permutation ord (BasicLRU.evictList s) ->
     let '(s', calls) := BasicLRU.Purge ord s in
     BasicLRU.LenL s' = 0 /\ BasicLRU.Keys s' = [] /\
     Permutation calls
       (if BasicLRU.onEvict s then map kv (BasicLRU.evictList s) else []) /\
     (forall ord', Permutation ord' (BasicLRU.evictList s') ->
        BasicLRU.Purge ord' s' = (s', []))) /\
  (forall (s : ExpirableLRU.LRU K V) ord now,
     Permutation ord (ExpirableLRU.evictList s) ->
     let '(s', calls) := ExpirableLRU.Purge ord s in
     ExpirableLRU.LenL s' = 0 /\ ExpirableLRU.Keys now s' = [] /\
     Forall (fun b => ExpirableLRU.bentries b = []) (ExpirableLRU.buckets s') /\
     Permutation calls
       (if ExpirableLRU.onEvict s then map kv (ExpirableLRU.evictList s) else []) /\
     (forall ord', Permutation ord' (ExpirableLRU.evictList s') ->
        ExpirableLRU.Purge ord' s' = (s', []))).
Proof.
  split.
  - intros s ord Hp. unfold BasicLRU.Purge. repeat split.
    + destruct (BasicLRU.onEvict s); [now apply Permutation_map | constructor].
    + intros ord' Hp'. simpl in Hp'. rewrite (Permutation_nil_r _ Hp').
      unfold BasicLRU.Purge; simpl. now destruct (BasicLRU.onEvict s).
  - intros s ord now Hp. unfold ExpirableLRU.Purge. repeat split.
    + simpl. clear. induction (ExpirableLRU.buckets s) as [|b bs IH]; simpl;
        constructor; auto.
    + destruct (ExpirableLRU.onEvict s); [now apply Permutation_map | constructor].
    + intros ord' Hp'. simpl in Hp'. rewrite (Permutation_nil_r _ Hp').
      unfold ExpirableLRU.Purge, ExpirableLRU.with_list, ExpirableLRU.with_buckets; simpl.
      rewrite clear_buckets_idem. now destruct (ExpirableLRU.onEvict s).
Qed.

End PurgeProofs.

Lemma purge_empties_once_per_entry_witness :
  Permutation [Tests.e 1 10; Tests.e 2 20] [Tests.e 2 20; Tests.e 1 10] /\
  BasicLRU.Purge [Tests.e 1 10; Tests.e 2 20] (BasicLRU.mkLRU 2 [Tests.e 2 20; Tests.e 1 10] true)
  = (BasicLRU.mkLRU 2 [] true, [(1%nat, 10%nat); (2%nat, 20%nat)]) /\
  Permutation [(1%nat, 10%nat); (2%nat, 20%nat)] [(2%nat, 20%nat); (1%nat, 10%nat)].
Proof.
  assert (Hp : Permutation [Tests.e 1 10; Tests.e 2 20] [Tests.e 2 20; Tests.e 1 10])
    by apply perm_swap.
  split; [exact Hp|]. split; [reflexivity|].
  destruct (purge_empties_once_per_entry (K := nat) (V := nat)) as [HB _].
  exact (proj1 (proj2 (proj2 (HB (BasicLRU.mkLRU 2 [Tests.e 2 20; Tests.e 1 10] true) _ Hp)))).
Defined.

End PurgeProofs.

(** * Proofs: the capacity bound *)
Module CapacityProofs.
Section CapacityProofs.
Context {K V : Type} `{Comparable K}.

Lemma MoveToFront_length (k : K) (l : list (Entry K V)) (e : Entry K V) :
  Lookup k l = Some e -> length (MoveToFront e l) = length l.
Proof.
  intros Hl. rewrite (MoveToFront_Lookup _ _ _ Hl). simpl.
  apply (Remove_length_Lookup _ _ _ Hl).
Qed.

Lemma Back_Remove_length (l : list (Entry K V)) (b : Entry K V) :
  Back l = Some b -> S (length (Remove (Key b) l)) = length l.
Proof. intros Hb. apply Remove_length_In, in_map, Back_In, Hb. Qed.

(** ** [basic_lru] *)

Lemma basic_removeOldest (s : BasicLRU.LRU K V) :
  BasicLRU.size (fst (BasicLRU.removeOldest s)) = BasicLRU.size s /\
  BasicLRU.onEvict (fst (BasicLRU.removeOldest s)) = BasicLRU.onEvict s /\
  length (BasicLRU.evictList (fst (BasicLRU.removeOldest s)))
  = pred (length (BasicLRU.evictList s)).
Proof.
  unfold BasicLRU.removeOldest. destruct (Back (BasicLRU.evictList s)) as [b|] eqn:Hb.
  - simpl. split; [reflexivity|]. split; [reflexivity|].
    pose proof (Back_Remove_length _ _ Hb). lia.
  - apply Back_None in Hb. simpl. rewrite Hb. auto.
Qed.

Lemma basic_removeOldest_n (n : nat) (s : BasicLRU.LRU K V) :
  BasicLRU.size (fst (BasicLRU.removeOldest_n n s)) = BasicLRU.size s /\
  BasicLRU.onEvict (fst (BasicLRU.removeOldest_n n s)) = BasicLRU.onEvict s /\
  length (BasicLRU.evictList (fst (BasicLRU.removeOldest_n n s)))
  = (length (BasicLRU.evictList s) - n)%nat.
Proof.
  revert s; induction n as [|n IH]; intros s; simpl; [rewrite Nat.sub_0_r; auto|].
  pose proof (basic_removeOldest s) as [Hs [Ho Hl]].
  destruct (BasicLRU.removeOldest s) as [s1 ev1] eqn:E1.
  destruct (BasicLRU.removeOldest_n n s1) as [s2 ev2] eqn:E2. simpl in *.
  specialize (IH s1). rewrite E2 in IH. simpl in IH. destruct IH as [IHs [IHo IHl]].
  split; [congruence|]. split; [congruence|]. rewrite IHl, Hl. lia.
Qed.

Lemma is_int_spec (z : Z) : BasicLRU.is_int z = true <-> - 2 ^ 63 <= z < 2 ^ 63.
Proof. unfold BasicLRU.is_int. rewrite andb_true_iff, Z.leb_le, Z.ltb_lt. lia. Qed.

Lemma int_wrap_id (z : Z) : - 2 ^ 63 <= z < 2 ^ 63 -> BasicLRU.int_wrap z = z.
Proof. intros Hz. unfold BasicLRU.int_wrap. rewrite Z.mod_small by lia. lia. Qed.

(** The capacity is an [int], the list holds fewer than [2^63] nodes, and a
    capacity [> 0] bounds it. *)
Definition basic_bounded (s : BasicLRU.LRU K V) : Prop :=
  BasicLRU.is_int (BasicLRU.size s) = true /\ BasicLRU.LenL s < 2 ^ 63 /\
  (0 < BasicLRU.size s -> BasicLRU.LenL s <= BasicLRU.size s).

Lemma basic_Add_bounded (k : K) (v : V) (s : BasicLRU.LRU K V) :
  basic_bounded s -> basic_bounded (fst (fst (BasicLRU.Add k v s))).
Proof.
  unfold basic_bounded, BasicLRU.LenL, Len, BasicLRU.Add. intros (Hi & Hl & Hb).
  pose proof (proj1 (is_int_spec _) Hi) as Hr.
  destruct (Lookup k (BasicLRU.evictList s)) as [e|] eqn:Hk.
  - simpl. rewrite Update_length, (MoveToFront_length _ _ _ Hk). auto.
  - set (s1 := BasicLRU.with_list s (PushToFront k v (BasicLRU.evictList s))).
    assert (Hs1 : length (BasicLRU.evictList s1) = S (length (BasicLRU.evictList s)))
      by reflexivity.
    destruct (Z.gtb_spec (Len (BasicLRU.evictList s1)) (BasicLRU.size s)) as [Hgt|Hle].
    + pose proof (basic_removeOldest s1) as [Hs [_ Hlen]].
      destruct (BasicLRU.removeOldest s1) as [s2 ev] eqn:E. simpl in *.
      rewrite Hs, Hlen. subst s1. simpl. auto.
    + subst s1. unfold Len in Hle.
      cbn [fst length PushToFront BasicLRU.evictList BasicLRU.with_list BasicLRU.size] in *.
      split; [exact Hi|]. lia.
Qed.

Lemma basic_exec_bounded (op : BasicLRU.Op (K := K) (V := V)) (s : BasicLRU.LRU K V) :
  BasicLRU.op_args_int op = true -> basic_bounded s -> basic_bounded (fst (BasicLRU.exec op s)).
Proof.
  intros Hop Hb. destruct op; simpl; try exact Hb.
  - (* Add *)
    pose proof (basic_Add_bounded k v s Hb) as Ha.
    destruct (BasicLRU.Add k v s) as [[s' e] ev]. exact Ha.
  - (* Get *)
    unfold BasicLRU.Get. destruct (Lookup k (BasicLRU.evictList s)) as [e|] eqn:Hl;
      [|exact Hb].
    unfold basic_bounded, BasicLRU.LenL, Len in *; simpl.
    rewrite (MoveToFront_length _ _ _ Hl). exact Hb.
  - (* Remove *)
    unfold BasicLRU.RemoveKey. destruct (Lookup k (BasicLRU.evictList s)) as [e|];
      [|exact Hb].
    unfold basic_bounded, BasicLRU.LenL, Len in *; simpl.
    destruct Hb as (Hi & Hb). split; [exact Hi|].
    pose proof (Remove_length_le (Key e) (BasicLRU.evictList s)). lia.
  - (* RemoveOldest *)
    unfold BasicLRU.RemoveOldest. destruct (Back (BasicLRU.evictList s)) as [e|];
      [|exact Hb].
    unfold basic_bounded, BasicLRU.LenL, Len in *; simpl.
    destruct Hb as (Hi & Hb). split; [exact Hi|].
    pose proof (Remove_length_le (Key e) (BasicLRU.evictList s)). lia.
  - (* Purge *)
    unfold basic_bounded, BasicLRU.LenL, Len in *; simpl.
    destruct Hb as (Hi & Hb). split; [exact Hi|]. lia.
  - (* Resize *)
    simpl in Hop. pose proof (proj1 (is_int_spec _) Hop) as Hn.
    unfold BasicLRU.Resize.
    set (w := BasicLRU.int_wrap (BasicLRU.LenL s - n)).
    set (d := if w <? 0 then 0 else w).
    pose proof (basic_removeOldest_n (Z.to_nat d) s) as [_ [_ Hlen]].
    destruct (BasicLRU.removeOldest_n (Z.to_nat d) s) as [s1 ev] eqn:E. simpl in *.
    unfold basic_bounded, BasicLRU.LenL, Len in *; simpl. rewrite Hlen.
    destruct Hb as (_ & Hl & _). split; [exact Hop|]. split; [lia|].
    intros Hpos. assert (Hw : w = Z.of_nat (length (BasicLRU.evictList s)) - n)
      by (apply int_wrap_id; lia).
    subst d. rewrite Hw.
    destruct (Z.ltb_spec (Z.of_nat (length (BasicLRU.evictList s)) - n) 0); lia.
Qed.

Lemma basic_reachable_bounded (s : BasicLRU.LRU K V) :
  BasicLRU.reachable s -> basic_bounded s.
Proof.
  induction 1 as [sz cb s Hi Hn | op s Hop _ IH].
  - unfold BasicLRU.NewLRU in Hn. destruct (sz <=? 0); [discriminate|].
    injection Hn as <-. unfold basic_bounded, BasicLRU.LenL, Len; simpl. auto with zarith.
  - now apply basic_exec_bounded.
Qed.

(** ** [expirable_lru] *)

Lemma exp_removeEntry (e : Entry K V) (s : ExpirableLRU.LRU K V) :
  ExpirableLRU.size (fst (ExpirableLRU.removeEntry e s)) = ExpirableLRU.size s /\
  ExpirableLRU.evictList (fst (ExpirableLRU.removeEntry e s))
  = Remove (Key e) (ExpirableLRU.evictList s).
Proof. split; reflexivity. Qed.

Lemma exp_removeOldest (s : ExpirableLRU.LRU K V) :
  ExpirableLRU.size (fst (ExpirableLRU.removeOldest s)) = ExpirableLRU.size s /\
  length (ExpirableLRU.evictList (fst (ExpirableLRU.removeOldest s)))
  = pred (length (ExpirableLRU.evictList s)).
Proof.
  unfold ExpirableLRU.removeOldest.
  destruct (Back (ExpirableLRU.evictList s)) as [b|] eqn:Hb.
  - rewrite !(proj1 (exp_removeEntry b s)), (proj2 (exp_removeEntry b s)).
    split; [reflexivity|]. pose proof (Back_Remove_length _ _ Hb). lia.
  - apply Back_None in Hb. simpl. rewrite Hb. auto.
Qed.

Lemma exp_removeOldest_n (n : nat) (s : ExpirableLRU.LRU K V) :
  ExpirableLRU.size (fst (ExpirableLRU.removeOldest_n n s)) = ExpirableLRU.size s /\
  length (ExpirableLRU.evictList (fst (ExpirableLRU.removeOldest_n n s)))
  = (length (ExpirableLRU.evictList s) - n)%nat.
Proof.
  revert s; induction n as [|n IH]; intros s; simpl; [rewrite Nat.sub_0_r; auto|].
  pose proof (exp_removeOldest s) as [Hs Hl].
  destruct (ExpirableLRU.removeOldest s) as [s1 ev1] eqn:E1.
  destruct (ExpirableLRU.removeOldest_n n s1) as [s2 ev2] eqn:E2. simpl in *.
  specialize (IH s1). rewrite E2 in IH. simpl in IH. destruct IH as [IHs IHl].
  split; [congruence|]. rewrite IHl, Hl. lia.
Qed.

Lemma exp_remove_keys (ord : list K) (s : ExpirableLRU.LRU K V) :
  ExpirableLRU.size (fst (ExpirableLRU.remove_keys ord s)) = ExpirableLRU.size s /\
  (length (ExpirableLRU.evictList (fst (ExpirableLRU.remove_keys ord s)))
   <= length (ExpirableLRU.evictList s))%nat.
Proof.
  revert s; induction ord as [|k ord IH]; intros s; simpl; [auto|].
  destruct (match Lookup k (ExpirableLRU.evictList s) with
            | Some e => ExpirableLRU.removeEntry e s
            | None => (s, [])
            end) as [s1 ev1] eqn:E1.
  assert (Hs1 : ExpirableLRU.size s1 = ExpirableLRU.size s /\
    (length (ExpirableLRU.evictList s1) <= length (ExpirableLRU.evictList s))%nat).
  { destruct (Lookup k (ExpirableLRU.evictList s)) as [e|].
    - assert (Es : s1 = fst (ExpirableLRU.removeEntry e s)) by (rewrite E1; reflexivity).
      subst s1. rewrite (proj1 (exp_removeEntry e s)), (proj2 (exp_removeEntry e s)).
      split; [reflexivity|]. apply Remove_length_le.
    - injection E1 as <- _. auto. }
  destruct Hs1 as [Hs Hl].
  specialize (IH s1).
  destruct (ExpirableLRU.remove_keys ord s1) as [s2 ev2] eqn:E2. simpl in *.
  destruct IH as [IHs IHl]. split; [congruence | lia].
Qed.

Lemma exp_with_list_evictList (s : ExpirableLRU.LRU K V) l :
  ExpirableLRU.evictList (ExpirableLRU.with_list s l) = l.
Proof. reflexivity. Qed.

Lemma exp_with_list_size (s : ExpirableLRU.LRU K V) l :
  ExpirableLRU.size (ExpirableLRU.with_list s l) = ExpirableLRU.size s.
Proof. reflexivity. Qed.

Lemma exp_removeFromBucket_evictList (e : Entry K V) (s : ExpirableLRU.LRU K V) :
  ExpirableLRU.evictList (ExpirableLRU.removeFromBucket e s) = ExpirableLRU.evictList s.
Proof. reflexivity. Qed.

Lemma exp_removeFromBucket_size (e : Entry K V) (s : ExpirableLRU.LRU K V) :
  ExpirableLRU.size (ExpirableLRU.removeFromBucket e s) = ExpirableLRU.size s.
Proof. reflexivity. Qed.

(** A non-zero capacity bounds the number of nodes; the capacity is never
    negative. *)
Definition exp_bounded (s : ExpirableLRU.LRU K V) : Prop :=
  0 <= ExpirableLRU.size s /\
  (0 < ExpirableLRU.size s -> ExpirableLRU.LenL s <= ExpirableLRU.size s).

Lemma exp_Add_bounded (now : Z) (k : K) (v : V) (s : ExpirableLRU.LRU K V) :
  exp_bounded s -> exp_bounded (fst (fst (ExpirableLRU.Add now k v s))).
Proof.
  unfold exp_bounded, ExpirableLRU.LenL, Len, ExpirableLRU.Add. intros Hb.
  destruct (Lookup k (ExpirableLRU.evictList s)) as [e|] eqn:Hl.
  - cbn [fst].
    rewrite ConstructorProofs.expirable_addToBucket_length,
      ConstructorProofs.expirable_addToBucket_size.
    repeat rewrite ?exp_with_list_evictList, ?exp_with_list_size,
      ?exp_removeFromBucket_evictList, ?exp_removeFromBucket_size.
    rewrite Update_length, (MoveToFront_length _ _ _ Hl). exact Hb.
  - set (s2 := ExpirableLRU.addToBucket (mkEntry k v (now + ExpirableLRU.ttl s) 0)
                 (ExpirableLRU.with_list s
                    (PushToFrontExpirable k v (now + ExpirableLRU.ttl s)
                       (ExpirableLRU.evictList s)))).
    assert (Hs2 : ExpirableLRU.size s2 = ExpirableLRU.size s) by reflexivity.
    assert (Hl2 : length (ExpirableLRU.evictList s2) = S (length (ExpirableLRU.evictList s)))
      by (subst s2; rewrite ConstructorProofs.expirable_addToBucket_length; reflexivity).
    destruct ((ExpirableLRU.size s2 >? 0) && (Len (ExpirableLRU.evictList s2) >? ExpirableLRU.size s2))
      eqn:Hev.
    + pose proof (exp_removeOldest s2) as [Hs Hlen].
      destruct (ExpirableLRU.removeOldest s2) as [s3 ev] eqn:E.
      cbn [fst] in Hs, Hlen |- *. rewrite Hs, Hlen, Hl2, Hs2. exact Hb.
    + cbn [fst]. rewrite Hs2, Hl2. rewrite Hs2 in Hev.
      unfold Len in Hev. rewrite Hl2 in Hev.
      apply andb_false_iff in Hev.
      destruct Hev as [Hev|Hev]; rewrite Z.gtb_ltb in Hev; apply Z.ltb_ge in Hev; lia.
Qed.

Lemma exp_exec_bounded (op : ExpirableLRU.Op (K := K) (V := V)) (s : ExpirableLRU.LRU K V) :
  exp_bounded s -> exp_bounded (fst (ExpirableLRU.exec op s)).
Proof.
  intros Hb. destruct op; simpl; try exact Hb.
  - (* Add *)
    pose proof (exp_Add_bounded now k v s Hb) as Ha.
    destruct (ExpirableLRU.Add now k v s) as [[s' e] ev]. exact Ha.
  - (* Get *)
    unfold ExpirableLRU.Get. destruct (Lookup k (ExpirableLRU.evictList s)) as [e|] eqn:Hl;
      [|exact Hb].
    destruct (ExpirableLRU.expired now e); [exact Hb|].
    unfold exp_bounded, ExpirableLRU.LenL, Len in *; simpl.
    rewrite (MoveToFront_length _ _ _ Hl). exact Hb.
  - (* Remove *)
    unfold ExpirableLRU.RemoveKey. destruct (Lookup k (ExpirableLRU.evictList s)) as [e|];
      [|exact Hb].
    unfold exp_bounded, ExpirableLRU.LenL, Len in *; simpl.
    pose proof (Remove_length_le (Key e) (ExpirableLRU.evictList s)). lia.
  - (* RemoveOldest *)
    unfold ExpirableLRU.RemoveOldest. destruct (Back (ExpirableLRU.evictList s)) as [e|];
      [|exact Hb].
    unfold exp_bounded, ExpirableLRU.LenL, Len in *; simpl.
    pose proof (Remove_length_le (Key e) (ExpirableLRU.evictList s)). lia.
  - (* Purge *)
    unfold exp_bounded, ExpirableLRU.LenL, Len in *; simpl. lia.
  - (* Resize *)
    unfold ExpirableLRU.Resize. destruct (Z.leb_spec n 0).
    + unfold exp_bounded; simpl. lia.
    + set (d := if ExpirableLRU.LenL s - n <? 0 then 0 else ExpirableLRU.LenL s - n).
      pose proof (exp_removeOldest_n (Z.to_nat d) s) as [_ Hlen].
      destruct (ExpirableLRU.removeOldest_n (Z.to_nat d) s) as [s1 ev] eqn:E.
      cbn [fst] in Hlen |- *.
      unfold exp_bounded, ExpirableLRU.LenL, Len in *; simpl. rewrite Hlen.
      subst d. unfold ExpirableLRU.LenL, Len.
      destruct (Z.ltb_spec (Z.of_nat (length (ExpirableLRU.evictList s)) - n) 0); lia.
Qed.

Lemma exp_deleteExpired_bounded (ord : list K) (s : ExpirableLRU.LRU K V) :
  exp_bounded s -> exp_bounded (fst (ExpirableLRU.deleteExpired ord s)).
Proof.
  intros Hb. unfold ExpirableLRU.deleteExpired.
  pose proof (exp_remove_keys ord s) as [Hs Hl].
  destruct (ExpirableLRU.remove_keys ord s) as [s1 ev] eqn:E.
  cbn [fst] in Hs, Hl |- *.
  unfold exp_bounded, ExpirableLRU.LenL, Len in *; simpl. rewrite Hs. lia.
Qed.

Lemma exp_reachable_bounded (s : ExpirableLRU.LRU K V) :
  ExpirableLRU.reachable s -> exp_bounded s.
Proof.
  induction 1 as [sz cb t | op s _ IH | ord s _ IH _].
  - unfold exp_bounded, ExpirableLRU.NewLRU, ExpirableLRU.LenL, Len; simpl.
    destruct (Z.ltb_spec sz 0); simpl; lia.
  - now apply exp_exec_bounded.
  - now apply exp_deleteExpired_bounded.
Qed.

(** C8: in every state reachable through the constructors and the public
    methods (and, for the expirable variant, the background sweep), a
    capacity [> 0] bounds the number of entries; in particular after every
    [Add]. *)
Theorem capacity_bound_after_every_call :
  (forall s : BasicLRU.LRU K V,
     BasicLRU.reachable s -> 0 < BasicLRU.size s ->
     BasicLRU.LenL s <= BasicLRU.size s) /\
  (forall s : ExpirableLRU.LRU K V,
     ExpirableLRU.reachable s -> 0 < ExpirableLRU.size s ->
     ExpirableLRU.LenL s <= ExpirableLRU.size s).
Proof.
  split.
  - intros s Hr Hpos. pose proof (basic_reachable_bounded s Hr) as Hb.
    unfold basic_bounded in Hb. lia.
  - intros s Hr Hpos. apply (exp_reachable_bounded s Hr), Hpos.
Qed.

End CapacityProofs.

Definition cap_basic : BasicLRU.LRU nat nat :=
  fst (BasicLRU.exec (BasicLRU.OAdd 2%nat 20%nat)
         (fst (BasicLRU.exec (BasicLRU.OAdd 1%nat 10%nat) (BasicLRU.mkLRU 1 [] true)))).
Definition cap_exp : ExpirableLRU.LRU nat nat :=
  fst (ExpirableLRU.exec (ExpirableLRU.OAdd 7 2%nat 20%nat)
         (fst (ExpirableLRU.exec (ExpirableLRU.OAdd 5 1%nat 10%nat)
                 (ExpirableLRU.NewLRU 1 true 100)))).

Lemma capacity_bound_after_every_call_witness :
  BasicLRU.reachable cap_basic /\ 0 < BasicLRU.size cap_basic /\
  BasicLRU.LenL cap_basic <= BasicLRU.size cap_basic /\
  ExpirableLRU.reachable cap_exp /\ 0 < ExpirableLRU.size cap_exp /\
  ExpirableLRU.LenL cap_exp <= ExpirableLRU.size cap_exp.
Proof.
  assert (R1 : BasicLRU.reachable cap_basic).
  { apply BasicLRU.reachable_step; [reflexivity|].
    apply BasicLRU.reachable_step; [reflexivity|].
    apply (BasicLRU.reachable_new 1 true); reflexivity. }
  assert (R2 : ExpirableLRU.reachable cap_exp).
  { apply ExpirableLRU.reachable_step, ExpirableLRU.reachable_step.
    apply ExpirableLRU.reachable_new. }
  assert (P1 : 0 < BasicLRU.size cap_basic) by (vm_compute; reflexivity).
  assert (P2 : 0 < ExpirableLRU.size cap_exp) by (vm_compute; reflexivity).
  destruct (capacity_bound_after_every_call (K := nat) (V := nat)) as [B E].
  split; [exact R1|]. split; [exact P1|]. split; [exact (B _ R1 P1)|].
  split; [exact R2|]. split; [exact P2|]. exact (E _ R2 P2).
Defined.

End CapacityProofs.

(** * Proofs: the facade's eviction buffer *)
Module FacadeProofs.
Import Facade.
Section FacadeProofs.
Context {K V : Type} `{Comparable K}.

(** A present callback is called once, a nil one never. *)
Definition one_call (cb : bool) (calls : list (K * V)) : Prop :=
  if cb then exists x, calls = [x] else calls = [].

Lemma Back_cons_Some (x : Entry K V) (l : list (Entry K V)) : exists b, Back (x :: l) = Some b.
Proof.
  revert x; induction l as [|y l IH]; intros x; [now exists x|].
  destruct (IH y) as [b Hb]. exists b. exact Hb.
Qed.

Lemma basic_removeEntry_calls (e : Entry K V) (s : BasicLRU.LRU K V) :
  BasicLRU.onEvict (fst (BasicLRU.removeEntry e s)) = BasicLRU.onEvict s /\
  one_call (BasicLRU.onEvict s) (snd (BasicLRU.removeEntry e s)).
Proof.
  split; [reflexivity|]. unfold one_call; simpl.
  destruct (BasicLRU.onEvict s); [now exists (kv e) | reflexivity].
Qed.

Lemma basic_Add_calls (k : K) (v : V) (s : BasicLRU.LRU K V) :
  BasicLRU.onEvict (fst (fst (BasicLRU.Add k v s))) = BasicLRU.onEvict s /\
  (if snd (fst (BasicLRU.Add k v s))
   then one_call (BasicLRU.onEvict s) (snd (BasicLRU.Add k v s))
   else snd (BasicLRU.Add k v s) = []).
Proof.
  unfold BasicLRU.Add. destruct (Lookup k (BasicLRU.evictList s)) as [e|].
  - split; reflexivity.
  - destruct (Len (BasicLRU.evictList
                 (BasicLRU.with_list s (PushToFront k v (BasicLRU.evictList s))))
              >? BasicLRU.size s).
    + destruct (Back_cons_Some (mkEntry k v 0 0) (BasicLRU.evictList s)) as [b Hb].
      pose proof (basic_removeEntry_calls b
                    (BasicLRU.with_list s (PushToFront k v (BasicLRU.evictList s)))) as Hr.
      assert (E : BasicLRU.removeOldest
                    (BasicLRU.with_list s (PushToFront k v (BasicLRU.evictList s)))
                  = BasicLRU.removeEntry b
                    (BasicLRU.with_list s (PushToFront k v (BasicLRU.evictList s)))).
      { unfold BasicLRU.removeOldest. cbn [BasicLRU.evictList BasicLRU.with_list].
        unfold PushToFront. rewrite Hb. reflexivity. }
      rewrite E. destruct (BasicLRU.removeEntry b _) as [s2 ev]. exact Hr.
    + split; reflexivity.
Qed.

Lemma basic_RemoveKey_calls (k : K) (s : BasicLRU.LRU K V) :
  BasicLRU.onEvict (fst (fst (BasicLRU.RemoveKey k s))) = BasicLRU.onEvict s /\
  (if snd (fst (BasicLRU.RemoveKey k s))
   then one_call (BasicLRU.onEvict s) (snd (BasicLRU.RemoveKey k s))
   else snd (BasicLRU.RemoveKey k s) = []).
Proof.
  unfold BasicLRU.RemoveKey. destruct (Lookup k (BasicLRU.evictList s)) as [e|].
  - exact (basic_removeEntry_calls e s).
  - split; reflexivity.
Qed.

Lemma basic_RemoveOldest_calls (s : BasicLRU.LRU K V) :
  BasicLRU.onEvict (fst (fst (BasicLRU.RemoveOldest s))) = BasicLRU.onEvict s /\
  (match snd (fst (BasicLRU.RemoveOldest s)) with
   | Some _ => one_call (BasicLRU.onEvict s) (snd (BasicLRU.RemoveOldest s))
   | None => snd (BasicLRU.RemoveOldest s) = []
   end).
Proof.
  unfold BasicLRU.RemoveOldest. destruct (Back (BasicLRU.evictList s)) as [e|].
  - exact (basic_removeEntry_calls e s).
  - split; reflexivity.
Qed.

Lemma basic_removeOldest_n_calls (n : nat) (s : BasicLRU.LRU K V) :
  BasicLRU.onEvict s = false -> snd (BasicLRU.removeOldest_n n s) = [].
Proof.
  revert s; induction n as [|n IH]; intros s Ho; [reflexivity|]. simpl.
  assert (Hr : BasicLRU.onEvict (fst (BasicLRU.removeOldest s)) = false /\
               snd (BasicLRU.removeOldest s) = []).
  { unfold BasicLRU.removeOldest. destruct (Back (BasicLRU.evictList s)); simpl;
      rewrite ?Ho; auto. }
  destruct (BasicLRU.removeOldest s) as [s1 ev1]. cbn [fst snd] in Hr.
  destruct Hr as [Ho1 ->]. specialize (IH s1 Ho1).
  destruct (BasicLRU.removeOldest_n n s1) as [s2 ev2]. simpl in *. now subst.
Qed.

Lemma basic_Resize_calls (sz : Z) (s : BasicLRU.LRU K V) :
  BasicLRU.onEvict (fst (fst (BasicLRU.Resize sz s))) = BasicLRU.onEvict s /\
  (snd (fst (BasicLRU.Resize sz s)) <= 0 -> snd (BasicLRU.Resize sz s) = []) /\
  (BasicLRU.onEvict s = false -> snd (BasicLRU.Resize sz s) = []).
Proof.
  unfold BasicLRU.Resize.
  set (w := BasicLRU.int_wrap (BasicLRU.LenL s - sz)).
  set (d := if w <? 0 then 0 else w).
  pose proof (CapacityProofs.basic_removeOldest_n (Z.to_nat d) s) as [_ [Ho _]].
  pose proof (basic_removeOldest_n_calls (Z.to_nat d) s) as Hc.
  assert (Hd : d <= 0 -> Z.to_nat d = O) by lia.
  destruct (BasicLRU.removeOldest_n (Z.to_nat d) s) as [s1 ev] eqn:E.
  cbn [fst snd] in Ho, Hc |- *. split; [exact Ho|]. split; [|exact Hc].
  intros Hle. rewrite (Hd Hle) in E. simpl in E. congruence.
Qed.

Lemma callbacks_split (ev : list (K * V)) :
  callbacks (map fst ev) (map snd ev) = Some ev.
Proof. induction ev as [|[k v] ev IH]; simpl; [reflexivity|]. now rewrite IH. Qed.

(** The buffer is empty and the wrapped cache calls [c.onEvictCB] exactly
    when the facade has a user callback. *)
Definition inv (c : Cache K V) : Prop :=
  evictedKeys c = [] /\ evictedValues c = [] /\ BasicLRU.onEvict (lru c) = onEvict c.

Lemma drain_one_empty (c : Cache K V) (l : BasicLRU.LRU K V) (ev : list (K * V)) (cond : bool) :
  evictedKeys c = [] -> evictedValues c = [] ->
  (if cond then one_call (onEvict c) ev else ev = []) ->
  exists c' calls, drain_one cond (buffer c l ev) = Some (c', calls) /\
    evictedKeys c' = [] /\ evictedValues c' = [] /\ lru c' = l /\ onEvict c' = onEvict c.
Proof.
  intros Hk Hv Hev. unfold drain_one, buffer. cbn [onEvict evictedKeys evictedValues lru].
  rewrite Hk, Hv. destruct cond.
  - unfold one_call in Hev. destruct (onEvict c) eqn:Ho.
    + destruct Hev as [[x y] ->]. simpl. eexists _, _. repeat split.
    + subst ev. simpl. eexists _, _. repeat split.
  - subst ev. simpl. eexists _, _. repeat split.
Qed.

Lemma drain_all_empty (c : Cache K V) (l : BasicLRU.LRU K V) (ev : list (K * V)) (cond : bool) :
  evictedKeys c = [] -> evictedValues c = [] ->
  (cond = false -> ev = []) -> (onEvict c = false -> ev = []) ->
  exists c' calls, drain_all cond (buffer c l ev) = Some (c', calls) /\
    evictedKeys c' = [] /\ evictedValues c' = [] /\ lru c' = l /\ onEvict c' = onEvict c.
Proof.
  intros Hk Hv Hc Ho. unfold drain_all, buffer. cbn [onEvict evictedKeys evictedValues lru].
  rewrite Hk, Hv. simpl.
  destruct cond; [|rewrite (Hc eq_refl); simpl; eexists _, _; repeat split].
  destruct (onEvict c); [|rewrite (Ho eq_refl); simpl; eexists _, _; repeat split].
  simpl. rewrite callbacks_split. eexists _, _. repeat split.
Qed.

Lemma drain_one_inv (c : Cache K V) (l : BasicLRU.LRU K V) (ev : list (K * V)) (cond : bool) :
  inv c -> BasicLRU.onEvict l = BasicLRU.onEvict (lru c) ->
  (if cond then one_call (BasicLRU.onEvict (lru c)) ev else ev = []) ->
  exists c' calls, drain_one cond (buffer c l ev) = Some (c', calls) /\ inv c'.
Proof.
  intros [Hk [Hv Ho]] Hl Hev. rewrite Ho in Hev.
  destruct (drain_one_empty c l ev cond Hk Hv Hev)
    as (c' & calls & E & Hk' & Hv' & Hlru & Ho').
  exists c', calls. split; [exact E|]. unfold inv. rewrite Hlru, Ho', Hl. auto.
Qed.

Lemma drain_all_inv (c : Cache K V) (l : BasicLRU.LRU K V) (ev : list (K * V)) (cond : bool) :
  inv c -> BasicLRU.onEvict l = BasicLRU.onEvict (lru c) ->
  (cond = false -> ev = []) -> (BasicLRU.onEvict (lru c) = false -> ev = []) ->
  exists c' calls, drain_all cond (buffer c l ev) = Some (c', calls) /\ inv c'.
Proof.
  intros [Hk [Hv Ho]] Hl Hc Hev. rewrite Ho in Hev.
  destruct (drain_all_empty c l ev cond Hk Hv Hc Hev)
    as (c' & calls & E & Hk' & Hv' & Hlru & Ho').
  exists c', calls. split; [exact E|]. unfold inv. rewrite Hlru, Ho', Hl. auto.
Qed.

Lemma add_path_inv (c : Cache K V) (k : K) (v : V) :
  inv c ->
  let '(l, evicted, ev) := BasicLRU.Add k v (lru c) in
  exists c' calls, drain_one evicted (buffer c l ev) = Some (c', calls) /\ inv c'.
Proof.
  intros Hi. pose proof (basic_Add_calls k v (lru c)) as [Ho Hc].
  destruct (BasicLRU.Add k v (lru c)) as [[l evd] ev]. cbn [fst snd] in Ho, Hc.
  exact (drain_one_inv c l ev evd Hi Ho Hc).
Qed.

Lemma exec_inv (op : Op (K:=K) (V:=V)) (c : Cache K V) :
  inv c -> exists c' calls, exec op c = Some (c', calls) /\ inv c'.
Proof.
  intros Hi. destruct op; unfold exec; cbv beta iota zeta;
    try (exists c, []; split; [reflexivity | exact Hi]).
  - (* Add *)
    unfold Facade.Add. pose proof (add_path_inv c k v Hi) as Hp.
    destruct (BasicLRU.Add k v (lru c)) as [[l evd] ev].
    destruct Hp as (c' & calls & E & Hi'). rewrite E. eauto.
  - (* Get *)
    unfold Facade.Get. destruct Hi as [Hk [Hv Ho]].
    assert (Hg : BasicLRU.onEvict (fst (BasicLRU.Get k (lru c))) = BasicLRU.onEvict (lru c)).
    { unfold BasicLRU.Get. destruct (Lookup k (BasicLRU.evictList (lru c))); reflexivity. }
    destruct (BasicLRU.Get k (lru c)) as [l r]. cbn [fst] in Hg |- *.
    eexists _, _. split; [reflexivity|]. unfold inv; cbn [evictedKeys evictedValues lru onEvict].
    rewrite Hg; auto.
  - (* ContainsOrAdd *)
    unfold ContainsOrAdd. destruct (BasicLRU.Contains k (lru c)).
    + exists c, []. split; [reflexivity | exact Hi].
    + pose proof (add_path_inv c k v Hi) as Hp.
      destruct (BasicLRU.Add k v (lru c)) as [[l evd] ev].
      destruct Hp as (c' & calls & E & Hi'). rewrite E. eauto.
  - (* PeekOrAdd *)
    unfold PeekOrAdd. destruct (BasicLRU.Peek k (lru c)).
    + exists c, []. split; [reflexivity | exact Hi].
    + pose proof (add_path_inv c k v Hi) as Hp.
      destruct (BasicLRU.Add k v (lru c)) as [[l evd] ev].
      destruct Hp as (c' & calls & E & Hi'). rewrite E. eauto.
  - (* Remove *)
    unfold Facade.RemoveKey. pose proof (basic_RemoveKey_calls k (lru c)) as [Ho Hc].
    destruct (BasicLRU.RemoveKey k (lru c)) as [[l ok] ev]. cbn [fst snd] in Ho, Hc.
    destruct (drain_one_inv c l ev ok Hi Ho Hc) as (c' & calls & E & Hi').
    rewrite E. eauto.
  - (* RemoveOldest *)
    unfold Facade.RemoveOldest. pose proof (basic_RemoveOldest_calls (lru c)) as [Ho Hc].
    destruct (BasicLRU.RemoveOldest (lru c)) as [[l r] ev]. cbn [fst snd] in Ho, Hc.
    assert (Hc' : if (match r with Some _ => true | None => false end)
                  then one_call (BasicLRU.onEvict (lru c)) ev else ev = [])
      by (destruct r; exact Hc).
    destruct (drain_one_inv c l ev _ Hi Ho Hc') as (c' & calls & E & Hi').
    rewrite E. eauto.
  - (* Purge *)
    unfold Facade.Purge. destruct Hi as [Hk [Hv Ho]].
    assert (Hp : BasicLRU.onEvict (fst (BasicLRU.Purge ord (lru c))) = BasicLRU.onEvict (lru c) /\
                 (BasicLRU.onEvict (lru c) = false -> snd (BasicLRU.Purge ord (lru c)) = []))
      by (unfold BasicLRU.Purge; simpl; split; [reflexivity | intros ->; reflexivity]).
    destruct (BasicLRU.Purge ord (lru c)) as [l ev]. cbn [fst snd] in Hp. destruct Hp as [Hl He].
    apply (drain_all_inv c l ev); [split; auto | exact Hl | | exact He].
    intros Hc. apply Z.ltb_ge in Hc. unfold buffer in Hc. cbn [evictedKeys] in Hc.
    rewrite Hk, length_app, length_map in Hc. cbn [length Nat.add] in Hc.
    destruct ev; [reflexivity | cbn [length] in Hc; lia].
  - (* Resize *)
    unfold Facade.Resize. pose proof (basic_Resize_calls n (lru c)) as [Ho [Hz Hc]].
    destruct (BasicLRU.Resize n (lru c)) as [[l d] ev]. cbn [fst snd] in Ho, Hz, Hc.
    destruct (drain_all_inv c l ev (0 <? d) Hi Ho) as (c' & calls & E & Hi').
    + intros Hd. apply Z.ltb_ge in Hd. exact (Hz Hd).
    + exact Hc.
    + rewrite E. eauto.
Qed.

Lemma reachable_inv (c : Cache K V) : reachable c -> inv c.
Proof.
  induction 1 as [sz cb c Hn | op c c' calls _ IH Hx].
  - unfold NewWithOnEvict in Hn. destruct (BasicLRU.NewLRU sz cb) as [err|l] eqn:E;
      [discriminate|].
    cbn [fst] in Hn. injection Hn as <-. unfold BasicLRU.NewLRU in E.
    destruct (sz <=? 0); [discriminate|]. injection E as <-. repeat split.
  - destruct (exec_inv op c IH) as (c2 & calls2 & E & Hi). congruence.
Qed.

(** C9: for every facade reachable from a constructor through public calls,
    the eviction buffers are empty, and every public call returns (no panic)
    and leaves them empty again. *)
Theorem eviction_buffers_empty_between_calls (c : Cache K V) :
  reachable c ->
  evictedKeys c = [] /\ evictedValues c = [] /\
  forall op, exists c' calls, exec op c = Some (c', calls) /\
    evictedKeys c' = [] /\ evictedValues c' = [].
Proof.
  intros Hr. pose proof (reachable_inv c Hr) as Hi.
  destruct Hi as [Hk [Hv Ho]]. split; [exact Hk|]. split; [exact Hv|].
  intros op. destruct (exec_inv op c (conj Hk (conj Hv Ho))) as (c' & calls & E & [Hk' [Hv' _]]).
  eauto.
Qed.

End FacadeProofs.

(** [NewWithOnEvict(2, cb)], then [Add(1, 10)] and [Add(2, 20)]. *)
Definition facade_two : Cache nat nat :=
  mkCache (BasicLRU.mkLRU 2 [Tests.e 2 20; Tests.e 1 10] true) [] [] true.

Lemma facade_two_reachable : reachable facade_two.
Proof.
  apply (reachable_step (OAdd 2%nat 20%nat)
           (mkCache (BasicLRU.mkLRU 2 [Tests.e 1 10] true) [] [] true) _ []);
    [|vm_compute; reflexivity].
  apply (reachable_step (OAdd 1%nat 10%nat)
           (mkCache (BasicLRU.mkLRU 2 [] true) [] [] true) _ []);
    [|vm_compute; reflexivity].
  apply (reachable_new 2 true). reflexivity.
Qed.

(** On the full facade of capacity 2, [Add(3, 30)] buffers the evicted key 1
    and [Resize(0)] buffers keys 1 and 2; both calls hand these pairs to the
    callback and return with the buffers empty. *)
Lemma eviction_buffers_empty_between_calls_witness :
  reachable facade_two /\ evictedKeys facade_two = [] /\ evictedValues facade_two = [] /\
  (forall op, exists c' calls, exec op facade_two = Some (c', calls) /\
     evictedKeys c' = [] /\ evictedValues c' = []) /\
  (let '(l, _, ev) := BasicLRU.Add 3%nat 30%nat (lru facade_two) in
   evictedKeys (buffer facade_two l ev) = [1%nat]) /\
  (let '(l, _, ev) := BasicLRU.Resize 0 (lru facade_two) in
   evictedKeys (buffer facade_two l ev) = [1%nat; 2%nat]) /\
  (exists c', exec (OAdd 3%nat 30%nat) facade_two = Some (c', [(1%nat, 10%nat)]) /\
     evictedKeys c' = [] /\ evictedValues c' = []) /\
  (exists c', exec (OResize 0) facade_two = Some (c', [(1%nat, 10%nat); (2%nat, 20%nat)]) /\
     evictedKeys c' = [] /\ evictedValues c' = []).
Proof.
  pose proof (eviction_buffers_empty_between_calls facade_two facade_two_reachable) as T.
  destruct T as (Hk & Hv & T).
  split; [exact facade_two_reachable|]. split; [exact Hk|]. split; [exact Hv|].
  split; [exact T|]. split; [vm_compute; reflexivity|]. split; [vm_compute; reflexivity|].
  split.
  - destruct (T (OAdd 3%nat 30%nat)) as (c' & calls & E & Hk' & Hv').
    pose proof E as E0. vm_compute in E0. injection E0 as _ Hc. subst calls.
    exists c'. split; [exact E|]. split; [exact Hk'|exact Hv'].
  - destruct (T (OResize 0)) as (c' & calls & E & Hk' & Hv').
    pose proof E as E0. vm_compute in E0. injection E0 as _ Hc. subst calls.
    exists c'. split; [exact E|]. split; [exact Hk'|exact Hv'].
Defined.
End FacadeProofs.

(** * Concrete instances of the insertion-order theorem *)
Module BasicWitnesses.
Import BasicLRU.

Definition kvs3 : list (nat * nat) := [(1%nat, 10%nat); (2%nat, 20%nat); (3%nat, 30%nat)].
Definition s0_2 : LRU nat nat := mkLRU 2 [] true.

Lemma distinct_adds_keep_most_recent_witness :
  NewLRU (K:=nat) (V:=nat) 2 true = inr s0_2 /\ NoDup (map fst kvs3) /\
  Keys (add_all kvs3 s0_2) = map fst (skipn (length kvs3 - Z.to_nat 2) kvs3) /\
  (forall pre k v post, kvs3 = pre ++ (k, v) :: post ->
     (Z.to_nat 2 <= length pre)%nat ->
     let s := add_all pre s0_2 in
     let oldest := nth (length pre - Z.to_nat 2) pre (k, v) in
     GetOldest s = Some oldest /\
     snd (fst (Add k v s)) = true /\
     snd (Add k v s) = (if true then [oldest] else []) /\
     Keys (fst (fst (Add k v s))) = tl (Keys s) ++ [k]).
Proof.
  assert (HN : NewLRU (K:=nat) (V:=nat) 2 true = inr s0_2) by reflexivity.
  assert (Hd : NoDup (map fst kvs3)).
  { cbn. repeat constructor; cbn; intuition discriminate. }
  split; [exact HN|]. split; [exact Hd|].
  exact (BasicProofs.distinct_adds_keep_most_recent 2 true s0_2 kvs3 HN Hd).
Defined.
End BasicWitnesses.

(** * More list facts: removal under unique keys *)
Module ListMore.
Section ListMore.
Context {K V : Type} `{Comparable K}.

Definition neq_key (k x : K) : bool := if key_eq_dec x k then false else true.

Lemma In_Remove (k : K) (l : list (Entry K V)) (x : Entry K V) :
  In x (Remove k l) -> In x l.
Proof.
  induction l as [|e l IH]; simpl; [tauto|].
  destruct (same_key k e); simpl; intuition.
Qed.

Lemma In_map_Key_Remove (k x : K) (l : list (Entry K V)) :
  In x (map Key (Remove k l)) -> In x (map Key l).
Proof.
  intros Hin. apply in_map_iff in Hin as [e [<- He]].
  apply in_map, (In_Remove k), He.
Qed.

Lemma notin_Remove (k : K) (l : list (Entry K V)) :
  NoDup (map Key l) -> ~ In k (map Key (Remove k l)).
Proof.
  induction l as [|e l IH]; simpl; [tauto|]. intros Hnd. inversion Hnd; subst.
  case_eq (same_key k e); intros Hs.
  - apply same_key_true in Hs. now subst.
  - apply same_key_false in Hs. simpl. intros [Hk|Hin]; [congruence|]. now apply IH.
Qed.

Lemma NoDup_Remove (k : K) (l : list (Entry K V)) :
  NoDup (map Key l) -> NoDup (map Key (Remove k l)).
Proof.
  induction l as [|e l IH]; simpl; [auto|]. intros Hnd. inversion Hnd; subst.
  destruct (same_key k e); [assumption|]. simpl. constructor; auto.
  intros Hin. apply In_map_Key_Remove in Hin. contradiction.
Qed.

Lemma Remove_notin (k : K) (l : list (Entry K V)) :
  ~ In k (map Key l) -> Remove k l = l.
Proof.
  induction l as [|e l IH]; simpl; [reflexivity|]. intros Hn.
  case_eq (same_key k e); intros Hs.
  - apply same_key_true in Hs; tauto.
  - f_equal; apply IH; tauto.
Qed.

Lemma Lookup_None_notin (k : K) (l : list (Entry K V)) :
  Lookup k l = None -> ~ In k (map Key l).
Proof.
  induction l as [|e l IH]; simpl; [tauto|].
  case_eq (same_key k e); intros Hs; [discriminate|]. apply same_key_false in Hs.
  intros Hl [Hk|Hin]; [congruence|]. exact (IH Hl Hin).
Qed.

Lemma Lookup_Some_iff (k : K) (l : list (Entry K V)) :
  (exists e, Lookup k l = Some e) <-> In k (map Key l).
Proof.
  split.
  - intros [e He]. rewrite <- (Lookup_Some_key _ _ _ He). apply in_map.
    exact (Lookup_Some_In _ _ _ He).
  - intros Hin. destruct (Lookup k l) as [e|] eqn:E; [now exists e|].
    exfalso; exact (Lookup_None_notin _ _ E Hin).
Qed.

Lemma map_Key_Remove (k : K) (l : list (Entry K V)) :
  NoDup (map Key l) -> map Key (Remove k l) = filter (neq_key k) (map Key l).
Proof.
  induction l as [|e l IH]; simpl; [reflexivity|]. intros Hnd. inversion Hnd; subst.
  unfold neq_key at 1. case_eq (same_key k e); intros Hs.
  - apply same_key_true in Hs. destruct (key_eq_dec (Key e) k); [|congruence].
    subst k. symmetry. apply forallb_filter_id, forallb_forall. intros x Hx.
    unfold neq_key. destruct (key_eq_dec x (Key e)); [subst; contradiction | reflexivity].
  - apply same_key_false in Hs. destruct (key_eq_dec (Key e) k); [congruence|].
    simpl. f_equal. auto.
Qed.

Lemma filter_rev {A : Type} (f : A -> bool) (l : list A) :
  filter f (rev l) = rev (filter f l).
Proof.
  induction l as [|x l IH]; simpl; [reflexivity|].
  rewrite filter_app, IH. simpl. destruct (f x); simpl; [reflexivity|].
  now rewrite app_nil_r.
Qed.

Lemma NoDup_map_Key_last (l : list (Entry K V)) (b : Entry K V) :
  NoDup (map Key (l ++ [b])) -> ~ In (Key b) (map Key l) /\ NoDup (map Key l).
Proof.
  rewrite map_app. simpl. intros Hnd. split.
  - intros Hin. apply (NoDup_remove_2 _ _ _ Hnd). rewrite app_nil_r. exact Hin.
  - eapply NoDup_app_remove_r. exact Hnd.
Qed.

End ListMore.
End ListMore.
Import ListMore.

(** * More proofs: [basic_lru] *)
Module BasicMore.
Import BasicLRU.
Section BasicMore.
Context {K V : Type} `{Comparable K}.

Definition keys_unique (s : LRU K V) : Prop := NoDup (map Key (evictList s)).

Lemma keys_unique_with_list (s : LRU K V) (l : list (Entry K V)) :
  NoDup (map Key l) -> keys_unique (with_list s l).
Proof. intros Hl; exact Hl. Qed.

Lemma removeOldest_unique (s : LRU K V) :
  keys_unique s -> keys_unique (fst (removeOldest s)).
Proof.
  unfold removeOldest. destruct (Back (evictList s)); [|auto].
  intros Hu. apply NoDup_Remove, Hu.
Qed.

Lemma removeOldest_n_unique (n : nat) (s : LRU K V) :
  keys_unique s -> keys_unique (fst (removeOldest_n n s)).
Proof.
  revert s; induction n as [|n IH]; intros s Hu; [exact Hu|]. simpl.
  pose proof (removeOldest_unique s Hu) as H1.
  destruct (removeOldest s) as [s1 ev1]. simpl in H1.
  specialize (IH s1 H1). destruct (removeOldest_n n s1) as [s2 ev2]. exact IH.
Qed.

Lemma MoveToFront_unique (k : K) (l : list (Entry K V)) (e : Entry K V) :
  NoDup (map Key l) -> Lookup k l = Some e -> NoDup (map Key (MoveToFront e l)).
Proof.
  intros Hnd Hl. rewrite (MoveToFront_Lookup _ _ _ Hl). simpl.
  rewrite (Lookup_Some_key _ _ _ Hl). constructor.
  - apply notin_Remove, Hnd.
  - apply NoDup_Remove, Hnd.
Qed.

Lemma Add_unique (k : K) (v : V) (s : LRU K V) :
  keys_unique s -> keys_unique (fst (fst (Add k v s))).
Proof.
  intros Hu. unfold Add. destruct (Lookup k (evictList s)) as [e|] eqn:Hl.
  - simpl. apply keys_unique_with_list.
    rewrite (MoveToFront_Lookup _ _ _ Hl). simpl.
    rewrite (proj2 (same_key_true k e) (Lookup_Some_key _ _ _ Hl)). simpl.
    rewrite (Lookup_Some_key _ _ _ Hl). constructor.
    + apply notin_Remove, Hu.
    + apply NoDup_Remove, Hu.
  - set (s1 := with_list s (PushToFront k v (evictList s))).
    assert (Hu1 : keys_unique s1).
    { apply keys_unique_with_list. simpl. constructor; [|exact Hu].
      apply Lookup_None_notin, Hl. }
    destruct (Len (evictList s1) >? size s).
    + pose proof (removeOldest_unique s1 Hu1) as H2.
      destruct (removeOldest s1) as [s2 ev]. exact H2.
    + exact Hu1.
Qed.

Lemma exec_unique (op : Op (K := K) (V := V)) (s : LRU K V) :
  keys_unique s -> keys_unique (fst (exec op s)).
Proof.
  intros Hu. destruct op; simpl; try exact Hu.
  - pose proof (Add_unique k v s Hu) as Ha.
    destruct (Add k v s) as [[s' e] ev]. exact Ha.
  - unfold Get. destruct (Lookup k (evictList s)) as [e|] eqn:Hl; [|exact Hu].
    apply keys_unique_with_list, (MoveToFront_unique k); assumption.
  - unfold RemoveKey. destruct (Lookup k (evictList s)); [|exact Hu].
    apply NoDup_Remove, Hu.
  - unfold RemoveOldest. destruct (Back (evictList s)); [|exact Hu].
    apply NoDup_Remove, Hu.
  - constructor.
  - unfold Resize.
    set (d := if int_wrap (LenL s - n) <? 0 then 0 else int_wrap (LenL s - n)).
    pose proof (removeOldest_n_unique (Z.to_nat d) s Hu) as H1.
    destruct (removeOldest_n (Z.to_nat d) s) as [s1 ev]. exact H1.
Qed.

Lemma reachable_unique (s : LRU K V) : reachable s -> keys_unique s.
Proof.
  induction 1 as [sz cb s _ Hn | op s _ _ IH].
  - unfold NewLRU in Hn. destruct (sz <=? 0); [discriminate|].
    injection Hn as <-. constructor.
  - now apply exec_unique.
Qed.

(** In every state reachable from [NewLRU] through the public methods, [Keys]
    lists each key once, [Len] is the number of keys and of values, and
    [Contains] holds exactly for the listed keys. *)
Theorem reachable_keys_distinct_and_counted (s : LRU K V) :
  reachable s ->
  NoDup (Keys s) /\ Z.of_nat (length (Keys s)) = LenL s /\
  length (Values s) = length (Keys s) /\
  (forall k, Contains k s = true <-> In k (Keys s)).
Proof.
  intros Hr. pose proof (reachable_unique s Hr) as Hu.
  unfold Keys, Values, LenL, Len, oldest_to_newest, Contains.
  rewrite !map_rev, !length_rev, !length_map.
  split; [apply NoDup_rev, Hu|]. split; [reflexivity|]. split; [reflexivity|].
  intros k. rewrite <- in_rev, <- Lookup_Some_iff.
  destruct (Lookup k (evictList s)); split; intros Hc; try discriminate;
    [eauto | reflexivity | destruct Hc; discriminate].
Qed.

Lemma Back_cons2 (x : Entry K V) (l : list (Entry K V)) :
  l <> [] -> Back (x :: l) = Back l.
Proof. destruct l; [congruence|reflexivity]. Qed.

(** After [Add(k, v)] on a cache of capacity at least 1, the key is present
    with the value just written: [Peek], [Contains] and [Get] find it. *)
Theorem add_then_lookup (s : LRU K V) (k : K) (v : V) :
  1 <= size s ->
  let s' := fst (fst (Add k v s)) in
  Peek k s' = Some v /\ Contains k s' = true /\ snd (Get k s') = Some v.
Proof.
  intros Hsz s'.
  assert (Hl' : exists e, Lookup k (evictList s') = Some e /\ Value e = v).
  { subst s'. unfold Add. destruct (Lookup k (evictList s)) as [e|] eqn:Hl.
    - simpl. rewrite (MoveToFront_Lookup _ _ _ Hl). simpl.
      rewrite (proj2 (same_key_true k e) (Lookup_Some_key _ _ _ Hl)). simpl.
      exists (set_value v e). split; [|reflexivity].
      rewrite (proj2 (same_key_true k (set_value v e)) (Lookup_Some_key _ _ _ Hl)).
      reflexivity.
    - assert (Hnew : same_key k (mkEntry k v 0 0 : Entry K V) = true)
        by (apply same_key_true; reflexivity).
      destruct (Z.gtb_spec (Len (evictList (with_list s (PushToFront k v (evictList s)))))
                  (size s)) as [Hgt|Hle].
      + unfold removeOldest, PushToFront in *. cbn [evictList with_list] in Hgt |- *.
        unfold Len in Hgt. cbn [length] in Hgt. rewrite ?Zpos_P_of_succ_nat, ?Nat2Z.inj_succ in Hgt.
        assert (Hne : evictList s <> []) by (intros E; rewrite E in Hgt; simpl in Hgt; lia).
        rewrite (Back_cons2 _ _ Hne).
        destruct (Back (evictList s)) as [b|] eqn:Hb.
        * unfold removeEntry. cbn [fst evictList with_list Remove].
          assert (Hbk : Key b <> k).
          { intros Hk. apply (Lookup_None_notin _ _ Hl). rewrite <- Hk.
            apply in_map, Back_In, Hb. }
          assert (Hs : same_key (Key b) (mkEntry k v 0 0 : Entry K V) = false)
            by (apply same_key_false; simpl; congruence).
          rewrite Hs. simpl. rewrite Hnew. eauto.
        * simpl. rewrite Hnew. eauto.
      + simpl. rewrite Hnew. eauto. }
  destruct Hl' as [e [He Hv]].
  unfold Peek, Contains, Get. rewrite He, Hv. auto.
Qed.

(** [Resize(N)] with [N <= 0], when [l.Len() - N] does not overflow [int],
    evicts every entry and returns [Len() - N]; the cache then stays empty:
    [Add] of any key inserts the entry and evicts it at once, returns [true],
    leaves the state unchanged and reports the pair to the callback. *)
Theorem nonpositive_size_add_evicts_itself (s : LRU K V) (N : Z) (k : K) (v : V) :
  N <= 0 -> LenL s - N < 2 ^ 63 ->
  let '(s', n, calls) := Resize N s in
  n = LenL s - N /\ evictList s' = [] /\ size s' = N /\
  Add k v s' = (s', true, if onEvict s then [(k, v)] else []).
Proof.
  intros HN Hov. unfold Resize.
  assert (Hl0 : 0 <= LenL s) by (unfold LenL, Len; lia).
  rewrite (CapacityProofs.int_wrap_id (LenL s - N)) by lia.
  destruct (Z.ltb_spec (LenL s - N) 0) as [Hlt|_]; [lia|].
  pose proof (CapacityProofs.basic_removeOldest_n (Z.to_nat (LenL s - N)) s) as [_ [Ho Hl]].
  destruct (removeOldest_n (Z.to_nat (LenL s - N)) s) as [s1 ev] eqn:E. cbn [fst] in Ho, Hl.
  assert (Hnil : evictList s1 = []).
  { apply length_zero_iff_nil. rewrite Hl. unfold LenL, Len in *. lia. }
  split; [reflexivity|]. cbn [evictList size]. rewrite Hnil.
  split; [reflexivity|]. split; [reflexivity|].
  rewrite <- Ho. unfold Add; simpl.
  assert (E2 : (Len (PushToFront k v ([] : list (Entry K V))) >? N) = true)
    by (apply Z.gtb_lt; unfold Len; simpl; lia).
  rewrite E2, (proj2 (same_key_true k (mkEntry k v 0 0 : Entry K V)) eq_refl).
  reflexivity.
Qed.

Lemma removeOldest_n_exact (m : nat) (sz : Z) (cb : bool) (l : list (Entry K V)) :
  NoDup (map Key l) -> (m <= length l)%nat ->
  removeOldest_n m (mkLRU sz l cb)
  = (mkLRU sz (firstn (length l - m) l) cb,
     if cb then rev (map kv (skipn (length l - m) l)) else []).
Proof.
  revert l; induction m as [|m IH]; intros l Hnd Hm.
  - simpl. rewrite Nat.sub_0_r, firstn_all, skipn_all. destruct cb; reflexivity.
  - destruct l as [|x l0] using rev_ind; [simpl in Hm; lia|]. clear IHl0.
    rename l0 into l. rename x into b.
    destruct (NoDup_map_Key_last l b Hnd) as [Hb Hnd'].
    rewrite length_app in Hm |- *. simpl in Hm |- *.
    assert (Hro : removeOldest (mkLRU sz (l ++ [b]) cb)
                  = (mkLRU sz l cb, if cb then [kv b] else [])).
    { unfold removeOldest, removeEntry, with_list. simpl. rewrite Back_app_last.
      simpl. rewrite (Remove_app_last _ _ _ Hb eq_refl). reflexivity. }
    rewrite Hro. rewrite (IH l Hnd' ltac:(lia)).
    replace (length l + 1 - S m)%nat with (length l - m)%nat by lia.
    rewrite firstn_app, skipn_app.
    replace (length l - m - length l)%nat with O by lia. simpl.
    rewrite app_nil_r, map_app, rev_app_distr. destruct cb; reflexivity.
Qed.

(** [Resize(N)] with [N >= 0] (an [int]) on a cache with unique keys, fewer
    than [2^63] of them, keeps the [N] most recently used entries, evicts the
    others oldest first with one callback each, sets the capacity to [N] and
    returns the number evicted. *)
Theorem resize_nonnegative_exact (s : LRU K V) (N : Z) :
  0 <= N -> is_int N = true -> LenL s < 2 ^ 63 -> keys_unique s ->
  let l := evictList s in
  Resize N s =
  (mkLRU N (firstn (Z.to_nat N) l) (onEvict s),
   Z.of_nat (length l - Z.to_nat N),
   if onEvict s then rev (map kv (skipn (Z.to_nat N) l)) else []).
Proof.
  intros HN Hi Hlen Hu l. apply CapacityProofs.is_int_spec in Hi.
  destruct s as [sz l0 cb]. unfold keys_unique in Hu. simpl in *. subst l.
  unfold Resize, LenL, Len in *. cbn [evictList] in *.
  set (n := length l0) in *.
  rewrite (CapacityProofs.int_wrap_id (Z.of_nat n - N)) by lia.
  assert (Hd : (if Z.of_nat n - N <? 0 then 0 else Z.of_nat n - N)
               = Z.of_nat (n - Z.to_nat N)).
  { destruct (Z.ltb_spec (Z.of_nat n - N) 0); lia. }
  rewrite Hd, Nat2Z.id.
  rewrite (removeOldest_n_exact (n - Z.to_nat N) sz cb l0 Hu ltac:(subst n; lia)).
  cbn [evictList onEvict]. f_equal. f_equal.
  - destruct (Nat.le_gt_cases n (Z.to_nat N)) as [Hle|Hgt].
    + replace (length l0 - (n - Z.to_nat N))%nat with n by (subst n; lia).
      subst n. rewrite firstn_all, firstn_all2 by lia. reflexivity.
    + replace (length l0 - (n - Z.to_nat N))%nat with (Z.to_nat N) by (subst n; lia).
      reflexivity.
  - destruct (Nat.le_gt_cases n (Z.to_nat N)) as [Hle|Hgt].
    + replace (length l0 - (n - Z.to_nat N))%nat with n by (subst n; lia).
      subst n. rewrite skipn_all, skipn_all2 by lia. reflexivity.
    + replace (length l0 - (n - Z.to_nat N))%nat with (Z.to_nat N) by (subst n; lia).
      reflexivity.
Qed.

(** [RemoveOldest] on a cache with unique keys returns what [GetOldest]
    reports, drops exactly that entry (the first of [Keys] and [Values]) and
    gives it to the callback; on an empty cache it returns not-ok and does
    nothing. *)
Theorem remove_oldest_is_get_oldest (s : LRU K V) :
  keys_unique s ->
  let '(s', r, calls) := RemoveOldest s in
  r = GetOldest s /\ Keys s' = tl (Keys s) /\ Values s' = tl (Values s) /\
  size s' = size s /\
  calls = (if onEvict s then match r with Some p => [p] | None => [] end else []).
Proof.
  intros Hu. destruct s as [sz l cb]. unfold keys_unique in Hu. simpl in Hu.
  unfold RemoveOldest, GetOldest, Keys, Values, oldest_to_newest. cbn [evictList onEvict size].
  destruct l as [|b l] using rev_ind.
  - simpl. destruct cb; auto.
  - clear IHl. destruct (NoDup_map_Key_last l b Hu) as [Hb _].
    rewrite Back_app_last. unfold removeEntry, with_list. cbn [evictList fst size onEvict].
    rewrite (Remove_app_last _ _ _ Hb eq_refl), rev_app_distr. simpl.
    repeat split; destruct cb; reflexivity.
Qed.

(** [Remove(k)] on a cache with unique keys returns whether [k] was present,
    afterwards [k] is absent and the other keys keep their order, and the
    callback gets [(k, value)] exactly when it was present. *)
Theorem remove_key_drops_only_key (s : LRU K V) (k : K) :
  keys_unique s ->
  let '(s', ok, calls) := RemoveKey k s in
  ok = Contains k s /\ Contains k s' = false /\
  Keys s' = filter (neq_key k) (Keys s) /\ size s' = size s /\
  calls = (if onEvict s then
             match Peek k s with Some v => [(k, v)] | None => [] end else []).
Proof.
  intros Hu. unfold keys_unique in Hu.
  unfold RemoveKey, Contains, Peek, Keys, oldest_to_newest.
  destruct (Lookup k (evictList s)) as [e|] eqn:Hl.
  - pose proof (Lookup_Some_key _ _ _ Hl) as Hk. subst k.
    unfold removeEntry, with_list. cbn [evictList fst snd size onEvict].
    rewrite (Lookup_None _ _ (notin_Remove _ _ Hu)).
    rewrite !map_rev, (map_Key_Remove _ _ Hu), filter_rev.
    repeat split.
  - rewrite Hl. repeat split. rewrite map_rev, filter_rev. f_equal.
    symmetry. apply forallb_filter_id, forallb_forall. intros x Hx.
    unfold neq_key. destruct (key_eq_dec x k); [|reflexivity].
    subst x. exfalso. exact (Lookup_None_notin _ _ Hl Hx).
    destruct (onEvict s); reflexivity.
Qed.

End BasicMore.
End BasicMore.

Module BasicMoreWitnesses.
Import BasicLRU BasicMore.

Definition bw_s0 : LRU nat nat := mkLRU 2 [] true.
Definition bw_s1 : LRU nat nat := fst (exec (OAdd 1%nat 10%nat) bw_s0).
Definition bw_s2 : LRU nat nat := fst (exec (OAdd 2%nat 20%nat) bw_s1).
Definition bw_full : LRU nat nat := mkLRU 3 [Tests.e 3 30; Tests.e 2 20; Tests.e 1 10] true.

Lemma bw_s2_reachable : reachable bw_s2.
Proof.
  apply reachable_step; [reflexivity|]. apply reachable_step; [reflexivity|].
  apply (reachable_new 2 true); reflexivity.
Qed.

Lemma bw_full_unique : keys_unique bw_full.
Proof. unfold keys_unique; simpl. repeat constructor; simpl; intuition discriminate. Qed.

Lemma reachable_keys_distinct_and_counted_witness :
  reachable bw_s2 /\
  NoDup (Keys bw_s2) /\ Z.of_nat (length (Keys bw_s2)) = LenL bw_s2 /\
  length (Values bw_s2) = length (Keys bw_s2) /\
  (forall k, Contains k bw_s2 = true <-> In k (Keys bw_s2)).
Proof.
  split; [exact bw_s2_reachable|].
  exact (reachable_keys_distinct_and_counted bw_s2 bw_s2_reachable).
Defined.

Lemma add_then_lookup_witness :
  1 <= size bw_s2 /\
  Peek 3%nat (fst (fst (Add 3%nat 30%nat bw_s2))) = Some 30%nat /\
  Contains 3%nat (fst (fst (Add 3%nat 30%nat bw_s2))) = true /\
  snd (Get 3%nat (fst (fst (Add 3%nat 30%nat bw_s2)))) = Some 30%nat.
Proof.
  assert (Hs : 1 <= size bw_s2) by (vm_compute; discriminate).
  split; [exact Hs|]. exact (add_then_lookup bw_s2 3%nat 30%nat Hs).
Defined.

(** [Resize(-1)] on the cache holding keys 2 and 1 evicts both and returns
    3; then [Add(5, 50)] evicts the pair it added. *)
Lemma nonpositive_size_add_evicts_itself_witness :
  -1 <= 0 /\ LenL bw_s2 - -1 < 2 ^ 63 /\
  let '(s', n, calls) := Resize (-1) bw_s2 in
  n = LenL bw_s2 - -1 /\ evictList s' = [] /\ size s' = -1 /\
  Add 5%nat 50%nat s' = (s', true, if onEvict bw_s2 then [(5%nat, 50%nat)] else []).
Proof.
  assert (HN : -1 <= 0) by lia.
  assert (Ho : LenL bw_s2 - -1 < 2 ^ 63) by (vm_compute; reflexivity).
  split; [exact HN|]. split; [exact Ho|].
  exact (nonpositive_size_add_evicts_itself bw_s2 (-1) 5%nat 50%nat HN Ho).
Defined.

(** When [l.Len() - size] overflows, [diff] wraps to a negative [int]:
    [Resize(math.MinInt64)] on a cache of capacity 2 holding key 1 evicts
    nothing and returns 0, and the next [Add] of a new key evicts key 1, not
    the added key. *)
Lemma resize_min_int_wraps :
  let '(s', n, calls) := Resize (- 2 ^ 63) bw_s1 in
  n = 0 /\ calls = [] /\ size s' = - 2 ^ 63 /\ map Key (evictList s') = [1%nat] /\
  let '(s'', evicted, calls') := Add 2%nat 20%nat s' in
  map Key (evictList s'') = [2%nat] /\ evicted = true /\ calls' = [(1%nat, 10%nat)].
Proof. vm_compute. repeat split. Qed.

Lemma resize_nonnegative_exact_witness :
  0 <= 1 /\ is_int 1 = true /\ LenL bw_full < 2 ^ 63 /\ keys_unique bw_full /\
  Resize 1 bw_full =
  (mkLRU 1 (firstn (Z.to_nat 1) (evictList bw_full)) (onEvict bw_full),
   Z.of_nat (length (evictList bw_full) - Z.to_nat 1),
   if onEvict bw_full then rev (map kv (skipn (Z.to_nat 1) (evictList bw_full))) else []).
Proof.
  assert (HN : 0 <= 1) by lia.
  assert (Hi : is_int 1 = true) by reflexivity.
  assert (Hl : LenL bw_full < 2 ^ 63) by (vm_compute; reflexivity).
  split; [exact HN|]. split; [exact Hi|]. split; [exact Hl|]. split; [exact bw_full_unique|].
  exact (resize_nonnegative_exact bw_full 1 HN Hi Hl bw_full_unique).
Defined.

Lemma remove_oldest_is_get_oldest_witness :
  keys_unique bw_full /\
  let '(s', r, calls) := RemoveOldest bw_full in
  r = GetOldest bw_full /\ Keys s' = tl (Keys bw_full) /\
  Values s' = tl (Values bw_full) /\ size s' = size bw_full /\
  calls = (if onEvict bw_full then match r with Some p => [p] | None => [] end else []).
Proof.
  split; [exact bw_full_unique|].
  exact (remove_oldest_is_get_oldest bw_full bw_full_unique).
Defined.

Lemma remove_key_drops_only_key_witness :
  keys_unique bw_full /\
  let '(s', ok, calls) := RemoveKey 2%nat bw_full in
  ok = Contains 2%nat bw_full /\ Contains 2%nat s' = false /\
  Keys s' = filter (neq_key 2%nat) (Keys bw_full) /\ size s' = size bw_full /\
  calls = (if onEvict bw_full then
             match Peek 2%nat bw_full with Some v => [(2%nat, v)] | None => [] end else []).
Proof.
  split; [exact bw_full_unique|].
  exact (remove_key_drops_only_key bw_full 2%nat bw_full_unique).
Defined.

End BasicMoreWitnesses.

(** * More proofs: the facade forwards to the wrapped cache *)
Module FacadeMore.
Import Facade FacadeProofs.
Section FacadeMore.
Context {K V : Type} `{Comparable K}.

Lemma drain_one_exact (c : Cache K V) (l : BasicLRU.LRU K V) (ev : list (K * V)) (cond : bool) :
  inv c -> (if cond then one_call (onEvict c) ev else ev = []) ->
  drain_one cond (buffer c l ev) = Some (mkCache l [] [] (onEvict c), ev).
Proof.
  intros [Hk [Hv _]] Hev. unfold drain_one, buffer. cbn [onEvict evictedKeys evictedValues lru].
  rewrite Hk, Hv. destruct cond.
  - unfold one_call in Hev. destruct (onEvict c).
    + destruct Hev as [[x y] ->]. reflexivity.
    + subst ev. reflexivity.
  - subst ev. reflexivity.
Qed.

Lemma drain_all_exact (c : Cache K V) (l : BasicLRU.LRU K V) (ev : list (K * V)) (cond : bool) :
  inv c -> (cond = false -> ev = []) -> (onEvict c = false -> ev = []) ->
  drain_all cond (buffer c l ev) = Some (mkCache l [] [] (onEvict c), ev).
Proof.
  intros [Hk [Hv _]] Hc Ho. unfold drain_all, buffer. cbn [onEvict evictedKeys evictedValues lru].
  rewrite Hk, Hv. simpl.
  destruct cond; [|rewrite (Hc eq_refl); reflexivity].
  destruct (onEvict c); [|rewrite (Ho eq_refl); reflexivity].
  simpl. rewrite callbacks_split. reflexivity.
Qed.

Lemma add_path_exact (c : Cache K V) (k : K) (v : V) :
  inv c ->
  let '(l, evicted, ev) := BasicLRU.Add k v (lru c) in
  drain_one evicted (buffer c l ev) = Some (mkCache l [] [] (onEvict c), ev).
Proof.
  intros Hi. pose proof (basic_Add_calls k v (lru c)) as [_ Hc].
  destruct Hi as [Hk [Hv Ho]]. rewrite Ho in Hc.
  destruct (BasicLRU.Add k v (lru c)) as [[l evd] ev]. cbn [fst snd] in Hc.
  exact (drain_one_exact c l ev evd (conj Hk (conj Hv Ho)) Hc).
Qed.

(** Every method of a reachable facade returns what the same method of the
    wrapped basic cache returns, leaves the wrapped cache in the state that
    method leaves it in with empty buffers, and calls the user callback with
    exactly the pairs the basic method evicted, in order. *)
Theorem facade_methods_forward_to_basic (c : Cache K V) :
  reachable c ->
  let cb := onEvict c in
  (forall k v, Add k v c =
     let '(l, e, ev) := BasicLRU.Add k v (lru c) in Some (mkCache l [] [] cb, e, ev)) /\
  (forall k, Get k c =
     let '(l, r) := BasicLRU.Get k (lru c) in (mkCache l [] [] cb, r)) /\
  (forall k v, ContainsOrAdd k v c =
     if BasicLRU.Contains k (lru c) then Some (c, (true, false), [])
     else let '(l, e, ev) := BasicLRU.Add k v (lru c) in
          Some (mkCache l [] [] cb, (false, e), ev)) /\
  (forall k v, PeekOrAdd k v c =
     match BasicLRU.Peek k (lru c) with
     | Some p => Some (c, (Some p, false), [])
     | None => let '(l, e, ev) := BasicLRU.Add k v (lru c) in
               Some (mkCache l [] [] cb, (None, e), ev)
     end) /\
  (forall k, RemoveKey k c =
     let '(l, ok, ev) := BasicLRU.RemoveKey k (lru c) in Some (mkCache l [] [] cb, ok, ev)) /\
  (RemoveOldest c =
     let '(l, r, ev) := BasicLRU.RemoveOldest (lru c) in Some (mkCache l [] [] cb, r, ev)) /\
  (forall ord, Purge ord c =
     let '(l, ev) := BasicLRU.Purge ord (lru c) in Some (mkCache l [] [] cb, ev)) /\
  (forall n, Resize n c =
     let '(l, d, ev) := BasicLRU.Resize n (lru c) in Some (mkCache l [] [] cb, d, ev)).
Proof.
  intros Hr cb. pose proof (reachable_inv c Hr) as Hi.
  pose proof Hi as [Hk [Hv Ho]]. subst cb.
  split; [|split; [|split; [|split; [|split; [|split; [|split]]]]]].
  - intros k v. unfold Add. pose proof (add_path_exact c k v Hi) as Hp.
    destruct (BasicLRU.Add k v (lru c)) as [[l e] ev]. now rewrite Hp.
  - intros k. unfold Get. destruct (BasicLRU.Get k (lru c)). now rewrite Hk, Hv.
  - intros k v. unfold ContainsOrAdd. destruct (BasicLRU.Contains k (lru c)); [reflexivity|].
    pose proof (add_path_exact c k v Hi) as Hp.
    destruct (BasicLRU.Add k v (lru c)) as [[l e] ev]. now rewrite Hp.
  - intros k v. unfold PeekOrAdd. destruct (BasicLRU.Peek k (lru c)); [reflexivity|].
    pose proof (add_path_exact c k v Hi) as Hp.
    destruct (BasicLRU.Add k v (lru c)) as [[l e] ev]. now rewrite Hp.
  - intros k. unfold RemoveKey. pose proof (basic_RemoveKey_calls k (lru c)) as [_ Hc].
    rewrite Ho in Hc.
    destruct (BasicLRU.RemoveKey k (lru c)) as [[l ok] ev]. cbn [fst snd] in Hc.
    now rewrite (drain_one_exact c l ev ok Hi Hc).
  - unfold RemoveOldest. pose proof (basic_RemoveOldest_calls (lru c)) as [_ Hc].
    rewrite Ho in Hc.
    destruct (BasicLRU.RemoveOldest (lru c)) as [[l r] ev]. cbn [fst snd] in Hc.
    assert (Hc' : if (match r with Some _ => true | None => false end)
                  then one_call (onEvict c) ev else ev = []) by (destruct r; exact Hc).
    now rewrite (drain_one_exact c l ev _ Hi Hc').
  - intros ord. unfold Purge.
    assert (He : onEvict c = false -> snd (BasicLRU.Purge ord (lru c)) = []).
    { intros Hf. unfold BasicLRU.Purge. simpl. now rewrite Ho, Hf. }
    destruct (BasicLRU.Purge ord (lru c)) as [l ev]. cbn [snd] in He.
    rewrite (drain_all_exact c l ev _ Hi); [reflexivity| |exact He].
    intros Hc. apply Z.ltb_ge in Hc. unfold buffer in Hc. cbn [evictedKeys] in Hc.
    rewrite Hk, length_app, length_map in Hc. cbn [length Nat.add] in Hc.
    destruct ev; [reflexivity | cbn [length] in Hc; lia].
  - intros n. unfold Resize. pose proof (basic_Resize_calls n (lru c)) as [_ [Hz Hc]].
    rewrite Ho in Hc.
    destruct (BasicLRU.Resize n (lru c)) as [[l d] ev]. cbn [fst snd] in Hz, Hc.
    rewrite (drain_all_exact c l ev _ Hi); [reflexivity| |exact Hc].
    intros Hd. apply Z.ltb_ge in Hd. exact (Hz Hd).
Qed.

End FacadeMore.

(** On the full facade of capacity 2, [Add(3, 30)] and [Resize(0)] evict
    through the wrapped cache and forward the evicted pairs to the callback. *)
Lemma facade_methods_forward_to_basic_witness :
  reachable facade_two /\
  ((forall k v, Add k v facade_two =
     let '(l, e, ev) := BasicLRU.Add k v (lru facade_two) in
     Some (mkCache l [] [] (onEvict facade_two), e, ev)) /\
  (forall k, Get k facade_two =
     let '(l, r) := BasicLRU.Get k (lru facade_two) in
     (mkCache l [] [] (onEvict facade_two), r)) /\
  (forall k v, ContainsOrAdd k v facade_two =
     if BasicLRU.Contains k (lru facade_two) then Some (facade_two, (true, false), [])
     else let '(l, e, ev) := BasicLRU.Add k v (lru facade_two) in
          Some (mkCache l [] [] (onEvict facade_two), (false, e), ev)) /\
  (forall k v, PeekOrAdd k v facade_two =
     match BasicLRU.Peek k (lru facade_two) with
     | Some p => Some (facade_two, (Some p, false), [])
     | None => let '(l, e, ev) := BasicLRU.Add k v (lru facade_two) in
               Some (mkCache l [] [] (onEvict facade_two), (None, e), ev)
     end) /\
  (forall k, RemoveKey k facade_two =
     let '(l, ok, ev) := BasicLRU.RemoveKey k (lru facade_two) in
     Some (mkCache l [] [] (onEvict facade_two), ok, ev)) /\
  (RemoveOldest facade_two =
     let '(l, r, ev) := BasicLRU.RemoveOldest (lru facade_two) in
     Some (mkCache l [] [] (onEvict facade_two), r, ev)) /\
  (forall ord, Purge ord facade_two =
     let '(l, ev) := BasicLRU.Purge ord (lru facade_two) in
     Some (mkCache l [] [] (onEvict facade_two), ev)) /\
  (forall n, Resize n facade_two =
     let '(l, d, ev) := BasicLRU.Resize n (lru facade_two) in
     Some (mkCache l [] [] (onEvict facade_two), d, ev))) /\
  Add 3%nat 30%nat facade_two =
    Some (mkCache (BasicLRU.mkLRU 2 [Tests.e 3 30; Tests.e 2 20] true) [] [] true,
          true, [(1%nat, 10%nat)]) /\
  Resize 0 facade_two =
    Some (mkCache (BasicLRU.mkLRU 0 [] true) [] [] true, 2,
          [(1%nat, 10%nat); (2%nat, 20%nat)]).
Proof.
  pose proof (facade_methods_forward_to_basic facade_two facade_two_reachable) as T.
  split; [exact facade_two_reachable|]. split; [exact T|].
  cbv zeta in T. destruct T as (TA & _ & _ & _ & _ & _ & _ & TR).
  split; [rewrite TA|rewrite TR]; vm_compute; reflexivity.
Defined.
End FacadeMore.

(** * More proofs: [expirable_lru]'s expiry buckets *)
Module ExpInv.
Import ExpirableLRU.
Section ExpInv.
Context {K V : Type} `{Comparable K}.

Local Notation LRU := (LRU K V).

(** The keys registered in bucket [i]. *)
Definition bk (s : LRU) (i : Z) : list K := bentries (get_bucket s i).

Definition in_range (i : Z) : Prop := 0 <= i < numBuckets.

(** The buckets index exactly the live nodes: every node names a bucket in
    range, and bucket [i] holds a key iff a live node with that key names [i]. *)
Definition BI (s : LRU) : Prop :=
  length (buckets s) = Z.to_nat numBuckets /\
  in_range (nextBucket s) /\
  NoDup (map Key (evictList s)) /\
  Forall (fun b => NoDup (bentries b)) (buckets s) /\
  (forall e, In e (evictList s) -> in_range (Bucket e)) /\
  (forall i, in_range i -> forall k,
     In k (bk s i) <-> exists e, In e (evictList s) /\ Key e = k /\ Bucket e = i).

(** ** Lists and buckets *)

Lemma set_nth_length {A : Type} (n : nat) (x : A) (l : list A) :
  length (set_nth n x l) = length l.
Proof.
  revert n; induction l as [|y l IH]; intros [|n]; simpl; auto.
Qed.

Lemma nth_set_nth {A : Type} (n m : nat) (x d : A) (l : list A) :
  (n < length l)%nat ->
  nth m (set_nth n x l) d = if Nat.eqb m n then x else nth m l d.
Proof.
  revert n m; induction l as [|y l IH]; intros n m Hn; simpl in Hn; [lia|].
  destruct n as [|n], m as [|m]; simpl; auto.
  apply IH. lia.
Qed.

Lemma Forall_set_nth {A : Type} (P : A -> Prop) (n : nat) (x : A) (l : list A) :
  Forall P l -> P x -> Forall P (set_nth n x l).
Proof.
  revert n; induction l as [|y l IH]; intros n Hl Hx; [destruct n; simpl; constructor|].
  inversion Hl; subst. destruct n; simpl; constructor; auto.
Qed.

Lemma get_put (s : LRU) (i j : Z) (b : bucket K) :
  length (buckets s) = Z.to_nat numBuckets -> in_range i -> in_range j ->
  get_bucket (put_bucket s i b) j = if Z.eqb i j then b else get_bucket s j.
Proof.
  unfold in_range, numBuckets, get_bucket, put_bucket, with_buckets. cbn [buckets].
  intros Hl Hi Hj. rewrite nth_set_nth by lia.
  destruct (Z.eqb_spec i j), (Nat.eqb_spec (Z.to_nat j) (Z.to_nat i)); auto; lia.
Qed.

Lemma nth_Forall {A : Type} (P : A -> Prop) (n : nat) (l : list A) (d : A) :
  Forall P l -> P d -> P (nth n l d).
Proof.
  revert n; induction l as [|y l IH]; intros n Hl Hd; destruct n; simpl; auto;
    inversion Hl; subst; auto.
Qed.

Lemma get_bucket_nodup (s : LRU) (i : Z) :
  Forall (fun b => NoDup (bentries b)) (buckets s) -> NoDup (bk s i).
Proof.
  intros Hf. unfold bk, get_bucket.
  apply (nth_Forall (fun b => NoDup (bentries b))); [exact Hf | constructor].
Qed.

Lemma In_map_insert (k x : K) (ks : list K) : In x (map_insert k ks) <-> x = k \/ In x ks.
Proof.
  unfold map_insert. destruct (existsb _ ks) eqn:E.
  - apply existsb_exists in E as [y [Hy Hyk]].
    destruct (key_eq_dec y k); [subst|discriminate]. split; [auto|].
    intros [->|Hx]; auto.
  - simpl. split; intros [Hx|Hx]; auto.
Qed.

Lemma NoDup_map_insert (k : K) (ks : list K) : NoDup ks -> NoDup (map_insert k ks).
Proof.
  unfold map_insert. destruct (existsb _ ks) eqn:E; intros Hnd; [exact Hnd|].
  constructor; [|exact Hnd]. intros Hin.
  assert (Ht : existsb (fun k' => if key_eq_dec k' k then true else false) ks = true).
  { apply existsb_exists. exists k. split; [exact Hin|]. now destruct (key_eq_dec k k). }
  congruence.
Qed.

Lemma In_map_delete (k x : K) (ks : list K) : In x (map_delete k ks) <-> x <> k /\ In x ks.
Proof.
  unfold map_delete. rewrite filter_In. destruct (key_eq_dec x k); split; intros Hx;
    intuition congruence.
Qed.

Lemma NoDup_map_delete (k : K) (ks : list K) : NoDup ks -> NoDup (map_delete k ks).
Proof. apply NoDup_filter. Qed.

Lemma In_Remove_iff (k : K) (l : list (Entry K V)) (x : Entry K V) :
  NoDup (map Key l) -> In x (Remove k l) <-> In x l /\ Key x <> k.
Proof.
  induction l as [|e l IH]; simpl; [tauto|]. intros Hnd. inversion Hnd; subst.
  case_eq (same_key k e); intros Hs.
  - apply same_key_true in Hs. split.
    + intros Hx. split; [auto|]. intros Hk. apply H2. rewrite Hs, <- Hk. now apply in_map.
    + intros [[<-|Hx] Hk]; [contradiction|exact Hx].
  - apply same_key_false in Hs. simpl. rewrite IH by assumption. intuition congruence.
Qed.

Lemma In_Update_iff (k : K) (f : Entry K V -> Entry K V) (l : list (Entry K V))
    (x : Entry K V) :
  NoDup (map Key l) ->
  In x (Update k f l) <-> (exists y, In y l /\ Key y = k /\ x = f y) \/ (In x l /\ Key x <> k).
Proof.
  induction l as [|e l IH]; simpl; [firstorder|]. intros Hnd. inversion Hnd; subst.
  case_eq (same_key k e); intros Hs.
  - apply same_key_true in Hs. simpl. split.
    + intros [<-|Hx]; [left; eauto|].
      right. split; [auto|]. intros Hk. apply H2. rewrite Hs, <- Hk. now apply in_map.
    + intros [[y [[<-|Hy] [Hyk ->]]]|[[<-|Hx] Hk]]; auto; try contradiction.
      exfalso. apply H2. rewrite Hs, <- Hyk. now apply in_map.
  - apply same_key_false in Hs. simpl. rewrite IH by assumption. split.
    + intros [<-|[[y [Hy Hyk]]|[Hx Hk]]]; [right; split; auto|left; eauto|right; auto].
    + intros [[y [[<-|Hy] [Hyk ->]]]|[[<-|Hx] Hk]]; [congruence|right; left; eauto|auto|auto].
Qed.

Lemma map_Key_Update (k : K) (f : Entry K V -> Entry K V) (l : list (Entry K V)) :
  (forall y, Key (f y) = Key y) -> map Key (Update k f l) = map Key l.
Proof.
  intros Hf. induction l as [|e l IH]; simpl; [reflexivity|].
  destruct (same_key k e); simpl; rewrite ?Hf, ?IH; reflexivity.
Qed.

Lemma In_node_unique (l : list (Entry K V)) (x y : Entry K V) :
  NoDup (map Key l) -> In x l -> In y l -> Key x = Key y -> x = y.
Proof.
  induction l as [|e l IH]; simpl; [tauto|]. intros Hnd. inversion Hnd; subst.
  intros [<-|Hx] [<-|Hy] Hk; auto.
  - exfalso. apply H2. rewrite Hk. now apply in_map.
  - exfalso. apply H2. rewrite <- Hk. now apply in_map.
Qed.

Lemma Lookup_In_unique (l : list (Entry K V)) (x : Entry K V) :
  NoDup (map Key l) -> In x l -> Lookup (Key x) l = Some x.
Proof.
  intros Hnd Hx. destruct (Lookup (Key x) l) as [y|] eqn:E.
  - f_equal. apply (In_node_unique l); auto.
    + exact (Lookup_Some_In _ _ _ E).
    + exact (Lookup_Some_key _ _ _ E).
  - exfalso. apply (Lookup_None_notin _ _ E). now apply in_map.
Qed.

Lemma mod_in_range (x : Z) : in_range (x mod numBuckets).
Proof. unfold in_range, numBuckets. apply Z.mod_pos_bound. lia. Qed.


(** ** The primitives on the buckets *)

Lemma bk_with_list (s : LRU) (l : list (Entry K V)) (i : Z) : bk (with_list s l) i = bk s i.
Proof. reflexivity. Qed.

Lemma bk_removeFromBucket (s : LRU) (e : Entry K V) (i : Z) :
  length (buckets s) = Z.to_nat numBuckets -> in_range (Bucket e) -> in_range i ->
  bk (removeFromBucket e s) i
  = if Z.eqb (Bucket e) i then map_delete (Key e) (bk s (Bucket e)) else bk s i.
Proof.
  intros Hl He Hi. unfold removeFromBucket, bk. rewrite get_put by assumption.
  destruct (Z.eqb (Bucket e) i); reflexivity.
Qed.

Lemma removeFromBucket_fields (s : LRU) (e : Entry K V) :
  evictList (removeFromBucket e s) = evictList s /\
  nextBucket (removeFromBucket e s) = nextBucket s /\
  length (buckets (removeFromBucket e s)) = length (buckets s) /\
  (Forall (fun b => NoDup (bentries b)) (buckets s) ->
   Forall (fun b => NoDup (bentries b)) (buckets (removeFromBucket e s))).
Proof.
  unfold removeFromBucket, put_bucket, with_buckets. cbn [evictList nextBucket buckets].
  split; [reflexivity|]. split; [reflexivity|]. split; [apply set_nth_length|].
  intros Hf. apply Forall_set_nth; [exact Hf|]. cbn [bentries].
  apply NoDup_map_delete, (get_bucket_nodup s (Bucket e) Hf).
Qed.

Definition set_bucket (i : Z) (e0 : Entry K V) : Entry K V :=
  mkEntry (Key e0) (Value e0) (ExpiresAt e0) i.

Lemma addToBucket_fields (s : LRU) (e : Entry K V) :
  evictList (addToBucket e s)
  = Update (Key e) (set_bucket (nextBucket s mod numBuckets)) (evictList s) /\
  nextBucket (addToBucket e s) = nextBucket s /\
  length (buckets (addToBucket e s)) = length (buckets s) /\
  (Forall (fun b => NoDup (bentries b)) (buckets s) ->
   Forall (fun b => NoDup (bentries b)) (buckets (addToBucket e s))).
Proof.
  unfold addToBucket, put_bucket, with_buckets, with_list. cbn [evictList nextBucket buckets].
  split; [reflexivity|]. split; [reflexivity|]. split; [apply set_nth_length|].
  intros Hf. apply Forall_set_nth; [exact Hf|]. cbn [bentries].
  apply NoDup_map_insert.
  exact (get_bucket_nodup (with_list s (Update (Key e) (set_bucket (nextBucket s mod numBuckets))
    (evictList s))) (nextBucket s mod numBuckets) Hf).
Qed.

Lemma bk_addToBucket (s : LRU) (e : Entry K V) (i : Z) :
  length (buckets s) = Z.to_nat numBuckets -> in_range i ->
  bk (addToBucket e s) i
  = if Z.eqb (nextBucket s mod numBuckets) i then map_insert (Key e) (bk s i) else bk s i.
Proof.
  intros Hl Hi. unfold addToBucket, bk.
  rewrite get_put by (try exact Hl; try exact Hi; apply mod_in_range).
  destruct (Z.eqb_spec (nextBucket s mod numBuckets) i); [subst i|]; reflexivity.
Qed.

(** ** The invariant is kept by every step *)

Lemma removeEntry_BI (s : LRU) (e : Entry K V) :
  BI s -> In e (evictList s) -> BI (fst (removeEntry e s)).
Proof.
  intros [Hlen [Hnb [Hnd [Hf [Hr Hbk]]]]] He. unfold removeEntry. cbn [fst].
  set (s1 := with_list s (Remove (Key e) (evictList s))).
  pose proof (removeFromBucket_fields s1 e) as [El [En [Eb Ef]]].
  assert (Hl1 : length (buckets s1) = Z.to_nat numBuckets) by exact Hlen.
  assert (Hre : in_range (Bucket e)) by (apply Hr, He).
  unfold BI. rewrite El, En, Eb. cbn [evictList nextBucket s1 with_list].
  split; [exact Hlen|]. split; [exact Hnb|]. split; [apply NoDup_Remove, Hnd|].
  split; [apply Ef, Hf|]. split.
  { intros x Hx. apply Hr, (In_Remove _ _ _ Hx). }
  intros i Hi k. rewrite (bk_removeFromBucket s1 e i Hl1 Hre Hi). unfold s1. rewrite !bk_with_list.
  setoid_rewrite (In_Remove_iff (Key e) (evictList s) _ Hnd).
  destruct (Z.eqb_spec (Bucket e) i) as [<-|Hne].
  - rewrite In_map_delete, (Hbk (Bucket e) Hre k). split.
    + intros [Hk [x [Hx [Hxk Hxb]]]]. exists x. subst k. auto.
    + intros [x [[Hx Hxk] [Hk Hxb]]]. subst k. eauto.
  - rewrite (Hbk i Hi k). split.
    + intros [x [Hx [Hxk Hxb]]]. exists x. split; [split; [exact Hx|]|auto].
      intros Hk. apply Hne. rewrite <- Hxb. f_equal.
      symmetry. apply (In_node_unique (evictList s)); auto.
    + intros [x [[Hx _] Hxk]]. eauto.
Qed.

Lemma removeOldest_BI (s : LRU) : BI s -> BI (fst (removeOldest s)).
Proof.
  intros Hb. unfold removeOldest. destruct (Back (evictList s)) as [b|] eqn:E; [|exact Hb].
  apply removeEntry_BI; [exact Hb | apply Back_In, E].
Qed.

Lemma removeOldest_n_BI (n : nat) (s : LRU) : BI s -> BI (fst (removeOldest_n n s)).
Proof.
  revert s; induction n as [|n IH]; intros s Hb; [exact Hb|]. simpl.
  pose proof (removeOldest_BI s Hb) as H1.
  destruct (removeOldest s) as [s1 ev1]. cbn [fst] in H1.
  specialize (IH s1 H1). destruct (removeOldest_n n s1) as [s2 ev2]. exact IH.
Qed.

Lemma remove_keys_BI (ord : list K) (s : LRU) : BI s -> BI (fst (remove_keys ord s)).
Proof.
  revert s; induction ord as [|k ord IH]; intros s Hb; [exact Hb|]. simpl.
  assert (H1 : BI (fst (match Lookup k (evictList s) with
                        | Some e => removeEntry e s | None => (s, []) end))).
  { destruct (Lookup k (evictList s)) as [e|] eqn:E; [|exact Hb].
    apply removeEntry_BI; [exact Hb | apply (Lookup_Some_In _ _ _ E)]. }
  destruct (match Lookup k (evictList s) with
            | Some e => removeEntry e s | None => (s, []) end) as [s1 ev1].
  cbn [fst] in H1. specialize (IH s1 H1). destruct (remove_keys ord s1) as [s2 ev2]. exact IH.
Qed.

Lemma same_nodes_BI (s : LRU) (l : list (Entry K V)) :
  BI s -> NoDup (map Key l) -> (forall x, In x l <-> In x (evictList s)) ->
  BI (with_list s l).
Proof.
  intros [Hlen [Hnb [Hnd [Hf [Hr Hbk]]]]] Hnd' Hsame. unfold BI. cbn [with_list evictList nextBucket buckets].
  split; [exact Hlen|]. split; [exact Hnb|]. split; [exact Hnd'|]. split; [exact Hf|].
  split; [intros x Hx; apply Hr, Hsame, Hx|].
  intros i Hi k. rewrite bk_with_list, (Hbk i Hi k).
  split; intros [x [Hx Hxk]]; exists x; split; auto; apply Hsame; exact Hx.
Qed.

Lemma with_size_BI (s : LRU) (sz : Z) : BI s -> BI (with_size s sz).
Proof. intros Hb; exact Hb. Qed.

(** [addToBucket] registers a node whose key no bucket holds yet. *)
Lemma addToBucket_BI (s : LRU) (e : Entry K V) :
  length (buckets s) = Z.to_nat numBuckets -> in_range (nextBucket s) ->
  NoDup (map Key (evictList s)) -> Forall (fun b => NoDup (bentries b)) (buckets s) ->
  (forall x, In x (evictList s) -> in_range (Bucket x)) ->
  In (Key e) (map Key (evictList s)) ->
  (forall i, in_range i -> forall k,
     In k (bk s i) <->
     exists x, In x (evictList s) /\ Key x = k /\ k <> Key e /\ Bucket x = i) ->
  BI (addToBucket e s).
Proof.
  intros Hlen Hnb Hnd Hf Hr Hke Hbk.
  pose proof (addToBucket_fields s e) as [El [En [Eb Ef]]].
  set (idx := nextBucket s mod numBuckets) in *.
  assert (Hidx : in_range idx) by apply mod_in_range.
  assert (HK : forall y, Key (set_bucket idx y) = Key y) by reflexivity.
  unfold BI. rewrite El, En, Eb.
  split; [exact Hlen|]. split; [exact Hnb|].
  split; [rewrite map_Key_Update by exact HK; exact Hnd|]. split; [apply Ef, Hf|].
  split.
  { intros x Hx. apply (In_Update_iff _ _ _ _ Hnd) in Hx.
    destruct Hx as [[y [_ [_ ->]]]|[Hx _]]; [exact Hidx | apply Hr, Hx]. }
  intros i Hi k. rewrite (bk_addToBucket s e i Hlen Hi). fold idx.
  setoid_rewrite (In_Update_iff _ _ _ _ Hnd).
  destruct (Z.eqb_spec idx i) as [<-|Hne].
  - rewrite In_map_insert, (Hbk idx Hidx k). split.
    + intros [->|[x [Hx [Hxk [Hk Hxb]]]]].
      * apply in_map_iff in Hke as [y [Hyk Hy]].
        exists (set_bucket idx y). split; [left; eauto|]. split; [exact Hyk|reflexivity].
      * exists x. split; [right; split; [exact Hx|congruence]|auto].
    + intros [x [[[y [Hy [Hyk ->]]]|[Hx Hxk]] [Hk Hb]]].
      * left. rewrite <- Hk. exact Hyk.
      * right. exists x. subst k. auto.
  - rewrite (Hbk i Hi k). split.
    + intros [x [Hx [Hxk [Hk Hxb]]]]. exists x. split; [right; split; [exact Hx|congruence]|auto].
    + intros [x [[[y [Hy [Hyk ->]]]|[Hx Hxk]] [Hk Hb]]].
      * exfalso. apply Hne. exact Hb.
      * exists x. subst k. auto.
Qed.

Lemma Add_BI (now : Z) (k : K) (v : V) (s : LRU) : BI s -> BI (fst (fst (Add now k v s))).
Proof.
  intros Hb. pose proof Hb as [Hlen [Hnb [Hnd [Hf [Hr Hbk]]]]].
  unfold Add. destruct (Lookup k (evictList s)) as [e|] eqn:Hl.
  - pose proof (Lookup_Some_key _ _ _ Hl) as Hek. pose proof (Lookup_Some_In _ _ _ Hl) as Hein.
    cbn [fst].
    set (s1 := with_list s (MoveToFront e (evictList s))).
    set (s2 := removeFromBucket e s1).
    set (e' := mkEntry (Key e) v (now + ttl s) (Bucket e)).
    set (s3 := with_list s2 (Update k (fun _ => e') (evictList s2))).
    pose proof (removeFromBucket_fields s1 e) as [El [En [Eb Ef]]]. fold s2 in El, En, Eb, Ef.
    assert (Hl3 : evictList s3 = e' :: Remove k (evictList s)).
    { change (Update k (fun _ => e') (evictList s2) = e' :: Remove k (evictList s)).
      rewrite El. change (Update k (fun _ => e') (MoveToFront e (evictList s))
                          = e' :: Remove k (evictList s)).
      rewrite (MoveToFront_Lookup _ _ _ Hl). simpl.
      rewrite (proj2 (same_key_true k e) Hek). reflexivity. }
    assert (Hre : in_range (Bucket e)) by (apply Hr, Hein).
    apply addToBucket_BI.
    + exact (eq_trans Eb Hlen).
    + change (in_range (nextBucket s2)). rewrite En. exact Hnb.
    + rewrite Hl3. simpl. constructor.
      * rewrite Hek. apply notin_Remove, Hnd.
      * apply NoDup_Remove, Hnd.
    + apply Ef, Hf.
    + rewrite Hl3. intros x [<-|Hx]; [exact Hre|]. apply Hr, (In_Remove _ _ _ Hx).
    + rewrite Hl3. left. reflexivity.
    + intros i Hi k2. rewrite Hl3. change (bk s3 i) with (bk s2 i). unfold s2.
      rewrite (bk_removeFromBucket s1 e i Hlen Hre Hi).
      change (bk s1 i) with (bk s i). change (bk s1 (Bucket e)) with (bk s (Bucket e)).
      change (Key e') with (Key e). rewrite Hek.
      assert (Hxs : forall x, In x (e' :: Remove k (evictList s)) /\ Key x = k2 /\ k2 <> k
                   <-> In x (evictList s) /\ Key x = k2 /\ k2 <> k).
      { intros x. simpl. rewrite (In_Remove_iff k _ _ Hnd). split.
        - intros [[<-|[Hx Hxk]] [Hk Hne]]; [exfalso; apply Hne; rewrite <- Hk; exact Hek|auto].
        - intros [Hx [Hk Hne]]. split; [right; split; [exact Hx|congruence]|auto]. }
      split.
      * intros Hin. destruct (Z.eqb_spec (Bucket e) i) as [<-|Hne].
        -- apply In_map_delete in Hin as [Hk2 Hin].
           apply (Hbk _ Hre) in Hin as [x [Hx [Hxk Hxb]]].
           exists x. split; [apply Hxs; auto|]. auto.
        -- apply (Hbk _ Hi) in Hin as [x [Hx [Hxk Hxb]]].
           assert (Hk2 : k2 <> k).
           { intros ->. apply Hne. rewrite <- Hxb. f_equal.
             symmetry. apply (In_node_unique (evictList s)); congruence. }
           exists x. split; [apply Hxs; auto|]. auto.
      * intros [x [Hxin [Hxk [Hk2 Hxb]]]].
        assert (Hxl : In x (evictList s)) by (apply (proj1 (Hxs x)); auto).
        destruct (Z.eqb_spec (Bucket e) i) as [<-|Hne].
        -- apply In_map_delete. split; [exact Hk2|].
           apply (Hbk _ Hre). eauto.
        -- apply (Hbk _ Hi). eauto.
  - set (s2 := addToBucket (mkEntry k v (now + ttl s) 0)
                 (with_list s (PushToFrontExpirable k v (now + ttl s) (evictList s)))).
    assert (Hnk : ~ In k (map Key (evictList s))) by (apply Lookup_None_notin, Hl).
    assert (H2 : BI s2).
    { apply addToBucket_BI; cbn [with_list evictList nextBucket buckets PushToFrontExpirable].
      - exact Hlen.
      - exact Hnb.
      - simpl. constructor; [exact Hnk | exact Hnd].
      - exact Hf.
      - intros x [<-|Hx]; [unfold in_range, numBuckets; simpl; lia | apply Hr, Hx].
      - left. reflexivity.
      - intros i Hi k2. rewrite bk_with_list, (Hbk i Hi k2). simpl. split.
        + intros [x [Hx [Hxk Hxb]]]. exists x. split; [right; exact Hx|].
          split; [exact Hxk|]. split; [|exact Hxb]. intros ->.
          apply Hnk, in_map_iff. eauto.
        + intros [x [[<-|Hx] [Hxk [Hk2 Hxb]]]]; [simpl in Hxk; congruence|eauto]. }
    destruct ((size s2 >? 0) && (Len (evictList s2) >? size s2)).
    + pose proof (removeOldest_BI s2 H2) as H3. destruct (removeOldest s2). exact H3.
    + exact H2.
Qed.

Lemma Get_BI (now : Z) (k : K) (s : LRU) : BI s -> BI (fst (Get now k s)).
Proof.
  intros Hb. unfold Get. destruct (Lookup k (evictList s)) as [e|] eqn:Hl; [|exact Hb].
  destruct (expired now e); [exact Hb|]. cbn [fst].
  pose proof Hb as [_ [_ [Hnd _]]].
  pose proof (Lookup_Some_key _ _ _ Hl) as Hek. pose proof (Lookup_Some_In _ _ _ Hl) as Hein.
  apply same_nodes_BI; [exact Hb| |]; rewrite (MoveToFront_Lookup _ _ _ Hl).
  - simpl. constructor; [rewrite Hek; apply notin_Remove, Hnd | apply NoDup_Remove, Hnd].
  - intros x. simpl. rewrite (In_Remove_iff k _ _ Hnd). split.
    + intros [<-|[Hx _]]; assumption.
    + intros Hx. destruct (key_eq_dec (Key x) k) as [Hxk|Hxk]; [|right; auto].
      left. apply (In_node_unique (evictList s)); congruence.
Qed.

Lemma bentries_nth_cleared (n : nat) (bs : list (bucket K)) :
  bentries (nth n (map (fun b : bucket K => mkBucket (@nil K) (newestEntry b)) bs) empty_bucket)
  = [].
Proof. revert n; induction bs as [|b bs IH]; intros [|n]; simpl; auto. Qed.

Lemma Purge_BI (ord : list (Entry K V)) (s : LRU) : BI s -> BI (fst (Purge ord s)).
Proof.
  intros [Hlen [Hnb _]].
  assert (Hc : forall i, bk (fst (Purge ord s)) i = []) by (intros i; apply bentries_nth_cleared).
  unfold BI. split; [cbn; rewrite length_map; exact Hlen|]. split; [exact Hnb|].
  split; [constructor|].
  split; [apply Forall_forall; intros b Hb; cbn in Hb; apply in_map_iff in Hb as [b0 [<- _]]; constructor|].
  split; [intros x []|]. intros i _ k. rewrite Hc. simpl. split; [tauto|]. intros [x [[] _]].
Qed.

Lemma RemoveKey_BI (k : K) (s : LRU) : BI s -> BI (fst (fst (RemoveKey k s))).
Proof.
  intros Hb. unfold RemoveKey. destruct (Lookup k (evictList s)) as [e|] eqn:Hl; [|exact Hb].
  pose proof (removeEntry_BI s e Hb (Lookup_Some_In _ _ _ Hl)) as H1.
  destruct (removeEntry e s). exact H1.
Qed.

Lemma RemoveOldest_BI (s : LRU) : BI s -> BI (fst (fst (RemoveOldest s))).
Proof.
  intros Hb. unfold RemoveOldest. destruct (Back (evictList s)) as [e|] eqn:Hl; [|exact Hb].
  pose proof (removeEntry_BI s e Hb (Back_In _ _ Hl)) as H1.
  destruct (removeEntry e s). exact H1.
Qed.

Lemma Resize_BI (n : Z) (s : LRU) : BI s -> BI (fst (fst (Resize n s))).
Proof.
  intros Hb. unfold Resize. destruct (n <=? 0); [exact Hb|].
  set (d := Z.to_nat _). pose proof (removeOldest_n_BI d s Hb) as H1.
  destruct (removeOldest_n d s). exact H1.
Qed.

Lemma exec_BI (op : Op) (s : LRU) : BI s -> BI (fst (exec op s)).
Proof.
  intros Hb. destruct op; cbn [exec]; try exact Hb.
  - pose proof (Add_BI now k v s Hb) as H1. destruct (Add now k v s) as [[? ?] ?]. exact H1.
  - exact (Get_BI now k s Hb).
  - pose proof (RemoveKey_BI k s Hb) as H1. destruct (RemoveKey k s) as [[? ?] ?]. exact H1.
  - pose proof (RemoveOldest_BI s Hb) as H1. destruct (RemoveOldest s) as [[? ?] ?]. exact H1.
  - exact (Purge_BI ord s Hb).
  - pose proof (Resize_BI n s Hb) as H1. destruct (Resize n s) as [[? ?] ?]. exact H1.
Qed.

Lemma deleteExpired_BI (ord : list K) (s : LRU) : BI s -> BI (fst (deleteExpired ord s)).
Proof.
  intros Hb. unfold deleteExpired. pose proof (remove_keys_BI ord s Hb) as H1.
  destruct (remove_keys ord s) as [s1 ev]. cbn [fst] in *.
  destruct H1 as [Hlen [_ [Hnd [Hf [Hr Hbk]]]]].
  split; [exact Hlen|]. split; [apply mod_in_range|]. auto.
Qed.

Lemma NewLRU_BI (sz : Z) (cb : bool) (t : Z) : BI (NewLRU (K := K) (V := V) sz cb t).
Proof.
  unfold BI, NewLRU. cbn [evictList nextBucket buckets].
  rewrite repeat_length. split; [reflexivity|]. split; [unfold in_range, numBuckets; lia|].
  split; [constructor|]. split; [apply Forall_forall; intros b Hb; apply repeat_spec in Hb; subst b; constructor|].
  split; [intros x []|]. intros i _ k. unfold bk, get_bucket. cbn [buckets].
  rewrite nth_repeat. simpl. split; [tauto|]. intros [x [[] _]].
Qed.

Lemma reachable_BI (s : LRU) : reachable s -> BI s.
Proof.
  induction 1.
  - apply NewLRU_BI.
  - apply exec_BI; assumption.
  - apply deleteExpired_BI; assumption.
Qed.

End ExpInv.
End ExpInv.

(** * The background sweep of the expirable cache *)
Module ExpSweep.
Import ExpirableLRU ExpInv.
Section ExpSweep.
Context {K V : Type} `{Comparable K}.

Local Notation LRU := (LRU K V).

(** [k] is one of [ks]. *)
Definition mem_key (k : K) (ks : list K) : bool :=
  existsb (fun k' => if key_eq_dec k' k then true else false) ks.

Lemma mem_key_In (k : K) (ks : list K) : mem_key k ks = true <-> In k ks.
Proof.
  unfold mem_key. rewrite existsb_exists. split.
  - intros [x [Hx Hk]]. destruct (key_eq_dec x k); [subst; exact Hx|discriminate].
  - intros Hk. exists k. split; [exact Hk|]. destruct (key_eq_dec k k); congruence.
Qed.

Lemma filter_filter_and {A : Type} (f g : A -> bool) (l : list A) :
  filter f (filter g l) = filter (fun x => g x && f x) l.
Proof.
  induction l as [|x l IH]; simpl; [reflexivity|].
  destruct (g x); simpl; [destruct (f x); simpl; rewrite IH|rewrite IH]; reflexivity.
Qed.

Lemma filter_id_all {A : Type} (f : A -> bool) (l : list A) :
  (forall x, In x l -> f x = true) -> filter f l = l.
Proof.
  induction l as [|x l IH]; simpl; intros Hf; [reflexivity|].
  rewrite (Hf x (or_introl eq_refl)), IH; auto.
Qed.

Lemma Remove_filter (k : K) (l : list (Entry K V)) :
  NoDup (map Key l) -> Remove k l = filter (fun e => negb (same_key k e)) l.
Proof.
  induction l as [|e l IH]; simpl; [reflexivity|]. intros Hnd. inversion Hnd; subst.
  case_eq (same_key k e); intros Hs; simpl; [|rewrite IH by assumption; reflexivity].
  apply same_key_true in Hs. subst k. symmetry. apply filter_id_all.
  intros x Hx. destruct (same_key (Key e) x) eqn:E; [|reflexivity].
  apply same_key_true in E. exfalso. apply H2. rewrite <- E. apply in_map, Hx.
Qed.

(** The removal loop of the sweep, over keys of bucket [j] visited once each. *)
Lemma remove_keys_spec (j : Z) (ord : list K) (s : LRU) :
  BI s -> in_range j -> NoDup ord -> (forall k, In k ord -> In k (bk s j)) ->
  let '(s', calls) := remove_keys ord s in
  BI s' /\
  evictList s' = filter (fun e => negb (mem_key (Key e) ord)) (evictList s) /\
  (forall i, in_range i ->
     bk s' i = if Z.eqb j i then filter (fun k => negb (mem_key k ord)) (bk s j) else bk s i) /\
  nextBucket s' = nextBucket s /\ size s' = size s /\ ttl s' = ttl s /\
  onEvict s' = onEvict s /\
  exists nodes, map Key nodes = ord /\
    (forall x, In x nodes -> In x (evictList s) /\ Bucket x = j) /\
    calls = if onEvict s then map kv nodes else [].
Proof.
  revert s; induction ord as [|k ord IH]; intros s Hb Hj Hnd Hin.
  - simpl. split; [exact Hb|]. split; [symmetry; apply filter_id_all; reflexivity|].
    split.
    { intros i _. destruct (Z.eqb_spec j i) as [<-|_]; [|reflexivity].
      symmetry. apply filter_id_all. reflexivity. }
    do 4 (split; [reflexivity|]). exists []. simpl. split; [reflexivity|].
    split; [tauto|]. destruct (onEvict s); reflexivity.
  - inversion Hnd as [|? ? Hko Hnd']; subst.
    pose proof Hb as [Hlen [Hnb [Hndl [Hf [Hr Hbk]]]]].
    destruct (proj1 (Hbk j Hj k) (Hin k (or_introl eq_refl))) as [e [He [Hek Heb]]].
    assert (Hl : Lookup k (evictList s) = Some e).
    { rewrite <- Hek. apply Lookup_In_unique; assumption. }
    simpl. rewrite Hl.
    set (s1 := fst (removeEntry e s)).
    assert (Hre : in_range (Bucket e)) by (rewrite Heb; exact Hj).
    assert (Hb1 : BI s1) by (apply removeEntry_BI; assumption).
    assert (Hl1 : evictList s1 = Remove k (evictList s)).
    { unfold s1, removeEntry. cbn [fst]. rewrite (proj1 (removeFromBucket_fields _ e)).
      rewrite Hek. reflexivity. }
    assert (Hbk1 : forall i, in_range i ->
              bk s1 i = if Z.eqb j i then map_delete k (bk s j) else bk s i).
    { intros i Hi. unfold s1, removeEntry. cbn [fst].
      rewrite (bk_removeFromBucket (with_list s (Remove (Key e) (evictList s))) e i Hlen Hre Hi).
      rewrite Heb, Hek. reflexivity. }
    assert (Hin1 : forall k', In k' ord -> In k' (bk s1 j)).
    { intros k' Hk'. rewrite (Hbk1 j Hj), Z.eqb_refl. apply In_map_delete.
      split; [intros ->; contradiction|]. apply Hin. right. exact Hk'. }
    specialize (IH s1 Hb1 Hj Hnd' Hin1).
    replace (removeEntry e s) with (s1, if onEvict s then [kv e] else []) by reflexivity.
    destruct (remove_keys ord s1) as [s2 ev2].
    destruct IH as [Hb2 [Hl2 [Hbk2 [Hn2 [Hs2 [Ht2 [Ho2 [nodes [Hnk [Hnodes Hcalls]]]]]]]]]].
    assert (Hs1f : nextBucket s1 = nextBucket s /\ size s1 = size s /\ ttl s1 = ttl s /\
                   onEvict s1 = onEvict s) by (repeat split).
    destruct Hs1f as [Hn1 [Hsz1 [Ht1 Ho1]]].
    split; [exact Hb2|]. split.
    { rewrite Hl2, Hl1, (Remove_filter k _ Hndl), filter_filter_and.
      apply filter_ext. intros x. simpl. unfold same_key.
      destruct (key_eq_dec (Key x) k), (key_eq_dec k (Key x)); try congruence; reflexivity. }
    split.
    { intros i Hi. rewrite (Hbk2 i Hi), (Hbk1 j Hj), Z.eqb_refl.
      destruct (Z.eqb_spec j i) as [<-|Hne].
      - unfold map_delete. rewrite filter_filter_and. apply filter_ext. intros x. simpl.
        destruct (key_eq_dec x k), (key_eq_dec k x); try congruence; reflexivity.
      - rewrite (Hbk1 i Hi). apply Z.eqb_neq in Hne. rewrite Hne. reflexivity. }
    split; [congruence|]. split; [congruence|]. split; [congruence|]. split; [congruence|].
    exists (e :: nodes). simpl. split; [rewrite Hnk, Hek; reflexivity|]. split.
    + intros x [<-|Hx]; [auto|]. destruct (Hnodes x Hx) as [Hx1 Hx2]. split; [|exact Hx2].
      rewrite Hl1 in Hx1. apply (In_Remove _ _ _ Hx1).
    + rewrite Hcalls, Ho1. destruct (onEvict s); reflexivity.
Qed.

Lemma filter_none {A : Type} (f : A -> bool) (l : list A) :
  (forall x, In x l -> f x = false) -> filter f l = [].
Proof.
  induction l as [|x l IH]; simpl; intros Hf; [reflexivity|].
  rewrite (Hf x (or_introl eq_refl)). apply IH; auto.
Qed.

Lemma Back_cons_nonempty (x : Entry K V) (l : list (Entry K V)) :
  l <> [] -> Back (x :: l) = Back l.
Proof. destruct l; [congruence|reflexivity]. Qed.

Lemma exec_OAdd (now : Z) (k : K) (v : V) (s : LRU) :
  fst (exec (OAdd now k v) s) = fst (fst (Add now k v s)).
Proof. cbn [exec]. destruct (Add now k v s) as [[? ?] ?]. reflexivity. Qed.

Lemma removeEntry_list (e : Entry K V) (s : LRU) :
  evictList (fst (removeEntry e s)) = Remove (Key e) (evictList s) /\
  nextBucket (fst (removeEntry e s)) = nextBucket s.
Proof.
  unfold removeEntry. cbn [fst]. split.
  - rewrite (proj1 (removeFromBucket_fields _ e)). reflexivity.
  - rewrite (proj1 (proj2 (removeFromBucket_fields _ e))). reflexivity.
Qed.

(** The node [Add] writes: at the front, registered in bucket [nextBucket]. *)
Lemma Add_head (now : Z) (k : K) (v : V) (s : LRU) :
  let s' := fst (fst (Add now k v s)) in
  nextBucket s' = nextBucket s /\
  exists rest, evictList s' = mkEntry k v (now + ttl s) (nextBucket s mod numBuckets) :: rest.
Proof.
  unfold Add. destruct (Lookup k (evictList s)) as [e|] eqn:Hl.
  - pose proof (Lookup_Some_key _ _ _ Hl) as Hek. cbn [fst].
    set (s1 := with_list s (MoveToFront e (evictList s))).
    set (e' := mkEntry (Key e) v (now + ttl s) (Bucket e)).
    set (s3 := with_list (removeFromBucket e s1)
                 (Update k (fun _ => e') (evictList (removeFromBucket e s1)))).
    pose proof (addToBucket_fields s3 e') as [El [En _]].
    split; [exact En|]. rewrite El.
    change (nextBucket s3) with (nextBucket s).
    change (evictList s3) with (Update k (fun _ => e') (evictList (removeFromBucket e s1))).
    rewrite (proj1 (removeFromBucket_fields s1 e)).
    change (evictList s1) with (MoveToFront e (evictList s)).
    rewrite (MoveToFront_Lookup _ _ _ Hl). simpl.
    rewrite (proj2 (same_key_true k e) Hek). simpl.
    rewrite (proj2 (same_key_true (Key e) e') eq_refl).
    exists (Remove k (evictList s)). unfold set_bucket. subst e'. cbn [Key Value ExpiresAt].
    rewrite Hek. reflexivity.
  - set (new := mkEntry k v (now + ttl s) 0).
    set (s2 := addToBucket new (with_list s (PushToFrontExpirable k v (now + ttl s) (evictList s)))).
    assert (El : evictList s2 = set_bucket (nextBucket s mod numBuckets) new :: evictList s).
    { unfold s2. rewrite (proj1 (addToBucket_fields _ new)). cbn [with_list evictList nextBucket].
      unfold PushToFrontExpirable. fold new. cbn [Update].
      rewrite (proj2 (same_key_true (Key new) new) eq_refl). reflexivity. }
    assert (En : nextBucket s2 = nextBucket s) by reflexivity.
    destruct ((size s2 >? 0) && (Len (evictList s2) >? size s2)) eqn:Hev.
    + apply andb_true_iff in Hev as [Hp Hlen]. apply Z.gtb_lt in Hp, Hlen.
      rewrite El in Hlen.
      assert (Hne : evictList s <> []).
      { intros E. rewrite E in Hlen. unfold Len in Hlen. change (size s2) with (size s) in *.
        simpl in Hlen. lia. }
      unfold removeOldest. rewrite El, (Back_cons_nonempty _ _ Hne).
      destruct (Back (evictList s)) as [b|] eqn:Hb.
      * pose proof (removeEntry_list b s2) as [Rl Rn].
        destruct (removeEntry b s2) as [s3 ev] eqn:E3. cbn [fst] in *.
        split; [congruence|]. rewrite Rl, El. simpl.
        assert (Hbk : same_key (Key b) (set_bucket (nextBucket s mod numBuckets) new) = false).
        { apply same_key_false. cbn. intros ->.
          apply (Lookup_None_notin _ _ Hl), in_map, Back_In, Hb. }
        rewrite Hbk. eexists. reflexivity.
      * apply Back_None in Hb. contradiction.
    + cbn [fst]. split; [exact En|]. rewrite El. eexists. reflexivity.
Qed.

Lemma Lookup_head (k : K) (e : Entry K V) (rest : list (Entry K V)) :
  Key e = k -> Lookup k (e :: rest) = Some e.
Proof. intros Hk. simpl. rewrite (proj2 (same_key_true k e) Hk). reflexivity. Qed.

(** ** Properties *)

(** What [deleteExpired] does on a reachable state. *)
Lemma deleteExpired_spec (ord : list K) (s : LRU) :
  reachable s -> Permutation ord (bk s (nextBucket s)) ->
  let '(s', calls) := deleteExpired ord s in
  evictList s' = filter (fun e => negb (Z.eqb (Bucket e) (nextBucket s))) (evictList s) /\
  bk s' (nextBucket s) = [] /\
  (forall i, 0 <= i < numBuckets -> i <> nextBucket s -> bk s' i = bk s i) /\
  nextBucket s' = (nextBucket s + 1) mod numBuckets /\
  size s' = size s /\ ttl s' = ttl s /\
  exists nodes, map Key nodes = ord /\
    (forall x, In x nodes -> In x (evictList s) /\ Bucket x = nextBucket s) /\
    calls = if onEvict s then map kv nodes else [].
Proof.
  intros Hreach Hp. pose proof (reachable_BI s Hreach) as Hb.
  pose proof Hb as [Hlen [Hj [Hndl [Hf [Hr Hbk]]]]].
  set (j := nextBucket s) in *.
  assert (Hnd : NoDup ord).
  { apply (Permutation_NoDup (Permutation_sym Hp)), get_bucket_nodup, Hf. }
  assert (Hin : forall k, In k ord -> In k (bk s j)) by (intros k; apply Permutation_in, Hp).
  pose proof (remove_keys_spec j ord s Hb Hj Hnd Hin) as Hspec.
  unfold deleteExpired. destruct (remove_keys ord s) as [s1 calls].
  destruct Hspec as [_ [Hl1 [Hbk1 [Hn1 [Hs1 [Ht1 [_ Hnodes]]]]]]].
  split.
  { cbn [evictList]. rewrite Hl1. apply filter_ext_in. intros x Hx. f_equal.
    destruct (mem_key (Key x) ord) eqn:Em; destruct (Z.eqb_spec (Bucket x) j) as [Eb|Eb];
      try reflexivity; exfalso.
    - apply mem_key_In, Hin, (Hbk j Hj) in Em as [y [Hy [Hyk Hyb]]].
      apply Eb. rewrite <- Hyb. f_equal. symmetry. apply (In_node_unique (evictList s)); auto.
    - apply (proj2 (not_true_iff_false _)) in Em. apply Em, mem_key_In.
      apply (Permutation_in _ (Permutation_sym Hp)), (Hbk j Hj). eauto. }
  split.
  { change (bk s1 j = []). rewrite (Hbk1 j Hj), Z.eqb_refl. apply filter_none.
    intros x Hx. apply negb_false_iff, mem_key_In.
    apply (Permutation_in _ (Permutation_sym Hp)), Hx. }
  split.
  { intros i Hi Hne. change (bk s1 i = bk s i). rewrite (Hbk1 i Hi).
    destruct (Z.eqb_spec j i); [congruence|reflexivity]. }
  split; [cbn [nextBucket]; rewrite Hn1; reflexivity|].
  split; [exact Hs1|]. split; [exact Ht1|]. exact Hnodes.
Qed.

(** Reading back the node [Add] writes. *)
Lemma Add_lookup_spec (now t : Z) (k : K) (v : V) (s : LRU) :
  t <= now + ttl s ->
  let s' := fst (fst (Add now k v s)) in
  Peek t k s' = Some v /\ Contains k s' = true /\ snd (Get t k s') = Some v.
Proof.
  intros Ht. cbv zeta. destruct (Add_head now k v s) as [_ [rest Hrest]].
  unfold Peek, Contains, Get. rewrite Hrest, Lookup_head by reflexivity.
  unfold expired. cbn [ExpiresAt Value].
  destruct (Z.ltb_spec (now + ttl s) t); [lia|]. auto.
Qed.

(** The sweep removes every node the bucket at [nextBucket] indexes, whether
    it has expired or not, and nothing else; it empties that bucket, leaves
    the other buckets alone, advances the cursor and reports each removed
    node once, in the order it visited the bucket. *)
Theorem sweep_removes_exactly_current_bucket (ord : list K) (s : LRU) :
  reachable s -> Permutation ord (bk s (nextBucket s)) ->
  let '(s', calls) := deleteExpired ord s in
  evictList s' = filter (fun e => negb (Z.eqb (Bucket e) (nextBucket s))) (evictList s) /\
  bk s' (nextBucket s) = [] /\
  (forall i, 0 <= i < numBuckets -> i <> nextBucket s -> bk s' i = bk s i) /\
  nextBucket s' = (nextBucket s + 1) mod numBuckets /\
  size s' = size s /\ ttl s' = ttl s /\
  exists nodes, map Key nodes = ord /\
    (forall x, In x nodes -> In x (evictList s) /\ Bucket x = nextBucket s) /\
    calls = if onEvict s then map kv nodes else [].
Proof. exact (deleteExpired_spec ord s). Qed.

(** A value just written with [Add] is read back by [Get], [Peek] and
    [Contains] until its time to live has passed, also when the [Add]
    evicted the oldest entry. *)
Theorem exp_add_then_lookup (now t : Z) (k : K) (v : V) (s : LRU) :
  t <= now + ttl s ->
  let s' := fst (fst (Add now k v s)) in
  Peek t k s' = Some v /\ Contains k s' = true /\ snd (Get t k s') = Some v.
Proof. exact (Add_lookup_spec now t k v s). Qed.

(** [Add] removes nothing but the previous node of its key unless the cache
    is over its capacity: expired entries stay in the list. *)
Theorem exp_add_keeps_other_entries (now : Z) (k : K) (v : V) (s : LRU) :
  Lookup k (evictList s) <> None \/ size s <= 0 \/ LenL s < size s ->
  let '(s', evicted, calls) := Add now k v s in
  evicted = false /\ calls = [] /\
  evictList s' = mkEntry k v (now + ttl s) (nextBucket s mod numBuckets)
                 :: Remove k (evictList s).
Proof.
  intros Hpre. unfold Add. destruct (Lookup k (evictList s)) as [e|] eqn:Hl.
  - split; [reflexivity|]. split; [reflexivity|].
    pose proof (Add_head now k v s) as [_ [rest Hrest]]. unfold Add in Hrest. rewrite Hl in Hrest.
    cbn [fst] in Hrest. rewrite Hrest. f_equal.
    pose proof (Lookup_Some_key _ _ _ Hl) as Hek.
    set (e' := mkEntry (Key e) v (now + ttl s) (Bucket e)) in Hrest.
    rewrite (proj1 (addToBucket_fields _ e')) in Hrest.
    cbn [with_list evictList] in Hrest.
    rewrite (proj1 (removeFromBucket_fields _ e)) in Hrest.
    cbn [with_list evictList] in Hrest. rewrite (MoveToFront_Lookup _ _ _ Hl) in Hrest.
    simpl in Hrest. rewrite (proj2 (same_key_true k e) Hek) in Hrest. simpl in Hrest.
    rewrite (proj2 (same_key_true (Key e) e') eq_refl) in Hrest.
    injection Hrest as _ Hr. symmetry. exact Hr.
  - destruct Hpre as [Hpre|Hpre]; [congruence|].
    set (new := mkEntry k v (now + ttl s) 0).
    set (s2 := addToBucket new (with_list s (PushToFrontExpirable k v (now + ttl s) (evictList s)))).
    assert (El : evictList s2 = set_bucket (nextBucket s mod numBuckets) new :: evictList s).
    { unfold s2. rewrite (proj1 (addToBucket_fields _ new)). cbn [with_list evictList nextBucket].
      unfold PushToFrontExpirable. fold new. cbn [Update].
      rewrite (proj2 (same_key_true (Key new) new) eq_refl). reflexivity. }
    assert (Hev : ((size s2 >? 0) && (Len (evictList s2) >? size s2)) = false).
    { change (size s2) with (size s). rewrite El. unfold LenL, Len in *. simpl length.
      destruct Hpre as [Hp|Hp].
      - destruct (Z.gtb_spec (size s) 0); [lia|reflexivity].
      - rewrite Nat2Z.inj_succ. destruct (Z.gtb_spec (Z.succ (Z.of_nat (length (evictList s)))) (size s));
          [lia|]. apply andb_false_r. }
    rewrite Hev. split; [reflexivity|]. split; [reflexivity|]. rewrite El.
    rewrite Remove_notin; [reflexivity|]. apply Lookup_None_notin, Hl.
Qed.

(** [Add] registers the written node in the bucket the next sweep empties,
    so that sweep removes the node though its time to live has not passed. *)
Theorem sweep_after_add_drops_live_entry (now t : Z) (ord : list K) (k : K) (v : V) (s : LRU) :
  reachable s -> t <= now + ttl s ->
  let s1 := fst (fst (Add now k v s)) in
  Permutation ord (bk s1 (nextBucket s1)) ->
  Peek t k s1 = Some v /\ Contains k (fst (deleteExpired ord s1)) = false.
Proof.
  intros Hreach Ht s1 Hp. split; [apply (Add_lookup_spec now t k v s Ht)|].
  assert (Hr1 : reachable s1) by (unfold s1; rewrite <- exec_OAdd; constructor; exact Hreach).
  pose proof (reachable_BI s Hreach) as [_ [Hnb _]].
  pose proof (reachable_BI s1 Hr1) as [_ [_ [Hnd1 _]]].
  destruct (Add_head now k v s) as [En [rest Hrest]]. fold s1 in En, Hrest.
  rewrite Z.mod_small in Hrest by exact Hnb.
  pose proof (deleteExpired_spec ord s1 Hr1 Hp) as Hsw.
  destruct (deleteExpired ord s1) as [s2 calls]. destruct Hsw as [Hl2 _]. cbn [fst].
  unfold Contains. rewrite (Lookup_None k (evictList s2)); [reflexivity|].
  rewrite Hl2, Hrest. intros Hin. apply in_map_iff in Hin as [x [Hxk Hx]].
  apply filter_In in Hx as [Hx Hxb]. rewrite Hrest in Hnd1.
  assert (Hxe : x = mkEntry k v (now + ttl s) (nextBucket s)).
  { apply (In_node_unique _ _ _ Hnd1 Hx (or_introl eq_refl)). exact Hxk. }
  subst x. cbn [Bucket] in Hxb. rewrite En, Z.eqb_refl in Hxb. discriminate.
Qed.

(** In every reachable state the buckets index exactly the live nodes: each
    node names an existing bucket that holds its key, and a bucket holds no
    key but those of its own nodes; keys are unique in the list. *)
Theorem reachable_buckets_index_live_nodes (s : LRU) :
  reachable s ->
  length (buckets s) = Z.to_nat numBuckets /\ 0 <= nextBucket s < numBuckets /\
  NoDup (map Key (evictList s)) /\
  (forall e, In e (evictList s) ->
     0 <= Bucket e < numBuckets /\ In (Key e) (bk s (Bucket e))) /\
  (forall i k, 0 <= i < numBuckets -> In k (bk s i) ->
     exists e, In e (evictList s) /\ Key e = k /\ Bucket e = i).
Proof.
  intros Hr. destruct (reachable_BI s Hr) as [Hlen [Hnb [Hnd [_ [Hrange Hbk]]]]].
  split; [exact Hlen|]. split; [exact Hnb|]. split; [exact Hnd|]. split.
  - intros e He. split; [apply Hrange, He|]. apply (Hbk _ (Hrange e He)). eauto.
  - intros i k Hi Hk. apply (Hbk i Hi), Hk.
Qed.

(** [Remove(key)] unlinks the node of [key], keeps the others in order and
    drops the key from every bucket. *)
Theorem exp_remove_key_clears_bucket (k : K) (s : LRU) :
  reachable s ->
  let '(s', ok, _) := RemoveKey k s in
  ok = Contains k s /\ Contains k s' = false /\
  evictList s' = Remove k (evictList s) /\
  (forall i, 0 <= i < numBuckets -> ~ In k (bk s' i)).
Proof.
  intros Hr. pose proof (reachable_BI s Hr) as Hb. pose proof Hb as [_ [_ [Hnd _]]].
  pose proof (RemoveKey_BI k s Hb) as Hb'.
  assert (Hl' : evictList (fst (fst (RemoveKey k s))) = Remove k (evictList s)).
  { unfold RemoveKey. destruct (Lookup k (evictList s)) as [e|] eqn:Hl.
    - pose proof (removeEntry_list e s) as [Rl _].
      destruct (removeEntry e s) as [s' ev]. cbn [fst] in *. rewrite Rl.
      rewrite (Lookup_Some_key _ _ _ Hl). reflexivity.
    - cbn [fst]. symmetry. apply Remove_notin, Lookup_None_notin, Hl. }
  assert (Hc : Contains k (fst (fst (RemoveKey k s))) = false).
  { unfold Contains. rewrite Hl', Lookup_None; [reflexivity|]. apply notin_Remove, Hnd. }
  assert (Hok : snd (fst (RemoveKey k s)) = Contains k s).
  { unfold RemoveKey, Contains. destruct (Lookup k (evictList s)); [|reflexivity].
    destruct (removeEntry e s). reflexivity. }
  destruct (RemoveKey k s) as [[s' ok] calls]. cbn [fst snd] in *.
  destruct Hb' as [_ [_ [_ [_ [_ Hbk]]]]].
  split; [exact Hok|]. split; [exact Hc|]. split; [exact Hl'|].
  intros i Hi Hk. apply (Hbk i Hi) in Hk as [e [He [Hek _]]].
  assert (Hin : In k (map Key (evictList s'))) by (rewrite <- Hek; apply in_map, He).
  apply Lookup_Some_iff in Hin as [e' He']. unfold Contains in Hc. rewrite He' in Hc.
  discriminate.
Qed.

End ExpSweep.
End ExpSweep.

Module ExpSweepWitnesses.
Import ExpirableLRU ExpInv ExpSweep.

Definition ew_s0 : LRU nat nat := NewLRU 2 true 1000.
Definition ew_s1 : LRU nat nat := fst (exec (OAdd 0 1%nat 10%nat) ew_s0).
Definition ew_s2 : LRU nat nat := fst (exec (OAdd 1 2%nat 20%nat) ew_s1).

Lemma ew_s0_reachable : reachable ew_s0.
Proof. apply reachable_new. Qed.

Lemma ew_s2_reachable : reachable ew_s2.
Proof. unfold ew_s2, ew_s1. apply reachable_step, reachable_step, ew_s0_reachable. Qed.

Lemma reachable_buckets_index_live_nodes_witness :
  reachable ew_s2 /\
  length (buckets ew_s2) = Z.to_nat numBuckets /\ 0 <= nextBucket ew_s2 < numBuckets /\
  NoDup (map Key (evictList ew_s2)) /\
  (forall e, In e (evictList ew_s2) ->
     0 <= Bucket e < numBuckets /\ In (Key e) (bk ew_s2 (Bucket e))) /\
  (forall i k, 0 <= i < numBuckets -> In k (bk ew_s2 i) ->
     exists e, In e (evictList ew_s2) /\ Key e = k /\ Bucket e = i).
Proof.
  split; [exact ew_s2_reachable|].
  exact (reachable_buckets_index_live_nodes ew_s2 ew_s2_reachable).
Defined.

Lemma sweep_removes_exactly_current_bucket_witness :
  reachable ew_s2 /\ Permutation [2%nat; 1%nat] (bk ew_s2 (nextBucket ew_s2)) /\
  let '(s', calls) := deleteExpired [2%nat; 1%nat] ew_s2 in
  evictList s' = filter (fun e => negb (Z.eqb (Bucket e) (nextBucket ew_s2))) (evictList ew_s2) /\
  bk s' (nextBucket ew_s2) = [] /\
  (forall i, 0 <= i < numBuckets -> i <> nextBucket ew_s2 -> bk s' i = bk ew_s2 i) /\
  nextBucket s' = (nextBucket ew_s2 + 1) mod numBuckets /\
  size s' = size ew_s2 /\ ttl s' = ttl ew_s2 /\
  exists nodes, map Key nodes = [2%nat; 1%nat] /\
    (forall x, In x nodes -> In x (evictList ew_s2) /\ Bucket x = nextBucket ew_s2) /\
    calls = if onEvict ew_s2 then map kv nodes else [].
Proof.
  assert (Hp : Permutation [2%nat; 1%nat] (bk ew_s2 (nextBucket ew_s2))).
  { vm_compute. apply Permutation_refl. }
  split; [exact ew_s2_reachable|]. split; [exact Hp|].
  exact (sweep_removes_exactly_current_bucket [2%nat; 1%nat] ew_s2 ew_s2_reachable Hp).
Defined.

Lemma exp_add_then_lookup_witness :
  5 <= 2 + ttl ew_s2 /\
  Peek 5 3%nat (fst (fst (Add 2 3%nat 30%nat ew_s2))) = Some 30%nat /\
  Contains 3%nat (fst (fst (Add 2 3%nat 30%nat ew_s2))) = true /\
  snd (Get 5 3%nat (fst (fst (Add 2 3%nat 30%nat ew_s2)))) = Some 30%nat.
Proof.
  assert (Ht : 5 <= 2 + ttl ew_s2) by (vm_compute; discriminate).
  split; [exact Ht|]. exact (exp_add_then_lookup 2 5 3%nat 30%nat ew_s2 Ht).
Defined.

Lemma exp_add_keeps_other_entries_witness :
  (Lookup 1%nat (evictList ew_s2) <> None \/ size ew_s2 <= 0 \/ LenL ew_s2 < size ew_s2) /\
  let '(s', evicted, calls) := Add 7 1%nat 11%nat ew_s2 in
  evicted = false /\ calls = [] /\
  evictList s' = mkEntry 1%nat 11%nat (7 + ttl ew_s2) (nextBucket ew_s2 mod numBuckets)
                 :: Remove 1%nat (evictList ew_s2).
Proof.
  assert (Hpre : Lookup 1%nat (evictList ew_s2) <> None \/ size ew_s2 <= 0 \/
                 LenL ew_s2 < size ew_s2) by (left; vm_compute; discriminate).
  split; [exact Hpre|]. exact (exp_add_keeps_other_entries 7 1%nat 11%nat ew_s2 Hpre).
Defined.

Lemma sweep_after_add_drops_live_entry_witness :
  reachable ew_s0 /\ 5 <= 0 + ttl ew_s0 /\
  Permutation [1%nat] (bk (fst (fst (Add 0 1%nat 10%nat ew_s0)))
                         (nextBucket (fst (fst (Add 0 1%nat 10%nat ew_s0))))) /\
  Peek 5 1%nat (fst (fst (Add 0 1%nat 10%nat ew_s0))) = Some 10%nat /\
  Contains 1%nat (fst (deleteExpired [1%nat] (fst (fst (Add 0 1%nat 10%nat ew_s0))))) = false.
Proof.
  assert (Ht : 5 <= 0 + ttl ew_s0) by (vm_compute; discriminate).
  assert (Hp : Permutation [1%nat] (bk (fst (fst (Add 0 1%nat 10%nat ew_s0)))
                         (nextBucket (fst (fst (Add 0 1%nat 10%nat ew_s0)))))).
  { vm_compute. apply Permutation_refl. }
  split; [exact ew_s0_reachable|]. split; [exact Ht|]. split; [exact Hp|].
  exact (sweep_after_add_drops_live_entry 0 5 [1%nat] 1%nat 10%nat ew_s0 ew_s0_reachable Ht Hp).
Defined.

Lemma exp_remove_key_clears_bucket_witness :
  reachable ew_s2 /\
  let '(s', ok, _) := RemoveKey 1%nat ew_s2 in
  ok = Contains 1%nat ew_s2 /\ Contains 1%nat s' = false /\
  evictList s' = Remove 1%nat (evictList ew_s2) /\
  (forall i, 0 <= i < numBuckets -> ~ In 1%nat (bk s' i)).
Proof.
  split; [exact ew_s2_reachable|].
  exact (exp_remove_key_clears_bucket 1%nat ew_s2 ew_s2_reachable).
Defined.

End ExpSweepWitnesses.

(** * More proofs: [expirable_lru] reads and [Resize] *)
Module ExpMore.
Import ExpirableLRU ExpInv ExpSweep.
Section ExpMore.
Context {K V : Type} `{Comparable K}.

Local Notation LRU := (LRU K V).

Lemma removeOldest_fields (s : LRU) :
  size (fst (removeOldest s)) = size s /\ onEvict (fst (removeOldest s)) = onEvict s /\
  ttl (fst (removeOldest s)) = ttl s.
Proof. unfold removeOldest. destruct (Back (evictList s)); repeat split. Qed.

Lemma exp_removeOldest_n_exact (m : nat) (s : LRU) :
  NoDup (map Key (evictList s)) -> (m <= length (evictList s))%nat ->
  let l := evictList s in
  evictList (fst (removeOldest_n m s)) = firstn (length l - m) l /\
  snd (removeOldest_n m s) = (if onEvict s then rev (map kv (skipn (length l - m) l)) else []) /\
  size (fst (removeOldest_n m s)) = size s.
Proof.
  revert s; induction m as [|m IH]; intros s Hnd Hm l.
  - simpl. rewrite Nat.sub_0_r, firstn_all, skipn_all. split; [reflexivity|].
    split; [destruct (onEvict s); reflexivity|reflexivity].
  - subst l. remember (evictList s) as l eqn:El.
    destruct l as [|b l0] using rev_ind; [simpl in Hm; lia|]. clear IHl0.
    rename l0 into l.
    destruct (NoDup_map_Key_last l b Hnd) as [Hb Hnd'].
    rewrite length_app in Hm |- *. simpl in Hm |- *.
    pose proof (removeOldest_fields s) as [Fs [Fo _]].
    assert (Hl1 : evictList (fst (removeOldest s)) = l /\
                  snd (removeOldest s) = if onEvict s then [kv b] else []).
    { unfold removeOldest. rewrite <- El, Back_app_last.
      rewrite (proj1 (removeEntry_list b s)), <- El, (Remove_app_last _ _ _ Hb eq_refl).
      split; reflexivity. }
    destruct (removeOldest s) as [s1 ev1]. cbn [fst snd] in *. destruct Hl1 as [Hl1 Hev1].
    assert (Hnd1 : NoDup (map Key (evictList s1))) by (rewrite Hl1; exact Hnd').
    assert (Hm1 : (m <= length (evictList s1))%nat) by (rewrite Hl1; lia).
    destruct (IH s1 Hnd1 Hm1) as [IH1 [IH2 IH3]].
    destruct (removeOldest_n m s1) as [s2 ev2]. cbn [fst snd] in *.
    rewrite Hl1 in IH1, IH2.
    replace (length l + 1 - S m)%nat with (length l - m)%nat by lia.
    rewrite firstn_app, skipn_app.
    replace (length l - m - length l)%nat with O by lia. simpl.
    rewrite app_nil_r, map_app, rev_app_distr, IH1. split; [reflexivity|].
    split; [|congruence]. rewrite Hev1, IH2, Fo. destruct (onEvict s); reflexivity.
Qed.

(** [Resize(N)] with [N > 0] keeps the [N] most recently used entries,
    expired or not, evicts the others oldest first with one callback each,
    sets the capacity to [N] and returns the number evicted. *)
Theorem exp_resize_positive_exact (N : Z) (s : LRU) :
  0 < N -> reachable s ->
  let l := evictList s in
  let '(s', n, calls) := Resize N s in
  evictList s' = firstn (Z.to_nat N) l /\ size s' = N /\
  n = Z.of_nat (length l - Z.to_nat N) /\
  calls = (if onEvict s then rev (map kv (skipn (Z.to_nat N) l)) else []).
Proof.
  intros HN Hr l. pose proof (reachable_BI s Hr) as [_ [_ [Hnd _]]].
  unfold Resize. destruct (Z.leb_spec N 0) as [|_]; [lia|].
  set (m := (length l - Z.to_nat N)%nat).
  assert (Hd : (if LenL s - N <? 0 then 0 else LenL s - N) = Z.of_nat m).
  { unfold LenL, Len, m. fold l. destruct (Z.ltb_spec (Z.of_nat (length l) - N) 0); lia. }
  rewrite Hd, Nat2Z.id.
  assert (Hm : (m <= length (evictList s))%nat) by (unfold m; fold l; lia).
  destruct (exp_removeOldest_n_exact m s Hnd Hm) as [E1 [E2 _]]. fold l in E1, E2.
  destruct (removeOldest_n m s) as [s1 ev]. cbn [fst snd] in *.
  assert (Hk : (length l - m = Nat.min (length l) (Z.to_nat N))%nat) by (unfold m; lia).
  rewrite Hk in E1, E2.
  assert (Ef : firstn (Nat.min (length l) (Z.to_nat N)) l = firstn (Z.to_nat N) l).
  { destruct (Nat.le_ge_cases (length l) (Z.to_nat N)).
    - rewrite Nat.min_l by assumption. rewrite firstn_all, firstn_all2 by assumption. reflexivity.
    - rewrite Nat.min_r by assumption. reflexivity. }
  assert (Es : skipn (Nat.min (length l) (Z.to_nat N)) l = skipn (Z.to_nat N) l).
  { destruct (Nat.le_ge_cases (length l) (Z.to_nat N)).
    - rewrite Nat.min_l by assumption. rewrite skipn_all, skipn_all2 by assumption. reflexivity.
    - rewrite Nat.min_r by assumption. reflexivity. }
  rewrite Ef in E1. rewrite Es in E2.
  split; [exact E1|]. split; [reflexivity|]. split; [reflexivity|exact E2].
Qed.

(** The calls other than [Resize], and the background sweep, interleaved in
    any order: the states they reach from [s0]. *)
Definition is_resize (op : Op (K := K) (V := V)) : bool :=
  match op with OResize _ => true | _ => false end.

Inductive no_resize_steps (s0 : LRU) : LRU -> Prop :=
| nrs_here : no_resize_steps s0 s0
| nrs_op (op : Op) (s : LRU) :
    is_resize op = false -> no_resize_steps s0 s -> no_resize_steps s0 (fst (exec op s))
| nrs_sweep (ord : list K) (s : LRU) :
    no_resize_steps s0 s -> ttl s <> noEvictionTTL ->
    no_resize_steps s0 (fst (deleteExpired ord s)).

Lemma removeOldest_n_size (m : nat) (s : LRU) :
  size (fst (removeOldest_n m s)) = size s.
Proof.
  revert s; induction m as [|m IH]; intros s; [reflexivity|]. simpl.
  pose proof (proj1 (removeOldest_fields s)) as Hs.
  destruct (removeOldest s) as [s1 ev1]. specialize (IH s1).
  destruct (removeOldest_n m s1) as [s2 ev2]. simpl in *. congruence.
Qed.

Lemma remove_keys_size (ord : list K) (s : LRU) :
  size (fst (remove_keys ord s)) = size s.
Proof.
  revert s; induction ord as [|k ord IH]; intros s; [reflexivity|]. simpl.
  assert (Hs : size (fst (match Lookup k (evictList s) with
                          | Some e => removeEntry e s | None => (s, []) end)) = size s)
    by (destruct (Lookup k (evictList s)); reflexivity).
  destruct (match Lookup k (evictList s) with
            | Some e => removeEntry e s | None => (s, []) end) as [s1 ev1].
  specialize (IH s1). destruct (remove_keys ord s1) as [s2 ev2]. simpl in *. congruence.
Qed.

Lemma Add_size (now : Z) (k : K) (v : V) (s : LRU) :
  size (fst (fst (Add now k v s))) = size s.
Proof.
  unfold Add. destruct (Lookup k (evictList s)); [reflexivity|].
  match goal with |- context [if ?b then _ else _] => destruct b end; [|reflexivity].
  match goal with |- context [removeOldest ?x] =>
    pose proof (proj1 (removeOldest_fields x)) as Hs; destruct (removeOldest x) end.
  simpl in *. exact Hs.
Qed.

Lemma exec_no_resize_size (op : Op) (s : LRU) :
  is_resize op = false -> size (fst (exec op s)) = size s.
Proof.
  intros Hr. destruct op; simpl in Hr |- *; try reflexivity; try discriminate.
  - pose proof (Add_size now k v s) as Ha. destruct (Add now k v s) as [[? ?] ?]. exact Ha.
  - unfold Get. destruct (Lookup k (evictList s)); [|reflexivity].
    destruct (expired now e); reflexivity.
  - unfold RemoveKey. destruct (Lookup k (evictList s)); reflexivity.
  - unfold RemoveOldest. destruct (Back (evictList s)); reflexivity.
Qed.

Lemma no_resize_steps_size (s0 s : LRU) :
  no_resize_steps s0 s -> size s = size s0.
Proof.
  induction 1 as [|op s Hr _ IH|ord s _ IH _].
  - reflexivity.
  - rewrite exec_no_resize_size by exact Hr. exact IH.
  - unfold deleteExpired. pose proof (remove_keys_size ord s) as Hs.
    destruct (remove_keys ord s). simpl in *. congruence.
Qed.

Lemma Add_size_zero (now : Z) (k : K) (v : V) (s : LRU) :
  size s = 0 -> snd (fst (Add now k v s)) = false /\ snd (Add now k v s) = [].
Proof.
  intros Hs. unfold Add. destruct (Lookup k (evictList s)); [split; reflexivity|].
  cbn [size with_size addToBucket put_bucket with_buckets with_list]. rewrite Hs.
  split; reflexivity.
Qed.

(** [Resize(N)] with [N <= 0] evicts nothing, returns 0 and sets the size to
    0, which makes the cache unbounded: whatever calls other than [Resize]
    and sweeps follow, in any order, the size stays 0 and no [Add] evicts. *)
Theorem exp_resize_nonpositive_unbounds (N : Z) (s : LRU) :
  N <= 0 ->
  let '(s', n, calls) := Resize N s in
  n = 0 /\ calls = [] /\ evictList s' = evictList s /\ size s' = 0 /\
  forall t, no_resize_steps s' t ->
    size t = 0 /\
    forall now k v, snd (fst (Add now k v t)) = false /\ snd (Add now k v t) = [].
Proof.
  intros HN. unfold Resize. destruct (Z.leb_spec N 0) as [_|]; [|lia].
  split; [reflexivity|]. split; [reflexivity|]. split; [reflexivity|].
  split; [reflexivity|].
  intros t Ht. pose proof (no_resize_steps_size _ _ Ht) as Hs. cbn [size with_size] in Hs.
  split; [exact Hs|]. intros now k v. exact (Add_size_zero now k v t Hs).
Qed.

Lemma map_kv_combine (l : list (Entry K V)) :
  combine (map Key l) (map Value l) = map kv l.
Proof. induction l as [|e l IH]; simpl; [reflexivity|]. rewrite IH. reflexivity. Qed.

Lemma NoDup_map_Key_filter (f : Entry K V -> bool) (l : list (Entry K V)) :
  NoDup (map Key l) -> NoDup (map Key (filter f l)).
Proof.
  induction l as [|e l IH]; simpl; [auto|]. intros Hnd. inversion Hnd; subst.
  destruct (f e); simpl; [|auto]. constructor; [|auto].
  intros Hin. apply H2. apply in_map_iff in Hin as [x [Hx Hxin]].
  apply filter_In in Hxin as [Hxin _]. rewrite <- Hx. apply in_map, Hxin.
Qed.

(** [Keys()] and [Values()] list the unexpired entries, pairwise aligned and
    without a repeated key: the pairs they list are exactly those [Peek]
    finds at the same time. *)
Theorem exp_keys_values_match_peek (now : Z) (s : LRU) :
  reachable s ->
  NoDup (Keys now s) /\ length (Values now s) = length (Keys now s) /\
  forall k v, In (k, v) (combine (Keys now s) (Values now s)) <-> Peek now k s = Some v.
Proof.
  intros Hr. pose proof (reachable_BI s Hr) as [_ [_ [Hnd _]]].
  assert (Hndr : NoDup (map Key (rev (evictList s)))) by (rewrite map_rev; apply NoDup_rev, Hnd).
  unfold Keys, Values, oldest_to_newest.
  split; [apply NoDup_map_Key_filter, Hndr|]. split; [rewrite !length_map; reflexivity|].
  intros k v. rewrite map_kv_combine, in_map_iff. unfold Peek. split.
  - intros [e [He Hin]]. apply filter_In in Hin as [Hin Hx]. rewrite <- in_rev in Hin.
    unfold kv in He. injection He as <- <-.
    rewrite (Lookup_In_unique _ _ Hnd Hin). apply negb_true_iff in Hx. rewrite Hx. reflexivity.
  - destruct (Lookup k (evictList s)) as [e|] eqn:Hl; [|discriminate].
    destruct (expired now e) eqn:Hx; [discriminate|]. intros Hv. injection Hv as <-.
    exists e. split; [unfold kv; rewrite (Lookup_Some_key _ _ _ Hl); reflexivity|].
    apply filter_In. split; [apply -> in_rev; apply (Lookup_Some_In _ _ _ Hl)|].
    rewrite Hx. reflexivity.
Qed.

End ExpMore.
End ExpMore.

Module ExpMoreWitnesses.
Import ExpirableLRU ExpMore ExpSweepWitnesses.

Lemma exp_resize_positive_exact_witness :
  0 < 1 /\ reachable ew_s2 /\
  let '(s', n, calls) := Resize 1 ew_s2 in
  evictList s' = firstn (Z.to_nat 1) (evictList ew_s2) /\ size s' = 1 /\
  n = Z.of_nat (length (evictList ew_s2) - Z.to_nat 1) /\
  calls = (if onEvict ew_s2 then rev (map kv (skipn (Z.to_nat 1) (evictList ew_s2))) else []).
Proof.
  assert (HN : 0 < 1) by lia.
  split; [exact HN|]. split; [exact ew_s2_reachable|].
  exact (exp_resize_positive_exact 1 ew_s2 HN ew_s2_reachable).
Defined.

Lemma triple_proj {A B C : Type} (p : A * B * C) (P : A -> B -> C -> Prop) :
  (let '(x, y, z) := p in P x y z) -> P (fst (fst p)) (snd (fst p)) (snd p).
Proof. destruct p as [[x y] z]. auto. Qed.

(** After [Resize(-3)] on the full cache of capacity 2, two new keys are
    added: the second [Add] evicts nothing and the list grows to 4. *)
Lemma exp_resize_nonpositive_unbounds_witness :
  -3 <= 0 /\
  (let '(s', n, calls) := Resize (-3) ew_s2 in
   n = 0 /\ calls = [] /\ evictList s' = evictList ew_s2 /\ size s' = 0 /\
   forall t, no_resize_steps s' t ->
     size t = 0 /\
     forall now k v, snd (fst (Add now k v t)) = false /\ snd (Add now k v t) = []) /\
  (let t := fst (exec (OAdd 2 3%nat 30%nat) (fst (fst (Resize (-3) ew_s2)))) in
   snd (fst (Add 3 4%nat 40%nat t)) = false /\ snd (Add 3 4%nat 40%nat t) = [] /\
   length (evictList (fst (fst (Add 3 4%nat 40%nat t)))) = 4%nat).
Proof.
  assert (HN : -3 <= 0) by lia.
  pose proof (exp_resize_nonpositive_unbounds (-3) ew_s2 HN) as T.
  split; [exact HN|]. split; [exact T|].
  pose proof (triple_proj (Resize (-3) ew_s2)
    (fun s' n calls =>
       n = 0 /\ calls = [] /\ evictList s' = evictList ew_s2 /\ size s' = 0 /\
       forall t, no_resize_steps s' t ->
         size t = 0 /\
         forall now k v, snd (fst (Add now k v t)) = false /\ snd (Add now k v t) = []) T)
    as T'.
  cbv beta in T'. destruct T' as (_ & _ & _ & _ & T').
  assert (Ht : no_resize_steps (fst (fst (Resize (-3) ew_s2)))
                 (fst (exec (OAdd 2 3%nat 30%nat) (fst (fst (Resize (-3) ew_s2))))))
    by (apply nrs_op; [reflexivity|apply nrs_here]).
  destruct (T' _ Ht) as [_ T2]. cbv zeta.
  split; [apply T2|]. split; [apply T2|]. vm_compute. reflexivity.
Defined.

Lemma exp_keys_values_match_peek_witness :
  reachable ew_s2 /\
  NoDup (Keys 5 ew_s2) /\ length (Values 5 ew_s2) = length (Keys 5 ew_s2) /\
  forall k v, In (k, v) (combine (Keys 5 ew_s2) (Values 5 ew_s2)) <-> Peek 5 k ew_s2 = Some v.
Proof.
  split; [exact ew_s2_reachable|]. exact (exp_keys_values_match_peek 5 ew_s2 ew_s2_reachable).
Defined.

End ExpMoreWitnesses.


(** * The pointer structure of [internal.LRUList]

    The ring itself: elements are allocated in a heap at addresses; a pointer
    is [&l.root] or an element's address, and [nil] is [None].  Dereferencing
    [nil] (a panic) makes an operation return [None].  The modules above view
    the ring as the list of its elements; this part relates the two. *)
Module PtrList.
Import Internal.

Inductive Ptr := PRoot | PAt (a : nat).

Definition ptr_eqb (p q : Ptr) : bool :=
  match p, q with
  | PRoot, PRoot => true
  | PAt a, PAt b => Nat.eqb a b
  | _, _ => false
  end.

Definition optr_eqb (p q : option Ptr) : bool :=
  match p, q with
  | None, None => true
  | Some p, Some q => ptr_eqb p q
  | _, _ => false
  end.

Local Notation "'let*' x ':=' a 'in' b" :=
  (match a with Some x => b | None => None end)
  (at level 200, x name, a at level 100, b at level 200).

Section PtrList.
Context {K V : Type}.

(** [Entry]: [next], [prev], [list] ([true] when [e.list == l], [false] when
    it is nil), [Key], [Value], [ExpiresAt], [Bucket]. *)
Record Node := mkNode {
  nnext : option Ptr;
  nprev : option Ptr;
  nlist : bool;
  nkey : K;
  nval : V;
  nexp : Z;
  nbucket : Z
}.

(** [LRUList]: the sentinel [root] and [len]; the elements live in [heap],
    [fresh] being the first address never allocated. *)
Record Mem := mkMem {
  root : Node;
  len : Z;
  heap : nat -> option Node;
  fresh : nat
}.

Definition upd (h : nat -> option Node) (a : nat) (n : Node) : nat -> option Node :=
  fun b => if Nat.eqb b a then Some n else h b.

Definition node_of (m : Mem) (p : Ptr) : option Node :=
  match p with PRoot => Some (root m) | PAt a => heap m a end.

Definition put_node (m : Mem) (p : Ptr) (n : Node) : Mem :=
  match p with
  | PRoot => mkMem n (len m) (heap m) (fresh m)
  | PAt a => mkMem (root m) (len m) (upd (heap m) a n) (fresh m)
  end.

Definition with_next (n : Node) (v : option Ptr) : Node :=
  mkNode v (nprev n) (nlist n) (nkey n) (nval n) (nexp n) (nbucket n).
Definition with_prev (n : Node) (v : option Ptr) : Node :=
  mkNode (nnext n) v (nlist n) (nkey n) (nval n) (nexp n) (nbucket n).
Definition with_inlist (n : Node) (b : bool) : Node :=
  mkNode (nnext n) (nprev n) b (nkey n) (nval n) (nexp n) (nbucket n).
Definition with_len (m : Mem) (z : Z) : Mem := mkMem (root m) z (heap m) (fresh m).

(** Reading [p.next] and [p.prev]. *)
Definition next_of (m : Mem) (p : Ptr) : option (option Ptr) :=
  let* n := node_of m p in Some (nnext n).
Definition prev_of (m : Mem) (p : Ptr) : option (option Ptr) :=
  let* n := node_of m p in Some (nprev n).

(** The writes [p.next = v], [p.prev = v], [p.list = l or nil]. *)
Definition set_next (m : Mem) (p : Ptr) (v : option Ptr) : option Mem :=
  let* n := node_of m p in Some (put_node m p (with_next n v)).
Definition set_prev (m : Mem) (p : Ptr) (v : option Ptr) : option Mem :=
  let* n := node_of m p in Some (put_node m p (with_prev n v)).
Definition set_inlist (m : Mem) (p : Ptr) (b : bool) : option Mem :=
  let* n := node_of m p in Some (put_node m p (with_inlist n b)).

Definition entry_of (n : Node) : Entry K V := mkEntry (nkey n) (nval n) (nexp n) (nbucket n).

(** [l.Init()] *)
Definition Init (m : Mem) : Mem :=
  mkMem (with_prev (with_next (root m) (Some PRoot)) (Some PRoot)) 0 (heap m) (fresh m).

(** [l.lazyInit()] *)
Definition lazyInit (m : Mem) : Mem :=
  match nnext (root m) with None => Init m | Some _ => m end.

(** [l.Len()] *)
Definition Len (m : Mem) : Z := len m.

(** [l.Back()] *)
Definition Back (m : Mem) : option Ptr :=
  if Z.eqb (len m) 0 then None else nprev (root m).

(** [l.insert(e, at)] *)
Definition insert (e at' : Ptr) (m : Mem) : option (Mem * Ptr) :=
  let* m1 := set_prev m e (Some at') in
  let* atn := next_of m1 at' in
  let* m2 := set_next m1 e atn in
  let* ep := prev_of m2 e in let* p := ep in
  let* m3 := set_next m2 p (Some e) in
  let* en := next_of m3 e in let* n := en in
  let* m4 := set_prev m3 n (Some e) in
  let* m5 := set_inlist m4 e true in
  Some (with_len m5 (len m5 + 1), e).

(** [l.insertValue(k, v, expiresAt, at)]: a new element at the first unused
    address, its other fields zero. *)
Definition insertValue (k : K) (v : V) (expiresAt : Z) (at' : Ptr) (m : Mem)
  : option (Mem * Ptr) :=
  let a := fresh m in
  let m0 := mkMem (root m) (len m) (upd (heap m) a (mkNode None None false k v expiresAt 0))
                  (S a) in
  insert (PAt a) at' m0.

(** [l.Remove(e)] *)
Definition Remove (e : Ptr) (m : Mem) : option (Mem * V) :=
  let* ep := prev_of m e in let* p := ep in
  let* en := next_of m e in
  let* m1 := set_next m p en in
  let* en1 := next_of m1 e in let* n := en1 in
  let* ep1 := prev_of m1 e in
  let* m2 := set_prev m1 n ep1 in
  let* m3 := set_next m2 e None in
  let* m4 := set_prev m3 e None in
  let* m5 := set_inlist m4 e false in
  let* ne := node_of m5 e in
  Some (with_len m5 (len m5 - 1), nval ne).

(** [l.move(e, at)] *)
Definition move (e at' : Ptr) (m : Mem) : option Mem :=
  if ptr_eqb e at' then Some m else
  let* ep := prev_of m e in let* p := ep in
  let* en := next_of m e in
  let* m1 := set_next m p en in
  let* en1 := next_of m1 e in let* n := en1 in
  let* ep1 := prev_of m1 e in
  let* m2 := set_prev m1 n ep1 in
  let* m3 := set_prev m2 e (Some at') in
  let* atn := next_of m3 at' in
  let* m4 := set_next m3 e atn in
  let* ep2 := prev_of m4 e in let* p2 := ep2 in
  let* m5 := set_next m4 p2 (Some e) in
  let* en2 := next_of m5 e in let* n2 := en2 in
  set_prev m5 n2 (Some e).

(** [l.PushToFront(k, v)] and [l.PushToFrontExpirable(k, v, expiresAt)] *)
Definition PushToFront (k : K) (v : V) (m : Mem) : option (Mem * Ptr) :=
  insertValue k v 0 PRoot (lazyInit m).
Definition PushToFrontExpirable (k : K) (v : V) (expiresAt : Z) (m : Mem)
  : option (Mem * Ptr) :=
  insertValue k v expiresAt PRoot (lazyInit m).

(** [l.MoveToFront(e)] *)
Definition MoveToFront (e : Ptr) (m : Mem) : option Mem :=
  let* ne := node_of m e in
  if negb (nlist ne) || optr_eqb (nnext (root m)) (Some e) then Some m
  else move e PRoot m.

(** [e.PrevEntry()] *)
Definition PrevEntry (e : Ptr) (m : Mem) : option (option Ptr) :=
  let* ne := node_of m e in
  Some (if nlist ne && negb (optr_eqb (nprev ne) (Some PRoot)) then nprev ne else None).

(** The loop [for entry := l.Back(); entry != nil; entry = entry.PrevEntry()]
    of [Keys] and [Values], collecting the elements it visits; [fuel] bounds
    the number of iterations. *)
Fixpoint back_walk (fuel : nat) (p : option Ptr) (m : Mem) : option (list (Entry K V)) :=
  match p with
  | None => Some []
  | Some q =>
      match fuel with
      | O => None
      | S f =>
          let* ne := node_of m q in
          let* pe := PrevEntry q m in
          let* rest := back_walk f pe m in
          Some (entry_of ne :: rest)
      end
  end.

(** ** The ring as a list *)

(** Consecutive pointers of [xs] are linked both ways. *)
Fixpoint adj (m : Mem) (xs : list Ptr) : Prop :=
  match xs with
  | x :: ((y :: _) as t) =>
      next_of m x = Some (Some y) /\ prev_of m y = Some (Some x) /\ adj m t
  | _ => True
  end.

Definition ring (ad : list nat) : list Ptr := PRoot :: map PAt ad ++ [PRoot].

Definition info (m : Mem) (a : nat) : option (bool * Entry K V) :=
  option_map (fun n => (nlist n, entry_of n)) (heap m a).

(** The ring of [m] runs through the addresses [ad] holding the elements [l]. *)
Definition repr (m : Mem) (ad : list nat) (l : list (Entry K V)) : Prop :=
  adj m (ring ad) /\ NoDup ad /\ len m = Z.of_nat (length ad) /\
  Forall2 (fun a e => info m a = Some (true, e)) ad l /\
  (forall a, In a ad -> (a < fresh m)%nat) /\
  (forall a, (fresh m <= a)%nat -> heap m a = None).

End PtrList.

(** ** Pointer and heap facts *)

Section Halves.
Context {K V : Type}.

(** The two halves of [move]: unlinking [e] from its neighbours, and linking
    it after [at]. *)
Definition unlink (e : Ptr) (m : @Mem K V) : option Mem :=
  let* ep := prev_of m e in let* p := ep in
  let* en := next_of m e in
  let* m1 := set_next m p en in
  let* en1 := next_of m1 e in let* n := en1 in
  let* ep1 := prev_of m1 e in
  set_prev m1 n ep1.

Definition link (e at' : Ptr) (m : @Mem K V) : option Mem :=
  let* m1 := set_prev m e (Some at') in
  let* atn := next_of m1 at' in
  let* m2 := set_next m1 e atn in
  let* ep := prev_of m2 e in let* p := ep in
  let* m3 := set_next m2 p (Some e) in
  let* en := next_of m3 e in let* n := en in
  set_prev m3 n (Some e).

End Halves.

Lemma ptr_eqb_true_iff (p q : Ptr) : ptr_eqb p q = true <-> p = q.
Proof.
  destruct p, q; simpl; split; intro H; try discriminate; try reflexivity.
  - apply Nat.eqb_eq in H; now subst.
  - inversion H; apply Nat.eqb_refl.
Qed.

Lemma ptr_eqb_refl (p : Ptr) : ptr_eqb p p = true.
Proof. now apply ptr_eqb_true_iff. Qed.

Lemma ptr_eqb_neq (p q : Ptr) : p <> q -> ptr_eqb p q = false.
Proof. intro H. apply not_true_iff_false. now rewrite ptr_eqb_true_iff. Qed.

Section Heap.
Context {K V : Type}.
Local Notation Mem := (@Mem K V).

Lemma node_of_put (m : Mem) p n q :
  node_of (put_node m p n) q = if ptr_eqb q p then Some n else node_of m q.
Proof.
  destruct p as [|a], q as [|b]; reflexivity.
Qed.

Lemma len_put (m : Mem) p n : len (put_node m p n) = len m.
Proof. now destruct p. Qed.

Lemma fresh_put (m : Mem) p n : fresh (put_node m p n) = fresh m.
Proof. now destruct p. Qed.

Lemma info_node (m : Mem) a :
  info m a = option_map (fun n => (nlist n, entry_of n)) (node_of m (PAt a)).
Proof. reflexivity. Qed.

(** What a write [p.F = x] leaves unchanged. *)
Definition same_cells (m m' : Mem) : Prop :=
  (forall q, node_of m' q = None <-> node_of m q = None) /\
  len m' = len m /\ fresh m' = fresh m.

Lemma same_cells_refl (m : Mem) : same_cells m m.
Proof. repeat split; auto. Qed.

Lemma same_cells_trans (m1 m2 m3 : Mem) :
  same_cells m1 m2 -> same_cells m2 m3 -> same_cells m1 m3.
Proof.
  intros [A [B C]] [D [E F]]. repeat split.
  - intro H1. apply A, D, H1.
  - intro H1. apply D, A, H1.
  - congruence.
  - congruence.
Qed.

Lemma put_same_cells (m : Mem) p n n0 :
  node_of m p = Some n0 -> same_cells m (put_node m p n).
Proof.
  intro Hp. repeat split.
  - rewrite node_of_put. destruct (ptr_eqb q p) eqn:E; [|auto].
    apply ptr_eqb_true_iff in E; subst. rewrite Hp. discriminate.
  - rewrite node_of_put. destruct (ptr_eqb q p) eqn:E; [|auto].
    apply ptr_eqb_true_iff in E; subst. congruence.
  - apply len_put.
  - apply fresh_put.
Qed.

Lemma next_of_Some (m : Mem) q :
  node_of m q <> None -> exists x, next_of m q = Some x.
Proof. unfold next_of. destruct (node_of m q); [eauto|congruence]. Qed.

Lemma prev_of_Some (m : Mem) q :
  node_of m q <> None -> exists x, prev_of m q = Some x.
Proof. unfold prev_of. destruct (node_of m q); [eauto|congruence]. Qed.

Lemma next_of_node (m : Mem) q x : next_of m q = Some x -> node_of m q <> None.
Proof. unfold next_of. destruct (node_of m q); congruence. Qed.

Lemma prev_of_node (m : Mem) q x : prev_of m q = Some x -> node_of m q <> None.
Proof. unfold prev_of. destruct (node_of m q); congruence. Qed.

Lemma set_next_spec (m : Mem) p v :
  node_of m p <> None ->
  exists m', set_next m p v = Some m' /\ same_cells m m' /\
    next_of m' p = Some v /\
    (forall q, q <> p -> next_of m' q = next_of m q) /\
    (forall q, prev_of m' q = prev_of m q) /\
    (forall a, info m' a = info m a).
Proof.
  intro Hp. destruct (node_of m p) as [n|] eqn:En; [|congruence].
  exists (put_node m p (with_next n v)). unfold set_next. rewrite En.
  split; [reflexivity|]. split; [eapply put_same_cells; eauto|].
  unfold next_of, prev_of.
  repeat split.
  - now rewrite node_of_put, ptr_eqb_refl.
  - intros q Hq. now rewrite node_of_put, ptr_eqb_neq.
  - intro q. rewrite node_of_put. destruct (ptr_eqb q p) eqn:E; [|auto].
    apply ptr_eqb_true_iff in E; subst. now rewrite En.
  - intro a. rewrite info_node, node_of_put.
    destruct (ptr_eqb (PAt a) p) eqn:E; [|auto].
    apply ptr_eqb_true_iff in E; subst. now rewrite info_node, En.
Qed.

Lemma set_prev_spec (m : Mem) p v :
  node_of m p <> None ->
  exists m', set_prev m p v = Some m' /\ same_cells m m' /\
    prev_of m' p = Some v /\
    (forall q, q <> p -> prev_of m' q = prev_of m q) /\
    (forall q, next_of m' q = next_of m q) /\
    (forall a, info m' a = info m a).
Proof.
  intro Hp. destruct (node_of m p) as [n|] eqn:En; [|congruence].
  exists (put_node m p (with_prev n v)). unfold set_prev. rewrite En.
  split; [reflexivity|]. split; [eapply put_same_cells; eauto|].
  unfold next_of, prev_of.
  repeat split.
  - now rewrite node_of_put, ptr_eqb_refl.
  - intros q Hq. now rewrite node_of_put, ptr_eqb_neq.
  - intro q. rewrite node_of_put. destruct (ptr_eqb q p) eqn:E; [|auto].
    apply ptr_eqb_true_iff in E; subst. now rewrite En.
  - intro a. rewrite info_node, node_of_put.
    destruct (ptr_eqb (PAt a) p) eqn:E; [|auto].
    apply ptr_eqb_true_iff in E; subst. now rewrite info_node, En.
Qed.

Lemma set_inlist_spec (m : Mem) a b :
  node_of m (PAt a) <> None ->
  exists m', set_inlist m (PAt a) b = Some m' /\ same_cells m m' /\
    (forall q, next_of m' q = next_of m q) /\
    (forall q, prev_of m' q = prev_of m q) /\
    info m' a = option_map (fun '(_, e) => (b, e)) (info m a) /\
    (forall c, c <> a -> info m' c = info m c).
Proof.
  intro Hp. destruct (node_of m (PAt a)) as [n|] eqn:En; [|congruence].
  exists (put_node m (PAt a) (with_inlist n b)). unfold set_inlist. rewrite En.
  split; [reflexivity|]. split; [eapply put_same_cells; eauto|].
  unfold next_of, prev_of.
  repeat split.
  - intro q. rewrite node_of_put. destruct (ptr_eqb q (PAt a)) eqn:E; [|auto].
    apply ptr_eqb_true_iff in E; subst. now rewrite En.
  - intro q. rewrite node_of_put. destruct (ptr_eqb q (PAt a)) eqn:E; [|auto].
    apply ptr_eqb_true_iff in E; subst. now rewrite En.
  - now rewrite info_node, node_of_put, ptr_eqb_refl, info_node, En.
  - intros c Hc. rewrite info_node, node_of_put, ptr_eqb_neq; [reflexivity|congruence].
Qed.

End Heap.

Section Halves2.
Context {K V : Type}.
Local Notation Mem := (@Mem K V).

Lemma same_cells_node (m m' : Mem) q :
  same_cells m m' -> node_of m q <> None -> node_of m' q <> None.
Proof. intros [A _] H1 H2. apply H1, A, H2. Qed.

Lemma unlink_spec (m : Mem) e p n :
  prev_of m e = Some (Some p) -> next_of m e = Some (Some n) -> p <> e ->
  node_of m p <> None -> node_of m n <> None ->
  exists m2, unlink e m = Some m2 /\ same_cells m m2 /\
    next_of m2 p = Some (Some n) /\
    (forall q, q <> p -> next_of m2 q = next_of m q) /\
    prev_of m2 n = Some (Some p) /\
    (forall q, q <> n -> prev_of m2 q = prev_of m q) /\
    (forall a, info m2 a = info m a).
Proof.
  intros Hpe Hne Hpe' Hp Hn. unfold unlink. rewrite Hpe, Hne. cbv beta iota.
  destruct (set_next_spec m p (Some n) Hp) as [m1 [E1 [S1 [N1 [N1' [P1 I1]]]]]].
  rewrite E1. cbv beta iota.
  rewrite (N1' e) by congruence. rewrite Hne. cbv beta iota.
  rewrite P1, Hpe. cbv beta iota.
  destruct (set_prev_spec m1 n (Some p) (same_cells_node _ _ _ S1 Hn))
    as [m2 [E2 [S2 [P2 [P2' [N2 I2]]]]]].
  exists m2. split; [exact E2|]. split; [eapply same_cells_trans; eauto|].
  repeat split.
  - now rewrite N2.
  - intros q Hq. now rewrite N2, N1'.
  - exact P2.
  - intros q Hq. now rewrite P2', P1.
  - intro a. now rewrite I2, I1.
Qed.

Lemma link_spec (m : Mem) e at' x :
  node_of m e <> None -> next_of m at' = Some (Some x) -> node_of m x <> None ->
  e <> at' -> e <> x ->
  exists m4, link e at' m = Some m4 /\ same_cells m m4 /\
    next_of m4 e = Some (Some x) /\ next_of m4 at' = Some (Some e) /\
    (forall q, q <> e -> q <> at' -> next_of m4 q = next_of m q) /\
    prev_of m4 e = Some (Some at') /\ prev_of m4 x = Some (Some e) /\
    (forall q, q <> e -> q <> x -> prev_of m4 q = prev_of m q) /\
    (forall a, info m4 a = info m a).
Proof.
  intros He Hat Hx Hea Hex. unfold link.
  destruct (set_prev_spec m e (Some at') He) as [m1 [E1 [S1 [P1 [P1' [N1 I1]]]]]].
  rewrite E1. cbv beta iota. rewrite N1, Hat. cbv beta iota.
  destruct (set_next_spec m1 e (Some x) (same_cells_node _ _ _ S1 He))
    as [m2 [E2 [S2 [N2 [N2' [P2 I2]]]]]].
  rewrite E2. cbv beta iota. rewrite P2, P1. cbv beta iota.
  assert (Hat' : node_of m2 at' <> None).
  { apply (same_cells_node m1); [exact S2|]. apply (same_cells_node m); [exact S1|].
    eapply next_of_node; eauto. }
  destruct (set_next_spec m2 at' (Some e) Hat') as [m3 [E3 [S3 [N3 [N3' [P3 I3]]]]]].
  rewrite E3. cbv beta iota. rewrite N3' by congruence. rewrite N2. cbv beta iota.
  assert (Hx3 : node_of m3 x <> None).
  { apply (same_cells_node m2); [exact S3|]. apply (same_cells_node m1); [exact S2|].
    apply (same_cells_node m); [exact S1|exact Hx]. }
  destruct (set_prev_spec m3 x (Some e) Hx3) as [m4 [E4 [S4 [P4 [P4' [N4 I4]]]]]].
  exists m4. split; [exact E4|].
  split; [eapply same_cells_trans; [exact S1|]; eapply same_cells_trans;
          [exact S2|]; eapply same_cells_trans; eauto|].
  repeat split.
  - rewrite N4, N3' by congruence. exact N2.
  - now rewrite N4.
  - intros q Hq1 Hq2. now rewrite N4, N3', N2', N1.
  - rewrite P4' by congruence. now rewrite P3, P2.
  - exact P4.
  - intros q Hq1 Hq2. now rewrite P4', P3, P2, P1'.
  - intro a. now rewrite I4, I3, I2, I1.
Qed.

Ltac dmatch :=
  match goal with |- context [match ?x with _ => _ end] => destruct x end.

Lemma insert_halves (e at' : Ptr) (m : Mem) :
  insert e at' m =
  match link e at' m with
  | Some m4 =>
      match set_inlist m4 e true with
      | Some m5 => Some (with_len m5 (len m5 + 1), e)
      | None => None
      end
  | None => None
  end.
Proof. unfold insert, link. repeat (dmatch; try reflexivity). Qed.

Lemma move_halves (e at' : Ptr) (m : Mem) :
  move e at' m =
  if ptr_eqb e at' then Some m else
  match unlink e m with Some m2 => link e at' m2 | None => None end.
Proof.
  unfold move, unlink, link. destruct (ptr_eqb e at'); [reflexivity|].
  repeat (dmatch; try reflexivity).
Qed.

Lemma Remove_halves (e : Ptr) (m : Mem) :
  Remove e m =
  match unlink e m with
  | Some m2 =>
      let* m3 := set_next m2 e None in
      let* m4 := set_prev m3 e None in
      let* m5 := set_inlist m4 e false in
      let* ne := node_of m5 e in
      Some (with_len m5 (len m5 - 1), nval ne)
  | None => None
  end.
Proof. unfold Remove, unlink. repeat (dmatch; try reflexivity). Qed.

End Halves2.

Section Ring.
Context {K V : Type}.
Local Notation Mem := (@Mem K V).
Local Notation adj := (@adj K V).
Local Notation repr := (@repr K V).

Lemma adj_app (m : Mem) xs y ys :
  adj m (xs ++ y :: ys) <-> adj m (xs ++ [y]) /\ adj m (y :: ys).
Proof.
  induction xs as [|x xs IH]; [simpl; tauto|].
  destruct xs as [|x' xs]; simpl in *; [tauto|]. rewrite IH. tauto.
Qed.

Lemma adj_frame (m m' : Mem) xs :
  adj m xs ->
  (forall x, In x (removelast xs) -> next_of m' x = next_of m x) ->
  (forall y, In y (tl xs) -> prev_of m' y = prev_of m y) ->
  adj m' xs.
Proof.
  induction xs as [|x xs IH]; [simpl; auto|].
  destruct xs as [|y xs]; [simpl; auto|].
  intros [N [P A]] HN HP. simpl. split; [|split].
  - rewrite HN; [exact N|now left].
  - rewrite HP; [exact P|now left].
  - apply IH; [exact A| |].
    + intros z Hz. apply HN. change (In z (x :: removelast (y :: xs))). now right.
    + intros z Hz. apply HP. now right.
Qed.

Lemma Forall2_In_l {A B} (R : A -> B -> Prop) xs ys x :
  Forall2 R xs ys -> In x xs -> exists y, R x y /\ In y ys.
Proof.
  induction 1 as [|a b xs ys Hab _ IH]; [contradiction|].
  intros [->|Hx]; [exists b; split; [exact Hab|now left]|].
  destruct (IH Hx) as [y [Hy Hin]]. exists y. split; [exact Hy|now right].
Qed.

Lemma repr_node (m : Mem) ad l b :
  repr m ad l -> In b ad -> node_of m (PAt b) <> None.
Proof.
  intros (_ & _ & _ & F & _) Hb. destruct (Forall2_In_l _ _ _ _ F Hb) as [e [He _]].
  unfold info in He. simpl. destruct (heap m b); [discriminate|discriminate He].
Qed.

Lemma Forall2_info_frame (m m' : Mem) ad l :
  Forall2 (fun a e => info m a = Some (true, e)) ad l ->
  (forall b, In b ad -> info m' b = info m b) ->
  Forall2 (fun a e => info m' a = Some (true, e)) ad l.
Proof.
  induction 1 as [|a e ad l Ha _ IH]; intro Hf; constructor.
  - rewrite Hf; [exact Ha|now left].
  - apply IH. intros b Hb. apply Hf. now right.
Qed.

Lemma In_map_PAt (b : nat) ad : In (PAt b) (map PAt ad) <-> In b ad.
Proof.
  rewrite in_map_iff. split; [intros [c [Hc Hin]]; now inversion Hc; subst|].
  intro Hb. now exists b.
Qed.

Lemma PRoot_notin_map ad : ~ In PRoot (map PAt ad).
Proof. rewrite in_map_iff. intros [c [Hc _]]. discriminate. Qed.

Lemma NoDup_map_PAt ad : NoDup ad -> NoDup (map PAt ad).
Proof.
  intro H. apply NoDup_map_inv with (f := fun p => match p with PAt a => a | PRoot => O end).
  rewrite map_map. simpl. now rewrite map_id.
Qed.

Lemma NoDup_ring_tl ad : NoDup ad -> NoDup (map PAt ad ++ [PRoot]).
Proof.
  intro H. apply NoDup_app; [now apply NoDup_map_PAt|repeat constructor; auto|].
  intros x Hx [<-|[]]. exact (PRoot_notin_map _ Hx).
Qed.

Lemma node_of_with_len (m : Mem) z q : node_of (with_len m z) q = node_of m q.
Proof. now destruct q. Qed.

Lemma next_of_with_len (m : Mem) z q : next_of (with_len m z) q = next_of m q.
Proof. now destruct q. Qed.

Lemma prev_of_with_len (m : Mem) z q : prev_of (with_len m z) q = prev_of m q.
Proof. now destruct q. Qed.

Lemma ptr_neq_at a b : a <> b -> PAt a <> PAt b.
Proof. congruence. Qed.

End Ring.

Section Push.
Context {K V : Type}.
Local Notation Mem := (@Mem K V).
Local Notation adj := (@adj K V).
Local Notation repr := (@repr K V).

Lemma info_with_len (m : Mem) z a : info (with_len m z) a = info m a.
Proof. reflexivity. Qed.

Lemma ring_tail_shape ad :
  exists f T', map PAt ad ++ [PRoot] = f :: T' /\
    (f = PRoot \/ exists b, f = PAt b /\ In b ad).
Proof.
  destruct ad as [|b ad]; simpl.
  - exists PRoot, []. split; [reflexivity|now left].
  - exists (PAt b), (map PAt ad ++ [PRoot]). split; [reflexivity|right].
    exists b. split; [reflexivity|now left].
Qed.

Lemma In_ring_tail q ad :
  In q (map PAt ad ++ [PRoot]) -> q = PRoot \/ exists b, q = PAt b /\ In b ad.
Proof.
  intro H. apply in_app_or in H. destruct H as [H|[H|[]]]; [|now left].
  right. apply in_map_iff in H. destruct H as [b [<- Hb]]. eauto.
Qed.

Lemma insertValue_front (m : Mem) ad l k v x :
  repr m ad l ->
  exists m', insertValue k v x PRoot m = Some (m', PAt (fresh m)) /\
             repr m' (fresh m :: ad) (mkEntry k v x 0 :: l).
Proof.
  intros R. pose proof R as (A & ND & L & F & Lt & Hf).
  set (a := fresh m).
  set (m0 := mkMem (root m) (len m) (upd (heap m) a (mkNode None None false k v x 0)) (S a)).
  assert (N0 : forall q, q <> PAt a -> node_of m0 q = node_of m q).
  { intros [|b] Hq; [reflexivity|]. simpl. unfold upd.
    destruct (Nat.eqb b a) eqn:E; [apply Nat.eqb_eq in E; congruence|reflexivity]. }
  assert (Nx0 : forall q, q <> PAt a -> next_of m0 q = next_of m q).
  { intros q Hq. unfold next_of. now rewrite N0. }
  assert (Pv0 : forall q, q <> PAt a -> prev_of m0 q = prev_of m q).
  { intros q Hq. unfold prev_of. now rewrite N0. }
  assert (I0 : forall b, b <> a -> info m0 b = info m b).
  { intros b Hb. unfold info. change (heap m0 b) with (node_of m0 (PAt b)).
    rewrite N0; [reflexivity|congruence]. }
  assert (Na : node_of m0 (PAt a) = Some (mkNode None None false k v x 0)).
  { simpl. unfold upd. now rewrite Nat.eqb_refl. }
  assert (Hna : forall b, In b ad -> b <> a).
  { intros b Hb Hba. specialize (Lt _ Hb). subst a. lia. }
  destruct (ring_tail_shape ad) as (f & T' & ET & Hfs).
  unfold ring in A. rewrite ET in A. destruct A as (Nr & Pf & A).
  assert (Hfa : f <> PAt a).
  { destruct Hfs as [->|(b & -> & Hb)]; [discriminate|]. apply ptr_neq_at, Hna, Hb. }
  assert (Hf0 : node_of m0 f <> None).
  { rewrite N0 by exact Hfa. destruct Hfs as [->|(b & -> & Hb)]; [discriminate|].
    exact (repr_node _ _ _ _ R Hb). }
  change (insertValue k v x PRoot m) with (insert (PAt a) PRoot m0).
  rewrite insert_halves.
  destruct (link_spec m0 (PAt a) PRoot f) as
    (m4 & E4 & S4 & N4e & N4r & N4' & P4e & P4f & P4' & I4);
    [rewrite Na; discriminate|exact Nr|exact Hf0|discriminate|congruence|].
  rewrite E4.
  destruct (set_inlist_spec m4 a true) as (m5 & E5 & S5 & N5 & P5 & I5 & I5');
    [apply (same_cells_node m0); [exact S4|rewrite Na; discriminate]|].
  rewrite E5. exists (with_len m5 (len m5 + 1)). split; [reflexivity|].
  assert (S05 : same_cells m0 m5) by (eapply same_cells_trans; eauto).
  destruct S05 as (C05 & L05 & F05).
  split; [|split; [|split; [|split]]].
  - unfold ring. simpl map. rewrite <- app_comm_cons, ET.
    split; [|split; [|split; [|split]]].
    + now rewrite next_of_with_len, N5.
    + now rewrite prev_of_with_len, P5.
    + now rewrite next_of_with_len, N5.
    + now rewrite prev_of_with_len, P5.
    + apply (adj_frame m); [exact A| |].
      * intros y Hy. rewrite <- ET, removelast_last in Hy.
        apply in_map_iff in Hy. destruct Hy as (b & <- & Hb).
        rewrite next_of_with_len, N5, N4'; [|apply ptr_neq_at, Hna, Hb|discriminate].
        apply Nx0, ptr_neq_at, Hna, Hb.
      * intros y Hy. simpl in Hy.
        assert (NDT : NoDup (f :: T')) by (rewrite <- ET; now apply NoDup_ring_tl).
        assert (Hyf : y <> f) by (intros ->; inversion NDT; contradiction).
        assert (Hya : y <> PAt a).
        { intros ->. assert (Hin : In (PAt a) (map PAt ad ++ [PRoot]))
            by (rewrite ET; now right).
          apply In_ring_tail in Hin. destruct Hin as [Hin|(b & Hb & Hin)]; [discriminate|].
          inversion Hb; subst b. exact (Hna a Hin eq_refl). }
        rewrite prev_of_with_len, P5, P4' by assumption. now apply Pv0.
  - constructor; [intro Ha; exact (Hna a Ha eq_refl)|exact ND].
  - cbn [len with_len]. rewrite L05. change (len m0) with (len m). rewrite L.
    simpl length. rewrite Nat2Z.inj_succ. lia.
  - constructor.
    + rewrite info_with_len, I5, I4. unfold info. change (heap m0 a) with (node_of m0 (PAt a)).
      now rewrite Na.
    + apply Forall2_info_frame with m; [exact F|]. intros b Hb.
      rewrite info_with_len, I5' by exact (Hna b Hb). rewrite I4. apply I0, Hna, Hb.
  - split.
    + intros b Hb. cbn [fresh with_len]. rewrite F05. change (fresh m0) with (S a).
      destruct Hb as [<-|Hb]; [lia|]. specialize (Lt _ Hb). subst a. lia.
    + intros b Hb. cbn [fresh with_len] in Hb. rewrite F05 in Hb.
      change (fresh m0) with (S a) in Hb.
      change (heap (with_len m5 (len m5 + 1)) b) with (node_of m5 (PAt b)).
      apply C05. rewrite N0 by (apply ptr_neq_at; lia). simpl. apply Hf. subst a. lia.
Qed.

End Push.

Section Splice.
Context {K V : Type}.
Local Notation Mem := (@Mem K V).
Local Notation adj := (@adj K V).
Local Notation repr := (@repr K V).

Lemma adj_split (m : Mem) xs ys : adj m (xs ++ ys) -> adj m xs /\ adj m ys.
Proof.
  destruct ys as [|y ys]; [rewrite app_nil_r; simpl; auto|].
  rewrite adj_app. intros [A B]. split; [|exact B].
  clear B. induction xs as [|x xs IH]; [simpl; auto|].
  destruct xs as [|x' xs]; [simpl; auto|]. simpl in *. tauto.
Qed.

Lemma NoDup_app_neq {A} (X Y : list A) q r :
  NoDup (X ++ Y) -> In q X -> In r Y -> q <> r.
Proof.
  intros ND Hq Hr ->. induction X as [|x X IH]; [contradiction|].
  inversion ND as [|? ? Hx ND']; subst. destruct Hq as [->|Hq].
  - apply Hx, in_or_app. now right.
  - exact (IH ND' Hq).
Qed.

Lemma tl_app_nonempty {A} (xs ys : list A) : xs <> [] -> tl (xs ++ ys) = tl xs ++ ys.
Proof. destruct xs; [congruence|reflexivity]. Qed.

(** Unlinking [x] from between [p] and [n] leaves the rest of the ring linked. *)
Lemma unlink_adj (m m' : Mem) P0 p x n B :
  adj m (P0 ++ p :: x :: n :: B) ->
  NoDup (P0 ++ p :: x :: removelast (n :: B)) ->
  NoDup (tl (P0 ++ [p]) ++ x :: n :: B) ->
  next_of m' p = Some (Some n) -> prev_of m' n = Some (Some p) ->
  (forall q, q <> p -> q <> x -> next_of m' q = next_of m q) ->
  (forall q, q <> n -> q <> x -> prev_of m' q = prev_of m q) ->
  adj m' (P0 ++ p :: n :: B).
Proof.
  intros A ND1 ND2 Np Pn HN HP.
  rewrite adj_app in A. destruct A as [A1 (_ & _ & _ & _ & A2)].
  rewrite adj_app. split; [|split; [exact Np|split; [exact Pn|]]].
  - apply (adj_frame m); [exact A1| |].
    + intros q Hq. rewrite removelast_last in Hq.
      apply HN; [apply (NoDup_app_neq _ _ _ _ ND1 Hq); now left|].
      apply (NoDup_app_neq _ _ _ _ ND1 Hq). right; now left.
    + intros q Hq. apply HP.
      * apply (NoDup_app_neq _ _ _ _ ND2 Hq). right; now left.
      * apply (NoDup_app_neq _ _ _ _ ND2 Hq). now left.
  - assert (ND1' : NoDup ((P0 ++ [p; x]) ++ removelast (n :: B)))
      by (rewrite <- app_assoc; exact ND1).
    assert (ND2' : NoDup ((tl (P0 ++ [p]) ++ [x; n]) ++ B))
      by (rewrite <- app_assoc; exact ND2).
    assert (Inp : In p (P0 ++ [p; x])) by (apply in_or_app; right; now left).
    assert (Inx : In x (P0 ++ [p; x])) by (apply in_or_app; right; right; now left).
    assert (Inx' : In x (tl (P0 ++ [p]) ++ [x; n])) by (apply in_or_app; right; now left).
    assert (Inn : In n (tl (P0 ++ [p]) ++ [x; n])) by (apply in_or_app; right; right; now left).
    apply (adj_frame m); [exact A2| |].
    + intros q Hq. apply HN.
      * intros ->. exact (NoDup_app_neq _ _ _ _ ND1' Inp Hq eq_refl).
      * intros ->. exact (NoDup_app_neq _ _ _ _ ND1' Inx Hq eq_refl).
    + intros q Hq. apply HP.
      * intros ->. exact (NoDup_app_neq _ _ _ _ ND2' Inn Hq eq_refl).
      * intros ->. exact (NoDup_app_neq _ _ _ _ ND2' Inx' Hq eq_refl).
Qed.

End Splice.

Section Splice2.
Context {K V : Type}.
Local Notation Mem := (@Mem K V).
Local Notation adj := (@adj K V).
Local Notation repr := (@repr K V).

(** The links of the ring over [ad], with a cell behind every address. *)
Definition ring_ok (m : Mem) (ad : list nat) : Prop :=
  adj m (ring ad) /\ NoDup ad /\ (forall b, In b ad -> node_of m (PAt b) <> None).

Lemma repr_ring_ok (m : Mem) ad l : repr m ad l -> ring_ok m ad.
Proof.
  intro R. pose proof R as (A & ND & _). split; [exact A|split; [exact ND|]].
  intros b Hb. exact (repr_node _ _ _ _ R Hb).
Qed.

Lemma removelast_ring ad : removelast (ring ad) = PRoot :: map PAt ad.
Proof. unfold ring. now rewrite app_comm_cons, removelast_last. Qed.

Lemma NoDup_ring_init ad : NoDup ad -> NoDup (PRoot :: map PAt ad).
Proof. intro H. constructor; [apply PRoot_notin_map|now apply NoDup_map_PAt]. Qed.

Lemma unlink_ok (m : Mem) ad1 a ad2 :
  ring_ok m (ad1 ++ a :: ad2) ->
  exists m2, unlink (PAt a) m = Some m2 /\ same_cells m m2 /\
    (forall b, info m2 b = info m b) /\ adj m2 (ring (ad1 ++ ad2)).
Proof.
  intros (A & ND & Hn).
  assert (Hne : PRoot :: map PAt ad1 <> []) by discriminate.
  destruct (exists_last Hne) as (P0 & p & EP).
  destruct (ring_tail_shape ad2) as (n & B & EN & Hns).
  assert (ER : ring (ad1 ++ a :: ad2) = P0 ++ p :: PAt a :: n :: B).
  { unfold ring. rewrite map_app. simpl map. rewrite <- app_assoc. simpl app.
    rewrite EN, app_comm_cons, EP, <- app_assoc. reflexivity. }
  assert (ER2 : ring (ad1 ++ ad2) = P0 ++ p :: n :: B).
  { unfold ring. rewrite map_app, <- app_assoc, EN, app_comm_cons, EP, <- app_assoc.
    reflexivity. }
  assert (ND1 : NoDup (P0 ++ p :: PAt a :: removelast (n :: B))).
  { pose proof (NoDup_ring_init _ ND) as H1. rewrite <- removelast_ring, ER in H1.
    rewrite removelast_app in H1 by discriminate. exact H1. }
  assert (ND2 : NoDup (tl (P0 ++ [p]) ++ PAt a :: n :: B)).
  { pose proof (NoDup_ring_tl _ ND) as H1.
    change (map PAt (ad1 ++ a :: ad2) ++ [PRoot]) with (tl (ring (ad1 ++ a :: ad2))) in H1.
    rewrite ER in H1. replace (P0 ++ p :: PAt a :: n :: B)
      with ((P0 ++ [p]) ++ PAt a :: n :: B) in H1 by (rewrite <- app_assoc; reflexivity).
    rewrite tl_app_nonempty in H1 by (destruct P0; discriminate). exact H1. }
  pose proof A as A'. rewrite ER, adj_app in A'.
  destruct A' as [_ (Np & Pa & Na & Pn & _)].
  assert (Hpa : p <> PAt a).
  { apply NoDup_app_remove_l in ND1. inversion ND1 as [|? ? Hp _]; subst.
    intros ->. apply Hp. now left. }
  destruct (unlink_spec m (PAt a) p n Pa Na Hpa (next_of_node _ _ _ Np)
              (prev_of_node _ _ _ Pn))
    as (m2 & E2 & S2 & N2p & N2' & P2n & P2' & I2).
  exists m2. split; [exact E2|]. split; [exact S2|]. split; [exact I2|].
  rewrite ER2. rewrite ER in A.
  apply (unlink_adj m m2 P0 p (PAt a) n B A ND1 ND2 N2p P2n).
  - intros q Hq _. now apply N2'.
  - intros q Hq _. now apply P2'.
Qed.

Lemma link_front_ok (m : Mem) ad a :
  ring_ok m ad -> node_of m (PAt a) <> None -> ~ In a ad ->
  exists m4, link (PAt a) PRoot m = Some m4 /\ same_cells m m4 /\
    (forall b, info m4 b = info m b) /\ adj m4 (ring (a :: ad)).
Proof.
  intros (A & ND & Hn) Ha Hna.
  destruct (ring_tail_shape ad) as (f & T & ET & Hfs).
  unfold ring in A. rewrite ET in A. destruct A as (Nr & Pf & A).
  assert (Hfa : f <> PAt a).
  { destruct Hfs as [->|(b & -> & Hb)]; [discriminate|]. intro E; inversion E; subst.
    contradiction. }
  destruct (link_spec m (PAt a) PRoot f) as
    (m4 & E4 & S4 & N4e & N4r & N4' & P4e & P4f & P4' & I4);
    [exact Ha|exact Nr|exact (prev_of_node _ _ _ Pf)|discriminate|congruence|].
  exists m4. split; [exact E4|]. split; [exact S4|]. split; [exact I4|].
  unfold ring. simpl map. rewrite <- app_comm_cons, ET.
  split; [exact N4r|split; [exact P4e|split; [exact N4e|split; [exact P4f|]]]].
  apply (adj_frame m); [exact A| |].
  - intros y Hy. rewrite <- ET, removelast_last in Hy.
    apply in_map_iff in Hy. destruct Hy as (b & <- & Hb).
    apply N4'; [intro E; inversion E; subst; contradiction|discriminate].
  - intros y Hy. simpl in Hy.
    assert (NDT : NoDup (f :: T)) by (rewrite <- ET; now apply NoDup_ring_tl).
    apply P4'.
    + intros ->. assert (Hin : In (PAt a) (map PAt ad ++ [PRoot])) by (rewrite ET; now right).
      apply In_ring_tail in Hin. destruct Hin as [Hin|(b & Hb & Hin)]; [discriminate|].
      inversion Hb; subst b. contradiction.
    + intros ->. inversion NDT; contradiction.
Qed.

Lemma Forall2_split {A B} (R : A -> B -> Prop) xs1 x xs2 ys1 y ys2 :
  Forall2 R (xs1 ++ x :: xs2) (ys1 ++ y :: ys2) -> length xs1 = length ys1 ->
  Forall2 R xs1 ys1 /\ R x y /\ Forall2 R xs2 ys2.
Proof.
  revert ys1. induction xs1 as [|x1 xs1 IH]; intros [|y1 ys1] F L; try discriminate.
  - inversion F; subst. split; [constructor|now split].
  - inversion F; subst. destruct (IH ys1) as (F1 & Rxy & F2); [assumption|now inversion L|].
    split; [constructor; assumption|now split].
Qed.

End Splice2.

Section Refine.
Context {K V : Type} `{Comparable K}.
Local Notation Mem := (@Mem K V).
Local Notation adj := (@adj K V).
Local Notation repr := (@repr K V).

Lemma Remove_mid (l1 : list (Entry K V)) e l2 :
  ~ In (Key e) (map Key l1) -> Internal.Remove (Key e) (l1 ++ e :: l2) = l1 ++ l2.
Proof.
  induction l1 as [|x l1 IH]; intro Hn; simpl.
  - unfold same_key. now destruct (key_eq_dec (Key e) (Key e)).
  - unfold same_key at 1. destruct (key_eq_dec (Key x) (Key e)) as [E|E].
    + exfalso. apply Hn. now left.
    + f_equal. apply IH. intro Hi. apply Hn. now right.
Qed.

Lemma NoDup_map_Key_mid (l1 : list (Entry K V)) e l2 :
  NoDup (map Key (l1 ++ e :: l2)) -> ~ In (Key e) (map Key l1).
Proof.
  rewrite map_app. simpl. intros ND Hi.
  exact (NoDup_app_neq _ _ _ _ ND Hi (or_introl eq_refl) eq_refl).
Qed.

Lemma info_true_node (m : Mem) a e :
  info m a = Some (true, e) ->
  exists n, node_of m (PAt a) = Some n /\ nlist n = true /\ entry_of n = e.
Proof.
  unfold info. simpl. destruct (heap m a) as [n|]; [|discriminate].
  intro E. inversion E. eauto.
Qed.

Lemma Remove_spec (m : Mem) ad1 a ad2 l1 e l2 :
  repr m (ad1 ++ a :: ad2) (l1 ++ e :: l2) ->
  length ad1 = length l1 ->
  exists m', Remove (PAt a) m = Some (m', Value e) /\
    repr m' (ad1 ++ ad2) (l1 ++ l2) /\ info m' a = Some (false, e).
Proof.
  intros R L. pose proof R as (A & ND & Ln & F & Lt & Hf).
  destruct (Forall2_split _ _ _ _ _ _ _ F L) as (F1 & Fa & F2).
  destruct (unlink_ok m ad1 a ad2 (repr_ring_ok _ _ _ R)) as (m2 & E2 & S2 & I2 & A2).
  rewrite Remove_halves, E2.
  assert (Hin : In a (ad1 ++ a :: ad2)) by (apply in_or_app; right; now left).
  assert (Ha2 : node_of m2 (PAt a) <> None)
    by exact (same_cells_node _ _ _ S2 (repr_node _ _ _ _ R Hin)).
  destruct (set_next_spec m2 (PAt a) None Ha2) as (m3 & E3 & S3 & N3a & N3' & P3 & I3).
  rewrite E3. cbv beta iota.
  destruct (set_prev_spec m3 (PAt a) None (same_cells_node _ _ _ S3 Ha2))
    as (m4 & E4 & S4 & P4a & P4' & N4 & I4).
  rewrite E4. cbv beta iota.
  destruct (set_inlist_spec m4 a false (same_cells_node _ _ _ S4 (same_cells_node _ _ _ S3 Ha2)))
    as (m5 & E5 & S5 & N5 & P5 & I5 & I5').
  rewrite E5. cbv beta iota.
  assert (Ia : info m5 a = Some (false, e)) by now rewrite I5, I4, I3, I2, Fa.
  assert (En5 : exists n5, node_of m5 (PAt a) = Some n5 /\ nlist n5 = false /\ entry_of n5 = e).
  { unfold info in Ia. simpl. destruct (heap m5 a) as [n5|]; [|discriminate].
    inversion Ia. eauto. }
  destruct En5 as (n5 & En5 & Hl5 & He5). rewrite En5.
  exists (with_len m5 (len m5 - 1)). split; [now rewrite <- He5|].
  assert (S25 : same_cells m2 m5) by (eapply same_cells_trans; [exact S3|];
                                      eapply same_cells_trans; eauto).
  pose proof (same_cells_trans _ _ _ S2 S25) as (C & LL & FF).
  assert (Hna : ~ In a (ad1 ++ ad2)) by (apply NoDup_remove_2; exact ND).
  assert (Ib : forall b, In b (ad1 ++ ad2) -> info (with_len m5 (len m5 - 1)) b = info m b).
  { intros b Hb. assert (b <> a) by (intros ->; contradiction).
    rewrite info_with_len, I5', I4, I3, I2 by assumption. reflexivity. }
  split; [|exact Ia].
  split; [|split; [|split; [|split; [|split]]]].
  - apply (adj_frame m2); [exact A2| |].
    + intros q Hq. rewrite removelast_ring in Hq.
      assert (q <> PAt a).
      { intros ->. destruct Hq as [Hq|Hq]; [discriminate|].
        apply In_map_PAt in Hq. contradiction. }
      rewrite next_of_with_len, N5, N4. now apply N3'.
    + intros q Hq. simpl in Hq.
      assert (q <> PAt a).
      { intros ->. apply In_ring_tail in Hq. destruct Hq as [Hq|(b & Hb & Hq)];
        [discriminate|inversion Hb; subst; contradiction]. }
      rewrite prev_of_with_len, P5, P4' by assumption. now rewrite P3.
  - exact (NoDup_remove_1 _ _ _ ND).
  - cbn [len with_len]. rewrite LL, Ln, !length_app. simpl length. lia.
  - apply Forall2_info_frame with m; [now apply Forall2_app|exact Ib].
  - intros b Hb. cbn [fresh with_len]. rewrite FF. apply Lt.
    apply in_app_or in Hb. apply in_or_app. destruct Hb as [Hb|Hb]; [now left|right; now right].
  - intros b Hb. cbn [fresh with_len] in Hb. rewrite FF in Hb.
    change (heap (with_len m5 (len m5 - 1)) b) with (node_of m5 (PAt b)).
    apply C. exact (Hf b Hb).
Qed.

End Refine.

Section Refine2.
Context {K V : Type} `{Comparable K}.
Local Notation Mem := (@Mem K V).
Local Notation adj := (@adj K V).
Local Notation repr := (@repr K V).

Lemma MoveToFront_mid (l1 : list (Entry K V)) e l2 :
  NoDup (map Key (l1 ++ e :: l2)) ->
  Internal.MoveToFront e (l1 ++ e :: l2) = e :: l1 ++ l2.
Proof.
  intro ND. pose proof (NoDup_map_Key_mid _ _ _ ND) as Hn.
  destruct l1 as [|x l1]; simpl.
  - unfold same_key. now destruct (key_eq_dec (Key e) (Key e)).
  - assert (Hx : same_key (Key e) x = false).
    { unfold same_key. destruct (key_eq_dec (Key x) (Key e)) as [E|E]; [|reflexivity].
      exfalso. apply Hn. now left. }
    rewrite Hx. cbn [Internal.Remove]. rewrite ?Hx, Remove_mid; [reflexivity|].
    intro Hi. apply Hn. now right.
Qed.

Lemma MoveToFront_spec (m : Mem) ad1 a ad2 l1 e l2 :
  repr m (ad1 ++ a :: ad2) (l1 ++ e :: l2) ->
  length ad1 = length l1 ->
  exists m', MoveToFront (PAt a) m = Some m' /\ repr m' (a :: ad1 ++ ad2) (e :: l1 ++ l2).
Proof.
  intros R L. pose proof R as (A & ND & Ln & F & Lt & Hf).
  destruct (Forall2_split _ _ _ _ _ _ _ F L) as (F1 & Fa & F2).
  destruct (info_true_node _ _ _ Fa) as (na & Ena & Hla & Hea).
  unfold MoveToFront. rewrite Ena. cbv beta iota. rewrite Hla. cbn [negb orb].
  destruct ad1 as [|b ad1'].
  - destruct l1; [|discriminate]. exists m. simpl app in *.
    destruct A as (Nr & _). unfold next_of in Nr. simpl in Nr. inversion Nr as [Nr'].
    rewrite Nr'. simpl optr_eqb. rewrite Nat.eqb_refl. simpl orb. split; [reflexivity|exact R].
  - assert (Hba : b <> a).
    { intros ->. apply NoDup_remove_2 in ND. apply ND. now left. }
    destruct A as (Nr & _). unfold next_of in Nr. simpl in Nr. inversion Nr as [Nr'].
    rewrite Nr'. simpl optr_eqb. rewrite (proj2 (Nat.eqb_neq b a) Hba).
    rewrite move_halves. simpl ptr_eqb.
    set (ad1 := b :: ad1') in *.
    destruct (unlink_ok m ad1 a ad2 (repr_ring_ok _ _ _ R)) as (m2 & E2 & S2 & I2 & A2).
    rewrite E2.
    assert (Hin : In a (ad1 ++ a :: ad2)) by (apply in_or_app; right; now left).
    assert (Hna : ~ In a (ad1 ++ ad2)) by (apply NoDup_remove_2; exact ND).
    assert (RO : ring_ok m2 (ad1 ++ ad2)).
    { split; [exact A2|split; [exact (NoDup_remove_1 _ _ _ ND)|]].
      intros c Hc. apply (same_cells_node m); [exact S2|].
      apply (repr_node _ _ _ _ R). apply in_app_or in Hc. apply in_or_app.
      destruct Hc; [now left|right; now right]. }
    destruct (link_front_ok m2 (ad1 ++ ad2) a RO
                (same_cells_node _ _ _ S2 (repr_node _ _ _ _ R Hin)) Hna)
      as (m4 & E4 & S4 & I4 & A4).
    exists m4. split; [exact E4|].
    pose proof (same_cells_trans _ _ _ S2 S4) as (C & LL & FF).
    split; [exact A4|split; [|split; [|split; [|split]]]].
    + constructor; [exact Hna|exact (NoDup_remove_1 _ _ _ ND)].
    + rewrite LL, Ln. simpl length. rewrite !length_app. simpl length. lia.
    + constructor; [now rewrite I4, I2|].
      apply Forall2_info_frame with m; [now apply Forall2_app|].
      intros c _. now rewrite I4, I2.
    + intros c Hc. rewrite FF. apply Lt. destruct Hc as [<-|Hc]; [exact Hin|].
      apply in_app_or in Hc. apply in_or_app. destruct Hc; [now left|right; now right].
    + intros c Hc. rewrite FF in Hc.
      change (heap m4 c) with (node_of m4 (PAt c)). apply C. exact (Hf c Hc).
Qed.

Lemma MoveToFront_front (m : Mem) a ad2 e l2 :
  repr m (a :: ad2) (e :: l2) -> MoveToFront (PAt a) m = Some m.
Proof.
  intros R. pose proof R as (A & _ & _ & F & _).
  inversion F as [|? ? ? ? Fa _]; subst.
  destruct (info_true_node _ _ _ Fa) as (na & Ena & Hla & _).
  unfold MoveToFront. rewrite Ena. cbv beta iota. rewrite Hla. cbn [negb orb].
  destruct A as (Nr & _). unfold next_of in Nr. simpl in Nr. inversion Nr as [Nr'].
  rewrite Nr'. simpl optr_eqb. rewrite Nat.eqb_refl. reflexivity.
Qed.

End Refine2.

Section Walk.
Context {K V : Type}.
Local Notation Mem := (@Mem K V).
Local Notation adj := (@adj K V).
Local Notation repr := (@repr K V).

(** The element [l.Back()] of a ring over [ad]. *)
Definition last_ptr (ad : list nat) : option Ptr :=
  match ad with [] => None | _ => Some (PAt (last ad O)) end.

Lemma last_ptr_snoc ad x : last_ptr (ad ++ [x]) = Some (PAt x).
Proof. unfold last_ptr. rewrite last_last. now destruct ad. Qed.

Lemma list_snoc_case {A} (l : list A) : l = [] \/ exists l' x, l = l' ++ [x].
Proof.
  destruct l as [|a l]; [now left|right].
  destruct (exists_last (l := a :: l) ltac:(discriminate)) as (l' & x & E). eauto.
Qed.

Lemma back_walk_prefix (m : Mem) ad l fuel :
  adj m (PRoot :: map PAt ad) ->
  Forall2 (fun a e => info m a = Some (true, e)) ad l ->
  (length ad <= fuel)%nat ->
  back_walk fuel (last_ptr ad) m = Some (rev l).
Proof.
  revert l fuel. induction ad as [|x ad IH] using rev_ind; intros l fuel A F Hf.
  - inversion F; subst. destruct fuel; reflexivity.
  - apply Forall2_app_inv_l in F. destruct F as (l0 & ly & F0 & Fy & ->).
    inversion Fy as [|? y ? ? Hy Fn]; subst. inversion Fn; subst.
    rewrite length_app in Hf. simpl in Hf.
    destruct fuel as [|fuel]; [lia|].
    rewrite last_ptr_snoc. destruct (info_true_node _ _ _ Hy) as (nx & Enx & Hl & He).
    cbn [back_walk]. rewrite Enx. cbv beta iota. unfold PrevEntry. rewrite Enx.
    cbv beta iota. rewrite Hl. cbn [andb].
    rewrite rev_app_distr. simpl rev. simpl app.
    destruct (list_snoc_case ad) as [->|(ad' & x0 & ->)].
    + apply Forall2_length in F0. destruct l0; [|discriminate]. destruct A as (_ & Px & _).
      unfold prev_of in Px. rewrite Enx in Px. simpl in Px. inversion Px as [Px'].
      rewrite Px'. simpl. destruct fuel; now rewrite He.
    + assert (A' : adj m ((PRoot :: map PAt ad') ++ PAt x0 :: [PAt x])).
      { rewrite <- app_assoc in A. rewrite !map_app in A. simpl in A |- *.
        exact A. }
      rewrite adj_app in A'. destruct A' as [A0 (_ & Px & _)].
      unfold prev_of in Px. rewrite Enx in Px. simpl in Px. inversion Px as [Px'].
      rewrite Px'. simpl optr_eqb. cbn [negb].
      rewrite <- (last_ptr_snoc ad' x0), (IH l0); [now rewrite He| | |].
      * rewrite map_app. exact A0.
      * exact F0.
      * lia.
Qed.

Lemma Back_last_ptr (m : Mem) ad l : repr m ad l -> Back m = last_ptr ad.
Proof.
  intros (A & _ & Ln & _). unfold Back. rewrite Ln.
  destruct (list_snoc_case ad) as [->|(ad' & x & ->)]; [reflexivity|].
  rewrite last_ptr_snoc, length_app. simpl length.
  replace (Z.of_nat (length ad' + 1) =? 0) with false by (symmetry; apply Z.eqb_neq; lia).
  assert (A' : adj m ((PRoot :: map PAt ad') ++ PAt x :: [PRoot])).
  { unfold ring in A. rewrite map_app in A. simpl in A |- *.
    rewrite <- app_assoc in A. exact A. }
  rewrite adj_app in A'. clear A. rename A' into A. destruct A as [_ (_ & Pr & _)].
  unfold prev_of in Pr. simpl in Pr. now inversion Pr.
Qed.

Lemma back_walk_repr (m : Mem) ad l fuel :
  repr m ad l -> (length l <= fuel)%nat ->
  back_walk fuel (Back m) m = Some (rev l).
Proof.
  intros R Hf. rewrite (Back_last_ptr _ _ _ R). pose proof R as (A & _ & _ & F & _).
  apply back_walk_prefix; [|exact F|now rewrite (Forall2_length F)].
  unfold ring in A. rewrite app_comm_cons in A. exact (proj1 (adj_split _ _ _ A)).
Qed.

Lemma lazyInit_repr (m : Mem) ad l : repr m ad l -> lazyInit m = m.
Proof.
  intros (A & _). unfold ring in A. destruct (ring_tail_shape ad) as (f & T & ET & _).
  rewrite ET in A. destruct A as (Nr & _). unfold next_of in Nr. simpl in Nr.
  inversion Nr as [Nr']. unfold lazyInit. now rewrite Nr'.
Qed.

Lemma lazyInit_zero (m : Mem) :
  nnext (root m) = None -> (forall b, (fresh m <= b)%nat -> heap m b = None) ->
  repr (lazyInit m) [] [].
Proof.
  intros Hr Hh. unfold lazyInit. rewrite Hr.
  split; [repeat split|split; [constructor|split; [reflexivity|split; [constructor|]]]].
  split; [intros b []|exact Hh].
Qed.

End Walk.

Section PtrTheorems.
Context {K V : Type} `{Comparable K}.
Local Notation Mem := (@Mem K V).
Local Notation repr := (@repr K V).

(** [PushToFront] and [PushToFrontExpirable] on a well-formed ring put a new
    element, at a fresh address, between the root and the old front: the ring
    then holds the new entry followed by the old ones, as the list model says. *)
Theorem ptr_push_front_refines (m : Mem) ad l k v x :
  repr m ad l ->
  (exists m', PushToFront k v m = Some (m', PAt (fresh m)) /\
     repr m' (fresh m :: ad) (Internal.PushToFront k v l)) /\
  (exists m', PushToFrontExpirable k v x m = Some (m', PAt (fresh m)) /\
     repr m' (fresh m :: ad) (Internal.PushToFrontExpirable k v x l)).
Proof.
  intro R. unfold PushToFront, PushToFrontExpirable. rewrite (lazyInit_repr _ _ _ R).
  split; apply insertValue_front; exact R.
Qed.

(** The zero value of [LRUList] (its root's [next] nil) is an empty list
    ready to use: [lazyInit] makes it the empty ring, whatever its [len] and
    [root.prev], and a push gives the one-element ring. *)
Theorem ptr_zero_list_push (m : Mem) k v x :
  nnext (root m) = None -> (forall b, (fresh m <= b)%nat -> heap m b = None) ->
  (exists m', PushToFront k v m = Some (m', PAt (fresh m)) /\
     repr m' [fresh m] (Internal.PushToFront k v [])) /\
  (exists m', PushToFrontExpirable k v x m = Some (m', PAt (fresh m)) /\
     repr m' [fresh m] (Internal.PushToFrontExpirable k v x [])).
Proof.
  intros Hr Hh. pose proof (lazyInit_zero m Hr Hh) as R.
  assert (Ef : fresh (lazyInit m) = fresh m) by (unfold lazyInit; now rewrite Hr).
  unfold PushToFront, PushToFrontExpirable. rewrite <- Ef.
  split; apply insertValue_front; exact R.
Qed.

(** [Remove(e)] on an element of a well-formed ring returns its value and
    leaves the ring of the other elements in order, one element shorter; when
    the keys are distinct this is the list model's [Remove] of its key.  The
    element is detached: [list] nil, so a later [MoveToFront(e)] changes
    nothing and [PrevEntry] is nil. *)
Theorem ptr_remove_refines (m : Mem) ad1 a ad2 l1 e l2 :
  repr m (ad1 ++ a :: ad2) (l1 ++ e :: l2) ->
  length ad1 = length l1 ->
  exists m', Remove (PAt a) m = Some (m', Value e) /\
    repr m' (ad1 ++ ad2) (l1 ++ l2) /\
    Len m' = Len m - 1 /\
    (NoDup (map Key (l1 ++ e :: l2)) -> l1 ++ l2 = Internal.Remove (Key e) (l1 ++ e :: l2)) /\
    MoveToFront (PAt a) m' = Some m' /\ PrevEntry (PAt a) m' = Some None.
Proof.
  intros R L. destruct (Remove_spec m ad1 a ad2 l1 e l2 R L) as (m' & E & R' & I).
  exists m'. split; [exact E|]. split; [exact R'|]. split.
  { pose proof R as (_ & _ & Ln & _). pose proof R' as (_ & _ & Ln' & _).
    unfold Len. rewrite Ln, Ln', !length_app. simpl length. lia. }
  split.
  { intros ND. rewrite Remove_mid by exact (NoDup_map_Key_mid _ _ _ ND). reflexivity. }
  unfold info in I. destruct (heap m' a) as [n|] eqn:En; [|discriminate].
  inversion I as [Hl]. unfold MoveToFront, PrevEntry. simpl node_of. rewrite En.
  cbv beta iota. rewrite Hl. split; reflexivity.
Qed.

(** [MoveToFront(e)] on an element of a well-formed ring makes it the front
    and keeps the others in order, the length unchanged; nothing changes when
    [e] is already the front; when the keys are distinct this is the list
    model's [MoveToFront]. *)
Theorem ptr_move_to_front_refines (m : Mem) ad1 a ad2 l1 e l2 :
  repr m (ad1 ++ a :: ad2) (l1 ++ e :: l2) ->
  length ad1 = length l1 ->
  exists m', MoveToFront (PAt a) m = Some m' /\
    repr m' (a :: ad1 ++ ad2) (e :: l1 ++ l2) /\
    Len m' = Len m /\ (ad1 = [] -> m' = m) /\
    (NoDup (map Key (l1 ++ e :: l2)) -> e :: l1 ++ l2 = Internal.MoveToFront e (l1 ++ e :: l2)).
Proof.
  intros R L. destruct (MoveToFront_spec m ad1 a ad2 l1 e l2 R L) as (m' & E & R').
  exists m'. split; [exact E|]. split; [exact R'|]. split.
  { pose proof R as (_ & _ & Ln & _). pose proof R' as (_ & _ & Ln' & _).
    unfold Len. rewrite Ln, Ln'. simpl length. rewrite !length_app. simpl length. lia. }
  split.
  { intros ->. destruct l1; [|discriminate]. simpl app in R.
    rewrite (MoveToFront_front m a ad2 e l2 R) in E. congruence. }
  intros ND. rewrite MoveToFront_mid by exact ND. reflexivity.
Qed.

(** [Len()] counts the elements, and the loop of [Keys] and [Values]
    ([Back()], then [PrevEntry()] until nil) visits every element once,
    oldest to newest, and stops. *)
Theorem ptr_back_walk_oldest_to_newest (m : Mem) ad l :
  repr m ad l ->
  Len m = Internal.Len l /\
  forall fuel, (length l <= fuel)%nat ->
    back_walk fuel (Back m) m = Some (oldest_to_newest l).
Proof.
  intro R. split.
  - pose proof R as (_ & _ & Ln & F & _). unfold Len, Internal.Len.
    rewrite Ln. now rewrite (Forall2_length F).
  - intros fuel Hf. exact (back_walk_repr m ad l fuel R Hf).
Qed.

End PtrTheorems.
End PtrList.

Module PtrListWitnesses.
Import Internal PtrList.
Local Open Scope nat_scope.

(** The ring [root <-> 1 <-> 0 <-> root] holding the entries of keys 2 and 1. *)
Definition pw_mem : @Mem nat nat :=
  mkMem (mkNode (Some (PAt 1)) (Some (PAt 0)) false 0 0 0%Z 0%Z) 2%Z
    (fun b => match b with
              | O => Some (mkNode (Some PRoot) (Some (PAt 1)) true 1 10 0%Z 0%Z)
              | 1%nat => Some (mkNode (Some (PAt 0)) (Some PRoot) true 2 20 0%Z 0%Z)
              | _ => None
              end) 2.

Definition pw_list : list (Entry nat nat) := [mkEntry 2 20 0%Z 0%Z; mkEntry 1 10 0%Z 0%Z].

(** The zero value [LRUList{}] with an empty heap. *)
Definition pz_mem : @Mem nat nat :=
  mkMem (mkNode None None false 0 0 0%Z 0%Z) 0%Z (fun _ => None) 0.

Lemma pw_repr : repr pw_mem [1; 0] pw_list.
Proof.
  split; [repeat split|].
  split; [constructor; [simpl; lia|constructor; [simpl; tauto|constructor]]|].
  split; [reflexivity|]. split; [repeat constructor|]. split.
  - intros a [<-|[<-|[]]]; simpl; lia.
  - intros [|[|b]] Hb; simpl in Hb; [lia|lia|reflexivity].
Qed.

Lemma ptr_push_front_refines_witness :
  repr pw_mem [1; 0] pw_list /\
  (exists m', PushToFront 3 30 pw_mem = Some (m', PAt (fresh pw_mem)) /\
     repr m' (fresh pw_mem :: [1; 0]) (Internal.PushToFront 3 30 pw_list)) /\
  (exists m', PushToFrontExpirable 3 30 7%Z pw_mem = Some (m', PAt (fresh pw_mem)) /\
     repr m' (fresh pw_mem :: [1; 0]) (Internal.PushToFrontExpirable 3 30 7%Z pw_list)).
Proof.
  split; [exact pw_repr|]. exact (ptr_push_front_refines pw_mem _ _ 3 30 7%Z pw_repr).
Defined.

Lemma ptr_zero_list_push_witness :
  nnext (root pz_mem) = None /\ (forall b, (fresh pz_mem <= b)%nat -> heap pz_mem b = None) /\
  (exists m', PushToFront 3 30 pz_mem = Some (m', PAt (fresh pz_mem)) /\
     repr m' [fresh pz_mem] (Internal.PushToFront 3 30 [])) /\
  (exists m', PushToFrontExpirable 3 30 7%Z pz_mem = Some (m', PAt (fresh pz_mem)) /\
     repr m' [fresh pz_mem] (Internal.PushToFrontExpirable 3 30 7%Z [])).
Proof.
  assert (H1 : nnext (root pz_mem) = None) by reflexivity.
  assert (H2 : forall b, (fresh pz_mem <= b)%nat -> heap pz_mem b = None)
    by (intros; reflexivity).
  split; [exact H1|split; [exact H2|]]. exact (ptr_zero_list_push pz_mem 3 30 7%Z H1 H2).
Defined.

Lemma ptr_remove_refines_witness :
  repr pw_mem ([1] ++ 0 :: []) ([mkEntry 2 20 0%Z 0%Z] ++ mkEntry 1 10 0%Z 0%Z :: []) /\
  length [1] = length [mkEntry 2 20 0%Z 0%Z] /\
  exists m', Remove (PAt 0) pw_mem = Some (m', 10) /\
    repr m' ([1] ++ []) ([mkEntry 2 20 0%Z 0%Z] ++ []) /\
    Len m' = (Len pw_mem - 1)%Z /\
    (NoDup (map Key ([mkEntry 2 20 0%Z 0%Z] ++ mkEntry 1 10 0%Z 0%Z :: [])) ->
     [mkEntry 2 20 0%Z 0%Z] ++ [] =
     Internal.Remove 1 ([mkEntry 2 20 0%Z 0%Z] ++ mkEntry 1 10 0%Z 0%Z :: [])) /\
    MoveToFront (PAt 0) m' = Some m' /\ PrevEntry (PAt 0) m' = Some None.
Proof.
  assert (L : length [1] = length [mkEntry (V := nat) 2 20 0 0]) by reflexivity.
  split; [exact pw_repr|split; [exact L|]].
  exact (ptr_remove_refines pw_mem [1] 0 [] [mkEntry 2 20 0%Z 0%Z] (mkEntry 1 10 0%Z 0%Z) []
           pw_repr L).
Defined.

Lemma ptr_move_to_front_refines_witness :
  repr pw_mem ([1] ++ 0 :: []) ([mkEntry 2 20 0%Z 0%Z] ++ mkEntry 1 10 0%Z 0%Z :: []) /\
  length [1] = length [mkEntry 2 20 0%Z 0%Z] /\
  exists m', MoveToFront (PAt 0) pw_mem = Some m' /\
    repr m' (0 :: [1] ++ []) (mkEntry 1 10 0%Z 0%Z :: [mkEntry 2 20 0%Z 0%Z] ++ []) /\
    Len m' = Len pw_mem /\ ([1] = [] -> m' = pw_mem) /\
    (NoDup (map Key ([mkEntry 2 20 0%Z 0%Z] ++ mkEntry 1 10 0%Z 0%Z :: [])) ->
     mkEntry 1 10 0%Z 0%Z :: [mkEntry 2 20 0%Z 0%Z] ++ [] =
     Internal.MoveToFront (mkEntry 1 10 0%Z 0%Z)
       ([mkEntry 2 20 0%Z 0%Z] ++ mkEntry 1 10 0%Z 0%Z :: [])).
Proof.
  assert (L : length [1] = length [mkEntry (V := nat) 2 20 0 0]) by reflexivity.
  split; [exact pw_repr|split; [exact L|]].
  exact (ptr_move_to_front_refines pw_mem [1] 0 [] [mkEntry 2 20 0%Z 0%Z] (mkEntry 1 10 0%Z 0%Z) []
           pw_repr L).
Defined.

Lemma ptr_back_walk_oldest_to_newest_witness :
  repr pw_mem [1; 0] pw_list /\
  Len pw_mem = Internal.Len pw_list /\
  forall fuel, (length pw_list <= fuel)%nat ->
    back_walk fuel (Back pw_mem) pw_mem = Some (oldest_to_newest pw_list).
Proof.
  split; [exact pw_repr|]. exact (ptr_back_walk_oldest_to_newest pw_mem _ _ pw_repr).
Defined.

End PtrListWitnesses.
